(** * Unit09 Builder: job pipeline and entity model

    A shallow embedding of the parts of the Unit09 code base that decide the
    ordering, failure and consistency guarantees of the worker and of the
    shared entity types:

    - [JS]       the ECMAScript built-ins the sources call ([String.prototype.trim],
                 [toLowerCase], [split], [BigInt], [BigInt.prototype.toString],
                 [parseInt], [Number.prototype.toString], adding 1 to a number);
    - [Metrics]  packages/shared-types/src/metrics.ts;
    - [Repo]     packages/shared-types/src/repo.ts and the tag projection of
                 packages/sdk/src/queries/listRepos.ts;
    - [JobQueue] services/worker/src/queue/jobQueue.ts and jobTypes.ts;
    - [Worker]   services/worker/src/index.ts and config.ts;
    - [Forks]    the fork store behind contracts/tests/unit09_forks.spec.ts;
    - [ListRepos], [ListForks]  packages/sdk/src/queries and utils/parsers.ts;
    - [RateLimiter]  services/api/src/middleware/rateLimiter.ts.

    Numbers that the sources use as counters, depths, version parts and epoch
    milliseconds are integers ([Z]); where the sources add to one, print one
    or parse one, the rounding of an IEEE double is written out. Strings are
    sequences of Latin-1 code points ([string]), on which the built-ins
    below agree with ECMAScript. *)

From Stdlib Require Import Ascii String ZArith Lia.
From stdpp Require Import gmap strings list sorting.

Local Open Scope Z_scope.

(** ** ECMAScript built-ins *)

Module JS.

(** WhiteSpace and LineTerminator code points below U+0100:
    TAB, LF, VT, FF, CR, SP and NBSP. *)
Definition is_white_space (c : ascii) : bool :=
  let n := N_of_ascii c in
  ((9 <=? n) && (n <=? 13) || (n =? 32) || (n =? 160))%N.

(** Simple lower-case mapping below U+0100: A-Z, and U+00C0-U+00DE but U+00D7. *)
Definition lower_char (c : ascii) : ascii :=
  let n := N_of_ascii c in
  if ((65 <=? n) && (n <=? 90) || (192 <=? n) && (n <=? 222) && negb (n =? 215))%N
  then ascii_of_N (n + 32)
  else c.

Fixpoint toLowerCase (s : string) : string :=
  match s with
  | EmptyString => EmptyString
  | String c r => String (lower_char c) (toLowerCase r)
  end.

Fixpoint trimStart (s : string) : string :=
  match s with
  | EmptyString => EmptyString
  | String c r => if is_white_space c then trimStart r else s
  end.

Fixpoint trimEnd (s : string) : string :=
  match s with
  | EmptyString => EmptyString
  | String c r =>
      match trimEnd r with
      | EmptyString => if is_white_space c then EmptyString else String c EmptyString
      | r' => String c r'
      end
  end.

Definition trim (s : string) : string := trimEnd (trimStart s).

(** [s.split(sep)] for a one-character separator: always at least one piece. *)
Fixpoint split (sep : ascii) (s : string) : list string :=
  match s with
  | EmptyString => [EmptyString]
  | String c r =>
      if Ascii.eqb c sep then EmptyString :: split sep r
      else match split sep r with
           | [] => [String c EmptyString]
           | p :: ps => String c p :: ps
           end
  end.

Fixpoint all_chars (p : ascii -> bool) (s : string) : bool :=
  match s with
  | EmptyString => true
  | String c r => p c && all_chars p r
  end.

Definition is_digit (c : ascii) : bool :=
  let n := N_of_ascii c in ((48 <=? n) && (n <=? 57))%N.

(** *** BigInt to string and back *)

Definition digit_char (d : Z) : ascii := ascii_of_N (48 + Z.to_N d).

(** Digits of [n], most significant first, in front of [acc]. *)
Fixpoint decimal_digits (fuel : nat) (n : Z) (acc : string) : string :=
  let acc' := String (digit_char (n mod 10)) acc in
  match fuel with
  | O => acc'
  | S f => if n <? 10 then acc' else decimal_digits f (n / 10) acc'
  end.

Definition digits_fuel (n : Z) : nat := Z.to_nat (Z.log2 n).

(** [BigInt.prototype.toString()], radix 10. *)
Definition bigint_toString (z : Z) : string :=
  if z <? 0
  then String "-" (decimal_digits (digits_fuel (- z)) (- z) EmptyString)
  else decimal_digits (digits_fuel z) z EmptyString.

(** Value of a digit in radices up to 16. *)
Definition digit_value (c : ascii) : option Z :=
  let n := N_of_ascii c in
  if ((48 <=? n) && (n <=? 57))%N then Some (Z.of_N n - 48)
  else if ((97 <=? n) && (n <=? 102))%N then Some (Z.of_N n - 87)
  else if ((65 <=? n) && (n <=? 70))%N then Some (Z.of_N n - 55)
  else None.

Fixpoint parse_digits_from (radix acc : Z) (s : string) : option Z :=
  match s with
  | EmptyString => Some acc
  | String c r =>
      match digit_value c with
      | Some d => if d <? radix then parse_digits_from radix (acc * radix + d) r else None
      | None => None
      end
  end.

(** One digit at least. *)
Definition parse_digits (radix : Z) (s : string) : option Z :=
  match s with
  | EmptyString => None
  | _ => parse_digits_from radix 0 s
  end.

(** StringToBigInt: white space is stripped, the empty string is [0n], then a
    [0x], [0o] or [0b] literal or an optionally signed decimal one. [None] is
    the SyntaxError that [BigInt(string)] throws. *)
Definition radix_of_prefix (c : ascii) : option Z :=
  if (Ascii.eqb c "x" || Ascii.eqb c "X")%char then Some 16
  else if (Ascii.eqb c "o" || Ascii.eqb c "O")%char then Some 8
  else if (Ascii.eqb c "b" || Ascii.eqb c "B")%char then Some 2
  else None.

Definition nondecimal_literal (t : string) : option (Z * string) :=
  match t with
  | String z (String c r) =>
      if Ascii.eqb z "0" then
        match radix_of_prefix c with
        | Some radix => Some (radix, r)
        | None => None
        end
      else None
  | _ => None
  end.

Definition signed_decimal (t : string) : option Z :=
  match t with
  | EmptyString => None
  | String c r =>
      if Ascii.eqb c "-" then Z.opp <$> parse_digits 10 r
      else if Ascii.eqb c "+" then parse_digits 10 r
      else parse_digits 10 t
  end.

Definition BigInt (s : string) : option Z :=
  let t := trim s in
  match t with
  | EmptyString => Some 0
  | _ =>
      match nondecimal_literal t with
      | Some (radix, r) => parse_digits radix r
      | None => signed_decimal t
      end
  end.

(** *** Numbers

    A JS number is an IEEE 754 double. The numbers this program computes
    with are integers and are kept as [Z]; what a double cannot hold
    exactly is rounded. *)

(** The double nearest to the integer [z], ties going to the even
    significand: 53 significant bits, the exponent range left aside (it
    comes in at 2^1024, see [to_number]). *)
Definition nearest_double (z : Z) : Z :=
  let a := Z.abs z in
  if a <? 2 ^ 53 then z
  else
    let k := Z.log2 a - 52 in
    let q := a / 2 ^ k in
    let r := a mod 2 ^ k in
    let half := 2 ^ (k - 1) in
    let q' :=
      if r <? half then q
      else if half <? r then q + 1
      else if Z.even q then q else q + 1 in
    Z.sgn z * (q' * 2 ^ k).

Definition MAX_SAFE_INTEGER : Z := 2 ^ 53 - 1.

(** [Number.isSafeInteger(z)] on an integer. *)
Definition isSafeInteger (z : Z) : bool := Z.abs z <=? MAX_SAFE_INTEGER.

(** [x + 1] on a double [x]: the exact sum, rounded. Adding 1 never leaves
    the range of the doubles. *)
Definition add_one (x : Z) : Z := nearest_double (x + 1).

(** A number that need not be an integer any more: what [parseInt] returns. *)
Inductive number := NaN | Infinity (negative : bool) | num (z : Z).

(** The number value of the integer [z]: the nearest double, and an
    infinity once that is 2^1024 or more in magnitude. *)
Definition to_number (z : Z) : number :=
  let d := nearest_double z in
  if 2 ^ 1024 <=? Z.abs d then Infinity (z <? 0) else num d.

(** [Number::toString] looks for the fewest digits [s] that read back as
    the double [x]. With [k] digits and [x] of [n] digits the candidates are
    the two multiples of 10^(n-k) around [x]; of two that both read back as
    [x] the nearer one is taken, the even one if they are as near. *)
Definition shortest_with (x n k : Z) : option Z :=
  let unit := 10 ^ (n - k) in
  let lo := x / unit in
  let hi := lo + 1 in
  let ok_lo := nearest_double (lo * unit) =? x in
  let ok_hi := nearest_double (hi * unit) =? x in
  if ok_lo && ok_hi then
    (if x - lo * unit <? hi * unit - x then Some lo
     else if hi * unit - x <? x - lo * unit then Some hi
     else if Z.even lo then Some lo else Some hi)
  else if ok_lo then Some lo
  else if ok_hi then Some hi
  else None.

(** The digits and their number, trying [k], [k + 1], ... digits; seventeen
    digits always read back. *)
Fixpoint shortest_from (fuel : nat) (x n k : Z) : Z * Z :=
  match fuel with
  | O => (x, n)
  | S f =>
      match shortest_with x n k with
      | Some s => (s, k)
      | None => shortest_from f x n (k + 1)
      end
  end.

Fixpoint zeros (n : nat) : string :=
  match n with
  | O => EmptyString
  | S m => String "0" (zeros m)
  end.

(** [d.ddde+x] for the digits [dddd] of a number of [n] digits. *)
Definition exponent_form (digits : string) (n : Z) : string :=
  match digits with
  | EmptyString => EmptyString
  | String d EmptyString => String d ("e+" +:+ bigint_toString (n - 1))
  | String d more => String d ("." +:+ more +:+ "e+" +:+ bigint_toString (n - 1))
  end.

(** [Number.prototype.toString()] on an integer-valued double. A safe
    integer prints as its decimal digits (fewer digits followed by zeros
    are those same digits). Beyond that the shortest digits that read back
    as the double are printed, followed by zeros while the number has at
    most 21 digits and in exponent form from 1e21 on. *)
Definition number_toString (z : Z) : string :=
  if isSafeInteger z then bigint_toString z
  else
    let x := Z.abs z in
    let n := Z.of_nat (String.length (bigint_toString x)) in
    let '(s, k) := shortest_from 17 x n 1 in
    let '(s, k, n) := if s =? 10 ^ k then (1, 1, n + 1) else (s, k, n) in
    let digits := bigint_toString s in
    (if z <? 0 then "-" else EmptyString) +:+
    (if n <=? 21 then digits +:+ zeros (Z.to_nat (n - k)) else exponent_form digits n).

(** [s.startsWith(p)]. *)
Fixpoint startsWith (s p : string) : bool :=
  match p, s with
  | EmptyString, _ => true
  | String a p', String b s' => Ascii.eqb a b && startsWith s' p'
  | String _ _, EmptyString => false
  end.

(** [s.includes(needle)]: [needle] starts at some position of [s]. *)
Fixpoint includes (s needle : string) : bool :=
  startsWith s needle ||
  match s with
  | EmptyString => false
  | String _ r => includes r needle
  end.

(** [array.slice(0, end)] for an integer [end]: a negative [end] counts
    from the end of the array. *)
Definition slice_to {A} (end_ : Z) (l : list A) : list A :=
  if end_ <? 0 then take (Z.to_nat (Z.of_nat (length l) + end_)) l
  else take (Z.to_nat end_) l.

(** [array.join(sep)] on strings. *)
Fixpoint join (sep : string) (l : list string) : string :=
  match l with
  | [] => EmptyString
  | [x] => x
  | x :: l' => x +:+ sep +:+ join sep l'
  end.

(** Truthiness of an optional string: [undefined], [null] and [""] are falsy. *)
Definition truthy_string (s : option string) : bool :=
  match s with
  | Some (String _ _) => true
  | _ => false
  end.

(** The value of the longest prefix of decimal digits of [s], on top of
    the digits read so far; [None] while no digit has been read. *)
Fixpoint digits_prefix_value (acc : option Z) (s : string) : option Z :=
  match s with
  | EmptyString => acc
  | String c r =>
      if is_digit c
      then digits_prefix_value (Some (default 0 acc * 10 + (Z.of_N (N_of_ascii c) - 48))) r
      else acc
  end.

(** The number for a sign and the value of a digit run: [NaN] when no
    digit was read. *)
Definition signed_number (negative : bool) (value : option Z) : number :=
  match value with
  | Some m => to_number (if negative then - m else m)
  | None => NaN
  end.

(** [parseInt(s, 10)]: leading white space is skipped, a sign is read, then
    the longest run of decimal digits; what follows is ignored. The answer
    is [NaN] when no digit is found, and otherwise the number value of the
    integer the digits spell. (Past twenty significant digits the standard
    lets an implementation read the further digits as zeros; all digits
    are read here.) *)
Definition parseInt10 (s : string) : number :=
  match trimStart s with
  | EmptyString => NaN
  | String c r =>
      if Ascii.eqb c "-" then signed_number true (digits_prefix_value None r)
      else if Ascii.eqb c "+" then signed_number false (digits_prefix_value None r)
      else signed_number false (digits_prefix_value None (String c r))
  end.

End JS.

(** ** packages/shared-types/src/metrics.ts *)

Module Metrics.

Record GlobalMetricsSnapshot := {
  totalRepos : Z;
  totalModules : Z;
  totalForks : Z;
  totalObservations : Z;
  totalLinesOfCode : Z;
  totalFilesProcessed : Z
}.

Record GlobalMetricsSnapshotJson := {
  totalReposJ : string;
  totalModulesJ : string;
  totalForksJ : string;
  totalObservationsJ : string;
  totalLinesOfCodeJ : string;
  totalFilesProcessedJ : string
}.

Definition globalMetricsToJson (input : GlobalMetricsSnapshot) : GlobalMetricsSnapshotJson :=
  {| totalReposJ := JS.bigint_toString (totalRepos input);
     totalModulesJ := JS.bigint_toString (totalModules input);
     totalForksJ := JS.bigint_toString (totalForks input);
     totalObservationsJ := JS.bigint_toString (totalObservations input);
     totalLinesOfCodeJ := JS.bigint_toString (totalLinesOfCode input);
     totalFilesProcessedJ := JS.bigint_toString (totalFilesProcessed input) |}.

(** [None] when one of the [BigInt(...)] calls throws; the fields are
    converted in the order of the object literal. *)
Definition globalMetricsFromJson (input : GlobalMetricsSnapshotJson) : option GlobalMetricsSnapshot :=
  r ← JS.BigInt (totalReposJ input);
  m ← JS.BigInt (totalModulesJ input);
  f ← JS.BigInt (totalForksJ input);
  o ← JS.BigInt (totalObservationsJ input);
  l ← JS.BigInt (totalLinesOfCodeJ input);
  p ← JS.BigInt (totalFilesProcessedJ input);
  Some {| totalRepos := r; totalModules := m; totalForks := f;
          totalObservations := o; totalLinesOfCode := l; totalFilesProcessed := p |}.

Inductive LifecycleStatus :=
  | created | observing | stable | degraded | error | archived.

Record LifecycleSummary := {
  createdAt : Z;
  lastActivityAt : Z;
  lastObservationAt : option Z;
  lastErrorAt : option Z;
  status : option LifecycleStatus
}.

Inductive LifecycleEventKind :=
  | repo_created | repo_updated | module_registered | module_updated
  | fork_created | fork_updated | observation_started | observation_completed
  | metrics_updated | error_event.

Inductive SubjectType := subject_repo | subject_module | subject_fork | subject_global.

Record LifecycleEvent := {
  id : string;
  kind : LifecycleEventKind;
  subjectType : SubjectType;
  subjectKey : string;
  message : string;
  timestamp : Z;
  errorCode : option string
}.

Definition is_observation (k : LifecycleEventKind) : bool :=
  match k with observation_started | observation_completed => true | _ => false end.

Definition is_error (k : LifecycleEventKind) : bool :=
  match k with error_event => true | _ => false end.

Definition applyLifecycleEvent (summary : LifecycleSummary) (event : LifecycleEvent) : LifecycleSummary :=
  let next := summary in
  let next :=
    {| createdAt := createdAt next;
       lastActivityAt := Z.max (lastActivityAt next) (timestamp event);
       lastObservationAt := lastObservationAt next;
       lastErrorAt := lastErrorAt next;
       status := status next |} in
  let next :=
    if is_observation (kind event) then
      {| createdAt := createdAt next;
         lastActivityAt := lastActivityAt next;
         lastObservationAt := Some (Z.max (default 0 (lastObservationAt next)) (timestamp event));
         lastErrorAt := lastErrorAt next;
         status := status next |}
    else next in
  let next :=
    if is_error (kind event) then
      {| createdAt := createdAt next;
         lastActivityAt := lastActivityAt next;
         lastObservationAt := lastObservationAt next;
         lastErrorAt := Some (Z.max (default 0 (lastErrorAt next)) (timestamp event));
         status := Some error |}
    else next in
  match status next with
  | Some _ => next
  | None =>
      {| createdAt := createdAt next;
         lastActivityAt := lastActivityAt next;
         lastObservationAt := lastObservationAt next;
         lastErrorAt := lastErrorAt next;
         status := Some created |}
  end.

(** A subject's summary after a sequence of events, applied oldest first. *)
Definition applyLifecycleEvents (summary : LifecycleSummary) (events : list LifecycleEvent) : LifecycleSummary :=
  foldl applyLifecycleEvent summary events.

(** The parts of a version are numbers; the model follows them where they
    are integers (as [parseSemanticVersion] yields them). *)
Definition SemanticVersionTuple : Type := Z * Z * Z.

(** [version[i]]; the tuple has exactly three parts. *)
Definition part_at (v : SemanticVersionTuple) (i : nat) : Z :=
  let '(major, minor, patch) := v in
  match i with
  | O => major
  | S O => minor
  | _ => patch
  end.

(** The [for] loop of [compareSemanticVersion], [steps] iterations from [i]. *)
Fixpoint compare_from (a b : SemanticVersionTuple) (i steps : nat) : Z :=
  match steps with
  | O => 0
  | S k =>
      if part_at a i <? part_at b i then -1
      else if part_at a i >? part_at b i then 1
      else compare_from a b (S i) k
  end.

Definition compareSemanticVersion (a b : SemanticVersionTuple) : Z :=
  compare_from a b 0 3.

Inductive VersionPart := major_part | minor_part | patch_part.

Definition bumpSemanticVersion (version : SemanticVersionTuple) (part : VersionPart) : SemanticVersionTuple :=
  let '(major, minor, patch) := version in
  match part with
  | major_part => (JS.add_one major, 0, 0)
  | minor_part => (major, JS.add_one minor, 0)
  | patch_part => (major, minor, JS.add_one patch)
  end.

(** The part of [version] that a bump of [part] counts up. *)
Definition bumped_part (version : SemanticVersionTuple) (part : VersionPart) : Z :=
  let '(major, minor, patch) := version in
  match part with
  | major_part => major
  | minor_part => minor
  | patch_part => patch
  end.

(** All three parts are safe integers. *)
Definition safe_version (version : SemanticVersionTuple) : bool :=
  let '(major, minor, patch) := version in
  JS.isSafeInteger major && JS.isSafeInteger minor && JS.isSafeInteger patch.

(** The order the module invariant names: lexicographic over
    (major, minor, patch). *)
Definition lex_lt (a b : SemanticVersionTuple) : Prop :=
  let '(a1, a2, a3) := a in
  let '(b1, b2, b3) := b in
  a1 < b1 \/ (a1 = b1 /\ (a2 < b2 \/ (a2 = b2 /\ a3 < b3))).

Record RepoMetricsSnapshot := {
  repoKey : string;
  modules : Z;
  forks : Z;
  observations : Z;
  linesOfCode : Z;
  filesProcessed : Z
}.

Record RepoMetricsSnapshotJson := {
  repoKeyJ : string;
  modulesJ : Z;
  forksJ : Z;
  observationsJ : Z;
  linesOfCodeJ : string;
  filesProcessedJ : string
}.

Definition repoMetricsToJson (input : RepoMetricsSnapshot) : RepoMetricsSnapshotJson :=
  {| repoKeyJ := repoKey input;
     modulesJ := modules input;
     forksJ := forks input;
     observationsJ := observations input;
     linesOfCodeJ := JS.bigint_toString (linesOfCode input);
     filesProcessedJ := JS.bigint_toString (filesProcessed input) |}.

(** [None] when one of the two [BigInt(...)] calls throws. *)
Definition repoMetricsFromJson (input : RepoMetricsSnapshotJson) : option RepoMetricsSnapshot :=
  l ← JS.BigInt (linesOfCodeJ input);
  p ← JS.BigInt (filesProcessedJ input);
  Some {| repoKey := repoKeyJ input; modules := modulesJ input; forks := forksJ input;
          observations := observationsJ input; linesOfCode := l; filesProcessed := p |}.

(** The template literal [`v${major}.${minor}.${patch}`]. *)
Definition formatSemanticVersion (version : SemanticVersionTuple) : string :=
  let '(major, minor, patch) := version in
  "v" +:+ JS.number_toString major +:+ "." +:+ JS.number_toString minor
      +:+ "." +:+ JS.number_toString patch.

End Metrics.

(** ** packages/shared-types/src/repo.ts *)

Module Repo.

Inductive RepoVisibility := public | private.

Inductive RepoSourceType := github | git_local | archive_source | custom.

Record RepoStats := {
  files : Z;
  linesOfCode : Z;
  modulesDetected : Z;
  lastObservationAt : option Z
}.

Record RepoMetadata := {
  repoKey : string;
  name : string;
  url : string;
  description : option string;
  repo_tags : list string;
  visibility : RepoVisibility;
  sourceType : RepoSourceType;
  defaultBranch : option string;
  allowObservation : bool;
  repo_isActive : bool;
  stats : option RepoStats;
  repo_createdAt : Z;
  repo_updatedAt : Z
}.

(** [normalizeRepoTags(tags)]; [None] is [undefined]. *)
Definition normalizeRepoTags (tags : option (list string)) : list string :=
  match tags with
  | None => []
  | Some [] => []
  | Some tags =>
      JS.toLowerCase <$>
        filter (fun tag => (0 < String.length tag)%nat) (JS.trim <$> tags)
  end.

(** The [tags] field of a raw repo account as [listRepos] finds it. *)
Inductive RawTags :=
  | tags_string (s : string)
  | tags_array (l : list string)
  | tags_absent.

(** packages/sdk/src/queries/listRepos.ts, the [tags] of a projected record. *)
Definition listRepos_tags (raw : RawTags) : list string :=
  normalizeRepoTags
    (Some match raw with
          | tags_string s => JS.split "," s
          | tags_array l => l
          | tags_absent => []
          end).

(** What a normalized tag looks like: trimmed, lower-case, not empty. *)
Definition tag_normal (t : string) : Prop :=
  JS.trim t = t /\ JS.toLowerCase t = t /\ t <> EmptyString.

Inductive ForkType := unit09_instance | module_variant | experiment | archive.

Record ForkMetadata := {
  forkKey : string;
  parent : option string;
  label : string;
  forkType : ForkType;
  metadataUri : option string;
  tags : list string;
  depth : Z;
  isRoot : bool;
  isActive : bool;
  createdAt : Z;
  updatedAt : Z
}.

Record ForkLineage := {
  rootForkKey : string;
  path : list string
}.

(** The comparator handed to [Array.prototype.sort]. *)
Definition by_depth (a b : ForkMetadata) : Z := depth a - depth b.

(** Ascending by depth. *)
Definition depth_le (a b : ForkMetadata) : Prop := depth a <= depth b.

(** [Array.prototype.sort] is stable: an element goes in front of the first
    one that the comparator does not put before it. *)
Fixpoint sort_insert {A} (cmp : A -> A -> Z) (x : A) (l : list A) : list A :=
  match l with
  | [] => [x]
  | y :: l' => if cmp x y <=? 0 then x :: l else y :: sort_insert cmp x l'
  end.

Fixpoint sort {A} (cmp : A -> A -> Z) (l : list A) : list A :=
  match l with
  | [] => []
  | x :: l' => sort_insert cmp x (sort cmp l')
  end.

Definition buildForkLineage (fork : ForkMetadata) (ancestors : list ForkMetadata) : ForkLineage :=
  let sorted := sort by_depth ancestors in
  let pathKeys := forkKey <$> sorted in
  let pathKeys := pathKeys ++ [forkKey fork] in
  let root := default (forkKey fork) (forkKey <$> head sorted) in
  {| rootForkKey := root; path := pathKeys |}.

End Repo.

(** ** services/worker/src/queue: jobTypes.ts and jobQueue.ts *)

Module JobQueue.

Inductive JobType :=
  | observeRepo | analyzeRepo | decompose | generateModules
  | validateModules | syncOnChain | forkEvolution.

Record PipelineSource := {
  repo : Repo.RepoMetadata;
  revision : string;
  localPath : option string
}.

(** The payload union: six variants carry a source, [ForkEvolutionPayload] a
    fork id; all extend [BaseJobPayload]. *)
Inductive JobPayload :=
  | source_payload (repoKey : string) (source : PipelineSource)
  | fork_evolution_payload (repoKey : string) (forkId : string).

Record Job := {
  id : string;
  type : JobType;
  payload : JobPayload;
  createdAt : Z;
  startedAt : option Z;
  completedAt : option Z;
  attempts : Z;
  maxAttempts : Z
}.

(** [output] is [unknown] in the source: whatever the stage functions
    return, kept here in serialized form. *)
Record JobResult := {
  success : bool;
  error : option string;
  output : option string
}.

(** The two module-level stores. Job objects live in [jobs] and are never
    removed, so a reference to a job object is its index there. *)
Record QueueState := {
  jobs : list Job;
  results : gmap string JobResult
}.

Abbreviation JobRef := nat (only parsing).

Definition empty_queue : QueueState := {| jobs := []; results := ∅ |}.

(** Truthiness of an optional number: [undefined] and [0] are falsy. *)
Definition truthy (t : option Z) : bool :=
  match t with
  | Some n => negb (n =? 0)
  | None => false
  end.

(** The predicate of [jobs.find] in [next]: [!job.startedAt]. *)
Definition unstarted (job : Job) : Prop := truthy (startedAt job) = false.

#[global] Instance unstarted_dec job : Decision (unstarted job).
Proof. unfold unstarted. apply _. Defined.

(** Every [startedAt] that is set holds a clock reading other than the epoch
    itself: [Date.now()] is the only value the worker ever writes there. *)
Definition clock_stamped (q : QueueState) : Prop :=
  Forall (fun job => startedAt job <> Some 0) (jobs q).

(** [enqueue(type, payload)]. The two clock readings and the random hex
    digits that make up the id are the call's inputs from the environment. *)
Definition enqueue (now_id : Z) (random_hex : string) (now_created : Z)
    (ty : JobType) (p : JobPayload) (q : QueueState) : Job * QueueState :=
  let job :=
    {| id := "job-" +:+ JS.number_toString now_id +:+ "-" +:+ random_hex;
       type := ty;
       payload := p;
       createdAt := now_created;
       startedAt := None;
       completedAt := None;
       attempts := 0;
       maxAttempts := 3 |} in
  (job, {| jobs := jobs q ++ [job]; results := results q |}).

(** [next()]: the first job that [find] accepts, with its reference. [find]
    only reads the array, so there is no new store to return. *)
Definition next (q : QueueState) : option (JobRef * Job) :=
  list_find unstarted (jobs q).

Definition set_completedAt (now : Z) (job : Job) : Job :=
  {| id := id job; type := type job; payload := payload job;
     createdAt := createdAt job; startedAt := startedAt job;
     completedAt := Some now;
     attempts := attempts job; maxAttempts := maxAttempts job |}.

(** [markCompleted(job, result)] at clock reading [now]. A reference that
    denotes no job object leaves the stores as they are. *)
Definition markCompleted (now : Z) (job : JobRef) (result : JobResult) (q : QueueState) : QueueState :=
  match jobs q !! job with
  | Some j =>
      {| jobs := <[job := set_completedAt now j]> (jobs q);
         results := <[id j := result]> (results q) |}
  | None => q
  end.

(** [list()]: a copy of the array, holding the same job objects. *)
Definition list_ (q : QueueState) : list Job := jobs q.

(** [getJobResult(jobId)]: [results[jobId]], read as a lookup in the table
    of stored results. That is what it is for every key that names no
    member of [Object.prototype], the ids [enqueue] makes ("job-...")
    among them; for a key such as "constructor" the plain object answers
    with an inherited member, which the table does not hold. *)
Definition getJobResult (jobId : string) (q : QueueState) : option JobResult :=
  results q !! jobId.

End JobQueue.

(** ** services/worker/src: config.ts, utils/metrics.ts, jobHandlers.ts, index.ts *)

Module Worker.
Import JobQueue.

Record WorkerConfig := {
  logLevel : string;
  pollIntervalMs : Z;
  maxConcurrentJobs : Z
}.

(** utils/metrics.ts: a counter and a gauge hold one number each. *)
Definition Counter : Type := Z.
Definition Gauge : Type := Z.
Definition counter_inc (delta : Z) (c : Counter) : Counter := c + delta.
Definition gauge_set (v : Z) (g : Gauge) : Gauge := v.

Record WorkerMetrics := {
  jobsStarted : Counter;
  jobsCompleted : Counter;
  jobsFailed : Counter;
  activeJobsGauge : Gauge
}.

Definition createWorkerMetrics : WorkerMetrics :=
  {| jobsStarted := 0; jobsCompleted := 0; jobsFailed := 0; activeJobsGauge := 0 |}.

(** jobHandlers.ts registers a handler under each of the seven job types.
    What a handler does is up to the external core engine; the worker only
    sees its promise fulfil or reject. *)
Definition handlers (ty : JobType) : bool :=
  match ty with
  | observeRepo | analyzeRepo | decompose | generateModules
  | validateModules | syncOnChain | forkEvolution => true
  end.

(** The state [main] closes over: the queue's stores, the [activeJobs]
    variable, the metrics, and the invocations of [tick] suspended at
    [await handler(...)], each holding its job. *)
Record WorkerState := {
  queue : QueueState;
  activeJobs : Z;
  metrics : WorkerMetrics;
  awaiting : list JobRef
}.

Definition initial : WorkerState :=
  {| queue := empty_queue; activeJobs := 0; metrics := createWorkerMetrics; awaiting := [] |}.

Definition set_startedAt (now : Z) (job : Job) : Job :=
  {| id := id job; type := type job; payload := payload job;
     createdAt := createdAt job; startedAt := Some now;
     completedAt := completedAt job;
     attempts := attempts job; maxAttempts := maxAttempts job |}.

Definition incr_attempts (job : Job) : Job :=
  {| id := id job; type := type job; payload := payload job;
     createdAt := createdAt job; startedAt := startedAt job;
     completedAt := completedAt job;
     attempts := attempts job + 1; maxAttempts := maxAttempts job |}.

(** Assignment to a field of the job object behind a reference. *)
Definition update_job (f : Job -> Job) (job : JobRef) (q : QueueState) : QueueState :=
  {| jobs := alter f job (jobs q); results := results q |}.

Fixpoint remove_first (job : JobRef) (l : list JobRef) : list JobRef :=
  match l with
  | [] => []
  | r :: l' => if decide (r = job) then l' else r :: remove_first job l'
  end.

Inductive TickOutcome :=
  | gated
  | idle
  | no_handler (job : JobRef)
  | dispatched (job : JobRef).

Section Loop.

Variable config : WorkerConfig.
(** [handlers[job.type]] is looked up at run time; [registry] says which
    types have an entry. *)
Variable registry : JobType -> bool.

(** [tick] up to its [await]: what one timer firing does. *)
Definition tick (now : Z) (w : WorkerState) : TickOutcome * WorkerState :=
  if maxConcurrentJobs config <=? activeJobs w then (gated, w)
  else
    match next (queue w) with
    | None => (idle, w)
    | Some (ref, job) =>
        if negb (registry (type job)) then (no_handler ref, w)
        else
          let q := update_job (set_startedAt now) ref (queue w) in
          let active := activeJobs w + 1 in
          let m := metrics w in
          (dispatched ref,
           {| queue := q;
              activeJobs := active;
              metrics :=
                {| jobsStarted := counter_inc 1 (jobsStarted m);
                   jobsCompleted := jobsCompleted m;
                   jobsFailed := jobsFailed m;
                   activeJobsGauge := gauge_set active (activeJobsGauge m) |};
              awaiting := ref :: awaiting w |})
    end.

(** The [finally] block. *)
Definition settle (job : JobRef) (w : WorkerState) : WorkerState :=
  let active := activeJobs w - 1 in
  let m := metrics w in
  {| queue := queue w;
     activeJobs := active;
     metrics :=
       {| jobsStarted := jobsStarted m;
          jobsCompleted := jobsCompleted m;
          jobsFailed := jobsFailed m;
          activeJobsGauge := gauge_set active (activeJobsGauge m) |};
     awaiting := remove_first job (awaiting w) |}.

(** The rest of the [try] block, run when the handler's promise fulfils. *)
Definition on_fulfilled (now : Z) (job : JobRef) (result : JobResult) (w : WorkerState) : WorkerState :=
  let m := metrics w in
  settle job
    {| queue := markCompleted now job result (queue w);
       activeJobs := activeJobs w;
       metrics :=
         {| jobsStarted := jobsStarted m;
            jobsCompleted := counter_inc 1 (jobsCompleted m);
            jobsFailed := jobsFailed m;
            activeJobsGauge := activeJobsGauge m |};
       awaiting := awaiting w |}.

(** The [catch] block, run when the handler's promise rejects. *)
Definition on_rejected (job : JobRef) (w : WorkerState) : WorkerState :=
  let m := metrics w in
  settle job
    {| queue := update_job incr_attempts job (queue w);
       activeJobs := activeJobs w;
       metrics :=
         {| jobsStarted := jobsStarted m;
            jobsCompleted := jobsCompleted m;
            jobsFailed := counter_inc 1 (jobsFailed m);
            activeJobsGauge := activeJobsGauge m |};
       awaiting := awaiting w |}.

(** What can happen between two states of the worker process: a producer
    enqueues, the timer fires, or a dispatched handler settles. *)
Inductive Event :=
  | ev_enqueue (now_id : Z) (random_hex : string) (now_created : Z) (ty : JobType) (p : JobPayload)
  | ev_tick (now : Z)
  | ev_fulfilled (job : JobRef) (result : JobResult) (now : Z)
  | ev_rejected (job : JobRef).

(** [None]: the event cannot happen in [w] (no suspended [tick] holds [job]). *)
Definition step (e : Event) (w : WorkerState) : option WorkerState :=
  match e with
  | ev_enqueue now_id random_hex now_created ty p =>
      Some {| queue := (enqueue now_id random_hex now_created ty p (queue w)).2;
              activeJobs := activeJobs w;
              metrics := metrics w;
              awaiting := awaiting w |}
  | ev_tick now => Some (tick now w).2
  | ev_fulfilled job result now =>
      if decide (job ∈ awaiting w) then Some (on_fulfilled now job result w) else None
  | ev_rejected job =>
      if decide (job ∈ awaiting w) then Some (on_rejected job w) else None
  end.

Fixpoint run (events : list Event) (w : WorkerState) : option WorkerState :=
  match events with
  | [] => Some w
  | e :: events' =>
      match step e w with
      | Some w' => run events' w'
      | None => None
      end
  end.

Definition reachable (w : WorkerState) : Prop :=
  exists events, run events initial = Some w.

(** The state a dispatching tick leaves behind, written out. *)
Definition dispatch_of (now : Z) (ref : JobRef) (w : WorkerState) : WorkerState :=
  {| queue := update_job (set_startedAt now) ref (queue w);
     activeJobs := activeJobs w + 1;
     metrics :=
       {| jobsStarted := jobsStarted (metrics w) + 1;
          jobsCompleted := jobsCompleted (metrics w);
          jobsFailed := jobsFailed (metrics w);
          activeJobsGauge := activeJobs w + 1 |};
     awaiting := ref :: awaiting w |}.

(** The invariant of the loop: [activeJobs] counts the suspended ticks and
    stays within the larger of zero and the ceiling. *)
Definition within_ceiling (w : WorkerState) : Prop :=
  activeJobs w = Z.of_nat (length (awaiting w)) /\
  activeJobs w <= Z.max 0 (maxConcurrentJobs config).

End Loop.

(** config.ts defaults: poll every second, four jobs at most. *)
Definition default_config : WorkerConfig :=
  {| logLevel := "info"; pollIntervalMs := 1000; maxConcurrentJobs := 4 |}.

(** What [loadWorkerConfig] returns: the two numbers come out of
    [parseInt] and may be [NaN] or infinite. *)
Record LoadedConfig := {
  loaded_logLevel : string;
  loaded_pollIntervalMs : JS.number;
  loaded_maxConcurrentJobs : JS.number
}.

(** [process.env[name] || fallback]. *)
Definition env_or (env : gmap string string) (name fallback : string) : string :=
  if JS.truthy_string (env !! name) then default EmptyString (env !! name) else fallback.

(** config.ts: [loadWorkerConfig()] under the environment [env]. *)
Definition loadWorkerConfig (env : gmap string string) : LoadedConfig :=
  {| loaded_logLevel := env_or env "UNIT09_WORKER_LOG_LEVEL" "info";
     loaded_pollIntervalMs := JS.parseInt10 (env_or env "UNIT09_WORKER_POLL_INTERVAL_MS" "1000");
     loaded_maxConcurrentJobs := JS.parseInt10 (env_or env "UNIT09_WORKER_MAX_CONCURRENCY" "4") |}.

(** The configuration the loop runs with when both numbers are integers. *)
Definition as_config (c : LoadedConfig) : option WorkerConfig :=
  match loaded_pollIntervalMs c, loaded_maxConcurrentJobs c with
  | JS.num poll, JS.num ceiling =>
      Some {| logLevel := loaded_logLevel c; pollIntervalMs := poll;
              maxConcurrentJobs := ceiling |}
  | _, _ => None
  end.

(** A timer tick reads a clock that is past the epoch. *)
Definition clock_after_epoch (e : Event) : Prop :=
  match e with
  | ev_tick now => now <> 0
  | _ => True
  end.

(** The fields of a job that [enqueue] sets and nothing assigns afterwards. *)
Definition identity (job : Job) : string * JobType * JobPayload * Z * Z :=
  (id job, type job, payload job, createdAt job, maxAttempts job).

(** The identity of the job an event enqueues, if it enqueues one. *)
Definition enqueued (e : Event) : option (string * JobType * JobPayload * Z * Z) :=
  match e with
  | ev_enqueue now_id random_hex now_created ty p =>
      Some (identity (enqueue now_id random_hex now_created ty p empty_queue).1)
  | _ => None
  end.

(** Where a job stands, read off its fields and the suspended ticks. *)
Inductive JobPhase := pending | running | completed | failed.

Definition started (job : Job) : Prop :=
  exists t, startedAt job = Some t /\ t <> 0.

Definition in_phase (w : WorkerState) (ref : JobRef) (job : Job) (phase : JobPhase) : Prop :=
  match phase with
  | pending =>
      startedAt job = None /\ completedAt job = None /\ attempts job = 0 /\
      ref ∉ awaiting w
  | running =>
      started job /\ completedAt job = None /\ attempts job = 0 /\
      ref ∈ awaiting w
  | completed =>
      started job /\ is_Some (completedAt job) /\ attempts job = 0 /\
      (ref ∉ awaiting w) /\ is_Some (getJobResult (id job) (queue w))
  | failed =>
      started job /\ completedAt job = None /\ attempts job = 1 /\
      ref ∉ awaiting w
  end.

(** Stored results belong to jobs that were marked completed. *)
Definition results_of_completed (w : WorkerState) : Prop :=
  forall key result,
    getJobResult key (queue w) = Some result ->
    exists ref job,
      jobs (queue w) !! ref = Some job /\
      id job = key /\ is_Some (completedAt job).

(** Every job is in one of the four phases, and no job is awaited twice. *)
Definition lifecycle_ok (w : WorkerState) : Prop :=
  NoDup (awaiting w) /\
  (forall ref, ref ∈ awaiting w -> (ref < length (jobs (queue w)))%nat) /\
  (forall ref job, jobs (queue w) !! ref = Some job ->
     maxAttempts job = 3 /\ exists phase, in_phase w ref job phase).

End Worker.

(** ** The fork store *)

Module Forks.

(** A base58 public key, as the SDK and the tests pass it around. *)
Definition PublicKey : Type := string.

(** Modelled from the spec: the error taxonomy of the core. *)
Inductive StoreError :=
  | InvalidKey | NotFound | AlreadyExists | StageFailure | NoHandler | TransportError.

(** Modelled from the spec: the addresses that [derive(namespace, naturalKey)]
    of the on-chain program hands out. The program's source is not in the
    repository; the SDK only calls [findProgramAddressSync] with the seeds
    ["fork", forkKey]. An address is the pair it was derived from, so
    distinct namespaces never collide for the same key. *)
Definition Address : Type := string * PublicKey.

(** Modelled from the spec: the addressing function
    [derive(namespace, naturalKey) -> address], pure and deterministic. *)
Definition derive (namespace : string) (naturalKey : PublicKey) : Address :=
  (namespace, naturalKey).

(** The arguments of the [createFork] instruction: the SDK's
    [CreateForkArgs] with the [isRoot] and [depth] that the tests add. *)
Record CreateForkArgs := {
  forkKey : PublicKey;
  parent : option PublicKey;
  label : string;
  tags : string;
  metadataUri : option string;
  isRoot : bool;
  depth : Z
}.

(** Modelled from the spec: the stored fork record, with the attributes the
    data model lists for a fork that the instruction's arguments determine. *)
Record ForkRecord := {
  rec_forkKey : PublicKey;
  rec_parent : option PublicKey;
  rec_label : string;
  rec_tags : string;
  rec_metadataUri : option string;
  rec_isRoot : bool;
  rec_depth : Z;
  rec_isActive : bool
}.

(** Modelled from the spec: the record a successful creation stores. *)
Definition record_of (args : CreateForkArgs) : ForkRecord :=
  {| rec_forkKey := forkKey args; rec_parent := parent args; rec_label := label args;
     rec_tags := tags args; rec_metadataUri := metadataUri args;
     rec_isRoot := isRoot args; rec_depth := depth args; rec_isActive := true |}.

(** Modelled from the spec: the storage backend's
    [createIfAbsent(address, record) -> ok | alreadyExists], an atomic
    check-then-create on one address. *)
Definition createIfAbsent (address : Address) (record : ForkRecord)
    (store : gmap Address ForkRecord) : (unit + StoreError) * gmap Address ForkRecord :=
  match store !! address with
  | Some _ => (inr AlreadyExists, store)
  | None => (inl tt, <[address := record]> store)
  end.

(** Modelled from the spec: the program's [createFork] instruction, which the
    repository only exercises through contracts/tests/unit09_forks.spec.ts.
    The fork record lives at the address derived from the fork key. *)
Definition createFork (args : CreateForkArgs)
    (store : gmap Address ForkRecord) : (unit + StoreError) * gmap Address ForkRecord :=
  createIfAbsent (derive "fork" (forkKey args)) (record_of args) store.

(** packages/sdk/src/accounts/forkAccount.ts: the record at the fork's
    address, [None] for the [null] of a missing account. *)
Definition fetchFork (key : PublicKey) (store : gmap Address ForkRecord) : option ForkRecord :=
  store !! derive "fork" key.

End Forks.

(** ** packages/sdk/src/queries/listRepos.ts and utils/parsers.ts *)

Module ListRepos.

#[global] Instance RepoVisibility_eq_dec : EqDecision Repo.RepoVisibility.
Proof. solve_decision. Defined.

#[global] Instance RepoSourceType_eq_dec : EqDecision Repo.RepoSourceType.
Proof. solve_decision. Defined.

(** One element of [program.account.repo.all()]: the account's address and
    the decoded fields that [listRepos] reads, the optional ones as options. *)
Record RawRepoAccount := {
  publicKey : string;
  raw_repoKey : option string;
  raw_name : string;
  raw_url : string;
  raw_description : option string;
  raw_tags : Repo.RawTags;
  raw_visibility : option Repo.RepoVisibility;
  raw_sourceType : option Repo.RepoSourceType;
  raw_defaultBranch : option string;
  raw_allowObservation : bool;
  raw_isActive : bool;
  raw_stats : option Repo.RepoStats;
  raw_createdAt : option Z;
  raw_updatedAt : option Z
}.

Record RepoFilter := {
  search : option string;
  tags : option (list string);
  visibility : option Repo.RepoVisibility;
  sourceType : option Repo.RepoSourceType;
  activeOnly : option bool;
  limit : option Z;
  cursor : option string
}.

Record RepoListPage := {
  items : list Repo.RepoMetadata;
  nextCursor : option string
}.

(** The object literal that [accounts.map] builds. *)
Definition project (acc : RawRepoAccount) : Repo.RepoMetadata :=
  {| Repo.repoKey := default (publicKey acc) (raw_repoKey acc);
     Repo.name := raw_name acc;
     Repo.url := raw_url acc;
     Repo.description := raw_description acc;
     Repo.repo_tags := Repo.listRepos_tags (raw_tags acc);
     Repo.visibility := default Repo.public (raw_visibility acc);
     Repo.sourceType := default Repo.github (raw_sourceType acc);
     Repo.defaultBranch := raw_defaultBranch acc;
     Repo.allowObservation := raw_allowObservation acc;
     Repo.repo_isActive := raw_isActive acc;
     Repo.stats := raw_stats acc;
     Repo.repo_createdAt := default 0 (raw_createdAt acc);
     Repo.repo_updatedAt := default (default 0 (raw_createdAt acc)) (raw_updatedAt acc) |}.

(** The callback of [items.filter]: each test returns [false] early. *)
Definition keeps (filter : RepoFilter) (item : Repo.RepoMetadata) : bool :=
  if default false (activeOnly filter) && negb (Repo.repo_isActive item) then false
  else if match visibility filter with
          | Some v => negb (bool_decide (Repo.visibility item = v))
          | None => false
          end then false
  else if match sourceType filter with
          | Some t => negb (bool_decide (Repo.sourceType item = t))
          | None => false
          end then false
  else if match search filter with
          | Some text =>
              JS.truthy_string (Some text) &&
              (let s := JS.toLowerCase text in
               negb (JS.includes (JS.toLowerCase (Repo.name item)) s)
               && negb (JS.includes (JS.toLowerCase (Repo.url item)) s))
          | None => false
          end then false
  else if match tags filter with
          | Some wanted =>
              (0 <? length wanted)%nat &&
              (let tagSet : gset string := list_to_set (Repo.repo_tags item) in
               let hasAll := forallb (fun t => bool_decide (JS.toLowerCase t ∈ tagSet)) wanted in
               negb hasAll)
          | None => false
          end then false
  else true.

(** [listRepos(program, filter)] once [program.account.repo.all()] has
    resolved to [accounts]. *)
Definition listRepos (accounts : list RawRepoAccount) (filter : RepoFilter) : RepoListPage :=
  let items := project <$> accounts in
  let filtered := base.filter (fun item => keeps filter item = true) items in
  let limit := default 100 (limit filter) in
  {| items := JS.slice_to limit filtered; nextCursor := None |}.

(** A filter with its search text and its wanted tags in lower case. *)
Definition lower_case (filter : RepoFilter) : RepoFilter :=
  {| search := fmap (M := option) JS.toLowerCase (search filter);
     tags := fmap (M := option) (fmap (M := list) JS.toLowerCase) (tags filter);
     visibility := visibility filter;
     sourceType := sourceType filter;
     activeOnly := activeOnly filter;
     limit := limit filter;
     cursor := cursor filter |}.

(** utils/parsers.ts: [parseCsvTags(input)]; [None] is [null] or [undefined]. *)
Definition parseCsvTags (input : option string) : list string :=
  if JS.truthy_string input then
    filter (fun v => (0 < String.length v)%nat) (JS.trim <$> JS.split "," (default EmptyString input))
  else [].

End ListRepos.

(** ** packages/sdk/src/queries/listForks.ts *)

Module ListForks.

#[global] Instance ForkType_eq_dec : EqDecision Repo.ForkType.
Proof. solve_decision. Defined.

(** One element of [program.account.fork.all()], the optional fields as
    options. *)
Record RawForkAccount := {
  publicKey : string;
  raw_forkKey : option string;
  raw_parent : option string;
  raw_label : string;
  raw_forkType : option Repo.ForkType;
  raw_metadataUri : option string;
  raw_tags : Repo.RawTags;
  raw_depth : option Z;
  raw_isRoot : option bool;
  raw_isActive : option bool;
  raw_createdAt : option Z;
  raw_updatedAt : option Z
}.

(** [parent]: [None] is [undefined] (no test), [Some None] is [null]. *)
Record ForkFilter := {
  forkType : option Repo.ForkType;
  parent : option (option string);
  activeOnly : option bool;
  limit : option Z;
  cursor : option string
}.

Record ForkListPage := {
  items : list Repo.ForkMetadata;
  nextCursor : option string
}.

(** The [tags] of a projected fork: a string is split, trimmed and rid of
    empty pieces; an array is taken as it is. *)
Definition project_tags (raw : Repo.RawTags) : list string :=
  match raw with
  | Repo.tags_string s =>
      filter (fun piece => JS.truthy_string (Some piece) = true) (JS.trim <$> JS.split "," s)
  | Repo.tags_array l => l
  | Repo.tags_absent => []
  end.

Definition project (acc : RawForkAccount) : Repo.ForkMetadata :=
  {| Repo.forkKey := default (publicKey acc) (raw_forkKey acc);
     Repo.parent := raw_parent acc;
     Repo.label := raw_label acc;
     Repo.forkType := default Repo.unit09_instance (raw_forkType acc);
     Repo.metadataUri := raw_metadataUri acc;
     Repo.tags := project_tags (raw_tags acc);
     Repo.depth := default 0 (raw_depth acc);
     Repo.isRoot := default false (raw_isRoot acc);
     Repo.isActive := default true (raw_isActive acc);
     Repo.createdAt := default 0 (raw_createdAt acc);
     Repo.updatedAt := default (default 0 (raw_createdAt acc)) (raw_updatedAt acc) |}.

(** The callback of [items.filter]. *)
Definition keeps (filter : ForkFilter) (item : Repo.ForkMetadata) : bool :=
  if match forkType filter with
     | Some t => negb (bool_decide (Repo.forkType item = t))
     | None => false
     end then false
  else if match parent filter with
          | Some p => negb (bool_decide (Repo.parent item = p))
          | None => false
          end then false
  else if default false (activeOnly filter) && negb (Repo.isActive item) then false
  else true.

(** [listForks(program, filter)] once the accounts are fetched. *)
Definition listForks (accounts : list RawForkAccount) (filter : ForkFilter) : ForkListPage :=
  let items := project <$> accounts in
  let filtered := base.filter (fun item => keeps filter item = true) items in
  let limit := default 100 (limit filter) in
  {| items := JS.slice_to limit filtered; nextCursor := None |}.

End ListForks.

(** ** services/api/src/middleware/rateLimiter.ts *)

Module RateLimiter.

Definition WINDOW_MS : Z := 60000.
Definition MAX_HITS : Z := 300.

Record HitInfo := {
  count : Z;
  resetAt : Z
}.

(** What the limiter reads of an express request. *)
Record Request := {
  ip : option string;
  remoteAddress : option string;
  path : string
}.

(** [req.ip || req.connection.remoteAddress || "unknown"]. *)
Definition client_of (req : Request) : string :=
  if JS.truthy_string (ip req) then default EmptyString (ip req)
  else if JS.truthy_string (remoteAddress req) then default EmptyString (remoteAddress req)
  else "unknown".

Definition key_of (req : Request) : string :=
  client_of req +:+ ":" +:+ path req.

(** The middleware either calls [next()] or throws [TooManyRequestsError]. *)
Inductive Outcome := next_called | too_many_requests.

(** [rateLimiter(req, _res, next)] at clock reading [now], on the
    module-level table [hits]. The entry is counted up before the limit is
    tested, so a refused request is counted too. *)
Definition rateLimiter (req : Request) (now : Z) (hits : gmap string HitInfo)
    : Outcome * gmap string HitInfo :=
  let key := key_of req in
  let fresh := {| count := 0; resetAt := now + WINDOW_MS |} in
  let info :=
    match hits !! key with
    | Some info => if resetAt info <? now then fresh else info
    | None => fresh
    end in
  let info := {| count := count info + 1; resetAt := resetAt info |} in
  let hits := <[key := info]> hits in
  (if count info >? MAX_HITS then too_many_requests else next_called, hits).

(** The same request arriving at each of the clock readings in turn. *)
Fixpoint serve (req : Request) (nows : list Z) (hits : gmap string HitInfo)
    : list Outcome * gmap string HitInfo :=
  match nows with
  | [] => ([], hits)
  | now :: nows' =>
      let '(outcome, hits') := rateLimiter req now hits in
      let '(outcomes, hits'') := serve req nows' hits' in
      (outcome :: outcomes, hits'')
  end.

End RateLimiter.

(** ** Sample data *)

Module Samples.

Definition fork (key : string) (parent : option string) (depth : Z) : Repo.ForkMetadata :=
  {| Repo.forkKey := key; Repo.parent := parent; Repo.label := "fork " +:+ key;
     Repo.forkType := Repo.unit09_instance; Repo.metadataUri := None; Repo.tags := [];
     Repo.depth := depth; Repo.isRoot := bool_decide (depth = 0); Repo.isActive := true;
     Repo.createdAt := 1700000000000; Repo.updatedAt := 1700000000000 |}.

Definition fork_root : Repo.ForkMetadata := fork "root" None 0.
Definition fork_A : Repo.ForkMetadata := fork "A" (Some "root"%string) 1.
Definition fork_B : Repo.ForkMetadata := fork "B" (Some "A"%string) 2.

Definition repo : Repo.RepoMetadata :=
  {| Repo.repoKey := "repo-1"; Repo.name := "unit09"; Repo.url := "https://unit09.org/repo";
     Repo.description := None; Repo.repo_tags := ["solana"; "anchor"]%string;
     Repo.visibility := Repo.public; Repo.sourceType := Repo.github;
     Repo.defaultBranch := Some "main"%string; Repo.allowObservation := true;
     Repo.repo_isActive := true; Repo.stats := None;
     Repo.repo_createdAt := 1700000000000; Repo.repo_updatedAt := 1700000000000 |}.

Definition payload : JobQueue.JobPayload :=
  JobQueue.source_payload "repo-1"
    {| JobQueue.repo := repo; JobQueue.revision := "HEAD"; JobQueue.localPath := None |}.

Definition result : JobQueue.JobResult :=
  {| JobQueue.success := true; JobQueue.error := None; JobQueue.output := Some "{}"%string |}.

(** Five jobs enqueued, then four timer ticks. *)
Definition busy_events : list Worker.Event :=
  [ Worker.ev_enqueue 1700000000000 "0a1" 1700000000000 JobQueue.observeRepo payload;
    Worker.ev_enqueue 1700000000001 "0b2" 1700000000001 JobQueue.analyzeRepo payload;
    Worker.ev_enqueue 1700000000002 "0c3" 1700000000002 JobQueue.decompose payload;
    Worker.ev_enqueue 1700000000003 "0d4" 1700000000003 JobQueue.generateModules payload;
    Worker.ev_enqueue 1700000000004 "0e5" 1700000000004 JobQueue.syncOnChain payload;
    Worker.ev_tick 1700000001000; Worker.ev_tick 1700000002000;
    Worker.ev_tick 1700000003000; Worker.ev_tick 1700000004000 ].

Definition busy : Worker.WorkerState :=
  default Worker.initial
    (Worker.run Worker.default_config Worker.handlers busy_events Worker.initial).

(** One job enqueued, nothing dispatched yet. *)
Definition one_pending : Worker.WorkerState :=
  default Worker.initial
    (Worker.run Worker.default_config Worker.handlers
       [Worker.ev_enqueue 1700000000000 "0a1" 1700000000000 JobQueue.observeRepo payload]
       Worker.initial).

Definition fork_args (key label : string) (isRoot : bool) (depth : Z) : Forks.CreateForkArgs :=
  {| Forks.forkKey := key; Forks.parent := None; Forks.label := label;
     Forks.tags := "unit09,fork"; Forks.metadataUri := None;
     Forks.isRoot := isRoot; Forks.depth := depth |}.

Definition raw_repo (key name : string) (tags : Repo.RawTags) (active : bool)
    : ListRepos.RawRepoAccount :=
  {| ListRepos.publicKey := key; ListRepos.raw_repoKey := None;
     ListRepos.raw_name := name; ListRepos.raw_url := "https://unit09.org/" +:+ key;
     ListRepos.raw_description := None; ListRepos.raw_tags := tags;
     ListRepos.raw_visibility := None; ListRepos.raw_sourceType := None;
     ListRepos.raw_defaultBranch := None; ListRepos.raw_allowObservation := true;
     ListRepos.raw_isActive := active; ListRepos.raw_stats := None;
     ListRepos.raw_createdAt := Some 1700000000000; ListRepos.raw_updatedAt := None |}.

Definition raw_repos : list ListRepos.RawRepoAccount :=
  [ raw_repo "r1" "Unit09 Core" (Repo.tags_string "Solana, Anchor") true;
    raw_repo "r2" "raccoon-sdk" (Repo.tags_array ["SDK"; "solana"]%string) false;
    raw_repo "r3" "indexer" Repo.tags_absent true ].

Definition repo_filter (search : option string) (tags : option (list string))
    (activeOnly : option bool) (limit : option Z) : ListRepos.RepoFilter :=
  {| ListRepos.search := search; ListRepos.tags := tags;
     ListRepos.visibility := None; ListRepos.sourceType := None;
     ListRepos.activeOnly := activeOnly; ListRepos.limit := limit;
     ListRepos.cursor := None |}.

Definition summary : Metrics.LifecycleSummary :=
  {| Metrics.createdAt := 1000; Metrics.lastActivityAt := 1000;
     Metrics.lastObservationAt := None; Metrics.lastErrorAt := None;
     Metrics.status := None |}.

Definition lifecycle_event (kind : Metrics.LifecycleEventKind) (timestamp : Z)
    : Metrics.LifecycleEvent :=
  {| Metrics.id := "evt"; Metrics.kind := kind; Metrics.subjectType := Metrics.subject_repo;
     Metrics.subjectKey := "repo-1"; Metrics.message := "";
     Metrics.timestamp := timestamp; Metrics.errorCode := None |}.

Definition raw_fork (key : string) (parent : option string) (tags : Repo.RawTags)
    : ListForks.RawForkAccount :=
  {| ListForks.publicKey := key; ListForks.raw_forkKey := None;
     ListForks.raw_parent := parent; ListForks.raw_label := "fork " +:+ key;
     ListForks.raw_forkType := None; ListForks.raw_metadataUri := None;
     ListForks.raw_tags := tags; ListForks.raw_depth := None;
     ListForks.raw_isRoot := None; ListForks.raw_isActive := None;
     ListForks.raw_createdAt := None; ListForks.raw_updatedAt := None |}.

Definition raw_forks : list ListForks.RawForkAccount :=
  [ raw_fork "root" None (Repo.tags_string "Unit09, Root");
    raw_fork "A" (Some "root"%string) (Repo.tags_array [" Kept As Is "]%string);
    raw_fork "B" (Some "A"%string) Repo.tags_absent ].

(** One job enqueued, dispatched and completed. *)
Definition completed_events : list Worker.Event :=
  [ Worker.ev_enqueue 1700000000000 "0a1" 1700000000000 JobQueue.observeRepo payload;
    Worker.ev_tick 1700000001000;
    Worker.ev_fulfilled 0 result 1700000002000 ].

Definition one_completed : Worker.WorkerState :=
  default Worker.initial
    (Worker.run Worker.default_config Worker.handlers completed_events Worker.initial).

(** A worker configured with no slot at all. *)
Definition stalled_config : Worker.WorkerConfig :=
  {| Worker.logLevel := "info"; Worker.pollIntervalMs := 1000; Worker.maxConcurrentJobs := 0 |}.

(** A registry that lacks the handler of one job type. *)
Definition partial_registry (ty : JobQueue.JobType) : bool :=
  match ty with
  | JobQueue.observeRepo => false
  | _ => true
  end.

End Samples.

(** * Properties *)

(** ** Built-ins *)

Lemma lower_char_idem c : JS.lower_char (JS.lower_char c) = JS.lower_char c.
Proof. destruct c as [[] [] [] [] [] [] [] []]; reflexivity. Qed.

Lemma lower_char_space c : JS.is_white_space (JS.lower_char c) = JS.is_white_space c.
Proof. destruct c as [[] [] [] [] [] [] [] []]; reflexivity. Qed.

Lemma digit_not_space c : JS.is_digit c = true -> JS.is_white_space c = false.
Proof. destruct c as [[] [] [] [] [] [] [] []]; vm_compute; congruence. Qed.

Lemma digit_not_prefix c : JS.is_digit c = true -> JS.radix_of_prefix c = None.
Proof. destruct c as [[] [] [] [] [] [] [] []]; vm_compute; congruence. Qed.

Lemma digit_not_sign c :
  JS.is_digit c = true -> Ascii.eqb c "-" = false /\ Ascii.eqb c "+" = false.
Proof. destruct c as [[] [] [] [] [] [] [] []]; vm_compute; intuition congruence. Qed.

Lemma digit_char_spec d :
  0 <= d < 10 ->
  JS.is_digit (JS.digit_char d) = true /\ JS.digit_value (JS.digit_char d) = Some d.
Proof.
  intros Hd.
  assert (d = 0 \/ d = 1 \/ d = 2 \/ d = 3 \/ d = 4 \/ d = 5 \/ d = 6 \/ d = 7 \/ d = 8 \/ d = 9)
    as Hcases by lia.
  repeat (destruct Hcases as [-> | Hcases]; [split; reflexivity |]).
  subst d; split; reflexivity.
Qed.

Lemma trimEnd_no_space s :
  JS.all_chars (fun c => negb (JS.is_white_space c)) s = true -> JS.trimEnd s = s.
Proof.
  induction s as [| c r IH]; simpl; [done |].
  intros [Hc Hr]%andb_prop. rewrite (IH Hr).
  destruct r; [| done].
  by destruct (JS.is_white_space c).
Qed.

Lemma trim_no_space s :
  JS.all_chars (fun c => negb (JS.is_white_space c)) s = true -> JS.trim s = s.
Proof.
  intros Hs. unfold JS.trim.
  assert (JS.trimStart s = s) as ->; [| by apply trimEnd_no_space].
  destruct s as [| c r]; simpl in *; [done |].
  apply andb_prop in Hs as [Hc _]. by destruct (JS.is_white_space c).
Qed.

Lemma all_chars_impl (p q : ascii -> bool) s :
  (forall c, p c = true -> q c = true) ->
  JS.all_chars p s = true -> JS.all_chars q s = true.
Proof.
  intros Hpq. induction s as [| c r IH]; simpl; [done |].
  intros [Hc Hr]%andb_prop. rewrite (Hpq _ Hc), (IH Hr). done.
Qed.

Lemma decimal_digits_all_digits fuel : forall n acc,
  JS.all_chars JS.is_digit acc = true ->
  JS.all_chars JS.is_digit (JS.decimal_digits fuel n acc) = true.
Proof.
  assert (forall n acc, JS.all_chars JS.is_digit acc = true ->
            JS.all_chars JS.is_digit (String (JS.digit_char (n mod 10)) acc) = true) as Hone.
  { intros n acc Hacc. simpl. rewrite Hacc, andb_true_r.
    apply digit_char_spec. apply Z.mod_pos_bound. lia. }
  induction fuel as [| f IH]; intros n acc Hacc; simpl.
  - by apply Hone.
  - destruct (n <? 10); [by apply Hone |]. apply IH. by apply Hone.
Qed.

Lemma decimal_digits_cons fuel : forall n acc,
  exists c r, JS.decimal_digits fuel n acc = String c r.
Proof.
  induction fuel as [| f IH]; intros n acc; simpl; [by eauto |].
  destruct (n <? 10); [by eauto |]. apply IH.
Qed.

Lemma parse_decimal_digits fuel : forall n acc,
  0 <= n -> Z.log2 n <= Z.of_nat fuel ->
  exists k, 0 <= k /\ forall a,
    JS.parse_digits_from 10 a (JS.decimal_digits fuel n acc)
    = JS.parse_digits_from 10 (a * 10 ^ k + n) acc.
Proof.
  assert (forall n acc a, 0 <= n < 10 ->
            JS.parse_digits_from 10 a (String (JS.digit_char (n mod 10)) acc)
            = JS.parse_digits_from 10 (a * 10 ^ 1 + n) acc) as Hone.
  { intros n acc a Hn. rewrite Z.mod_small by done. simpl JS.parse_digits_from.
    destruct (digit_char_spec n Hn) as [_ ->].
    destruct (Z.ltb_spec n 10); [| lia]. f_equal. }
  induction fuel as [| f IH]; intros n acc Hn Hlog.
  - exists 1. split; [lia |]. intros a. simpl. apply Hone.
    destruct (Z.le_gt_cases 2 n) as [H2 |]; [| lia].
    pose proof (Z.log2_le_mono 2 n H2) as Hl. change (Z.log2 2) with 1 in Hl. lia.
  - simpl. destruct (Z.ltb_spec n 10) as [Hlt | Hge].
    + exists 1. split; [lia |]. intros a. by apply Hone.
    + assert (0 < n / 10) as Hq by (apply Z.div_str_pos; lia).
      destruct (IH (n / 10) (String (JS.digit_char (n mod 10)) acc)) as (k & Hk0 & Hk).
      * lia.
      * assert (2 * (n / 10) <= n) as Hle.
        { pose proof (Z.div_mod n 10 ltac:(lia)) as Hdm.
          pose proof (Z.mod_pos_bound n 10 ltac:(lia)). lia. }
        pose proof (Z.log2_le_mono _ _ Hle) as Hmono.
        rewrite Z.log2_double in Hmono by done. lia.
      * exists (k + 1). split; [lia |]. intros a. rewrite Hk.
        simpl JS.parse_digits_from.
        destruct (digit_char_spec (n mod 10)) as [_ ->];
          [apply Z.mod_pos_bound; lia |].
        pose proof (Z.mod_pos_bound n 10 ltac:(lia)) as Hm.
        destruct (Z.ltb_spec (n mod 10) 10); [| lia]. f_equal.
        rewrite Z.pow_add_r by lia.
        pose proof (Z.div_mod n 10 ltac:(lia)). lia.
Qed.

Lemma BigInt_toString z : JS.BigInt (JS.bigint_toString z) = Some z.
Proof.
  unfold JS.bigint_toString.
  destruct (Z.ltb_spec z 0) as [Hneg | Hpos].
  - set (ds := JS.decimal_digits (JS.digits_fuel (- z)) (- z) EmptyString).
    assert (JS.all_chars JS.is_digit ds = true) as Hds
      by (by apply decimal_digits_all_digits).
    assert (JS.parse_digits 10 ds = Some (- z)) as Hparse.
    { destruct (decimal_digits_cons (JS.digits_fuel (- z)) (- z) EmptyString) as (c & r & Hcr).
      fold ds in Hcr. unfold JS.parse_digits. rewrite Hcr, <- Hcr.
      destruct (parse_decimal_digits (JS.digits_fuel (- z)) (- z) EmptyString) as (k & _ & Hk).
      - lia.
      - unfold JS.digits_fuel. rewrite Z2Nat.id; [lia | apply Z.log2_nonneg].
      - fold ds in Hk. rewrite Hk. simpl. f_equal; lia. }
    clearbody ds. unfold JS.BigInt. rewrite trim_no_space.
    + assert (JS.nondecimal_literal (String "-" ds) = None) as ->
        by (by destruct ds).
      cbn [JS.signed_decimal]. change (Ascii.eqb "-" "-") with true. cbv iota.
      rewrite Hparse. simpl. f_equal. lia.
    + simpl. eapply all_chars_impl; [| exact Hds].
      intros c Hc. by rewrite digit_not_space.
  - set (ds := JS.decimal_digits (JS.digits_fuel z) z EmptyString).
    assert (JS.all_chars JS.is_digit ds = true) as Hds
      by (by apply decimal_digits_all_digits).
    destruct (decimal_digits_cons (JS.digits_fuel z) z EmptyString) as (c & r & Hcr).
    fold ds in Hcr.
    assert (JS.parse_digits 10 ds = Some z) as Hparse.
    { unfold JS.parse_digits. rewrite Hcr, <- Hcr.
      destruct (parse_decimal_digits (JS.digits_fuel z) z EmptyString) as (k & _ & Hk).
      - lia.
      - unfold JS.digits_fuel. rewrite Z2Nat.id; [lia | apply Z.log2_nonneg].
      - fold ds in Hk. rewrite Hk. simpl. f_equal; lia. }
    clearbody ds. unfold JS.BigInt. rewrite trim_no_space.
    + assert (JS.nondecimal_literal ds = None) as ->.
      { rewrite Hcr in Hds |- *. simpl in Hds |- *.
        destruct r as [| c' r']; [done |]. simpl in Hds.
        apply andb_prop in Hds as [_ [Hc' _]%andb_prop].
        rewrite (digit_not_prefix _ Hc'). by destruct (Ascii.eqb c "0"). }
      assert (JS.signed_decimal ds = JS.parse_digits 10 ds) as ->.
      { rewrite Hcr in Hds |- *. simpl in Hds.
        apply andb_prop in Hds as [Hc _].
        destruct (digit_not_sign _ Hc) as [Hm Hp].
        unfold JS.signed_decimal. by rewrite Hm, Hp. }
      rewrite Hparse. by rewrite Hcr.
    + eapply all_chars_impl; [| exact Hds].
      intros c0 Hc0. by rewrite digit_not_space.
Qed.

Example BigInt_examples :
  JS.bigint_toString 18446744073709551615 = "18446744073709551615"%string /\
  JS.bigint_toString (-907) = "-907"%string /\
  JS.BigInt "  -0042 " = Some (-42) /\ JS.BigInt "0x1F" = Some 31 /\
  JS.BigInt "" = Some 0 /\ JS.BigInt "12a" = None /\ JS.BigInt "-" = None.
Proof. vm_compute. repeat split; reflexivity. Qed.

(** ** metrics.ts *)

(** C10: parsing back the JSON form of a global metrics snapshot never throws
    and gives the snapshot itself, whatever the six bigint counters hold. *)
Theorem C10_globalMetrics_json_roundtrip (s : Metrics.GlobalMetricsSnapshot) :
  Metrics.globalMetricsFromJson (Metrics.globalMetricsToJson s) = Some s.
Proof.
  destruct s as [r m f o l p].
  unfold Metrics.globalMetricsFromJson, Metrics.globalMetricsToJson; cbn [
    Metrics.totalReposJ Metrics.totalModulesJ Metrics.totalForksJ
    Metrics.totalObservationsJ Metrics.totalLinesOfCodeJ Metrics.totalFilesProcessedJ
    Metrics.totalRepos Metrics.totalModules Metrics.totalForks
    Metrics.totalObservations Metrics.totalLinesOfCode Metrics.totalFilesProcessed].
  by rewrite !BigInt_toString.
Qed.

Lemma applyLifecycleEvent_lastActivityAt s e :
  Metrics.lastActivityAt (Metrics.applyLifecycleEvent s e)
  = Z.max (Metrics.lastActivityAt s) (Metrics.timestamp e).
Proof.
  unfold Metrics.applyLifecycleEvent.
  destruct (Metrics.is_observation (Metrics.kind e)),
    (Metrics.is_error (Metrics.kind e)), (Metrics.status s); reflexivity.
Qed.

Lemma applyLifecycleEvents_lastActivityAt es : forall s,
  Metrics.lastActivityAt s <= Metrics.lastActivityAt (Metrics.applyLifecycleEvents s es).
Proof.
  unfold Metrics.applyLifecycleEvents.
  induction es as [| e es IH]; intros s; simpl; [lia |].
  etrans; [| apply IH]. rewrite applyLifecycleEvent_lastActivityAt. lia.
Qed.

(** C8: applying an event sets last-activity-at to the larger of its old
    value and the event's timestamp, so no sequence of events, however long
    and after whatever history, makes it decrease. *)
Theorem C8_lastActivityAt_running_max :
  (forall s e,
     Metrics.lastActivityAt (Metrics.applyLifecycleEvent s e)
     = Z.max (Metrics.lastActivityAt s) (Metrics.timestamp e)) /\
  (forall s history later,
     Metrics.lastActivityAt (Metrics.applyLifecycleEvents s history)
     <= Metrics.lastActivityAt (Metrics.applyLifecycleEvents s (history ++ later))).
Proof.
  split; [apply applyLifecycleEvent_lastActivityAt |].
  intros s history later. unfold Metrics.applyLifecycleEvents.
  rewrite foldl_app. apply applyLifecycleEvents_lastActivityAt.
Qed.

Lemma compareSemanticVersion_unfold a1 a2 a3 b1 b2 b3 :
  Metrics.compareSemanticVersion (a1, a2, a3) (b1, b2, b3)
  = if a1 <? b1 then -1 else if a1 >? b1 then 1
    else if a2 <? b2 then -1 else if a2 >? b2 then 1
    else if a3 <? b3 then -1 else if a3 >? b3 then 1 else 0.
Proof. reflexivity. Qed.

Ltac version_cases :=
  repeat match goal with
         | |- context [?x <? ?y] => destruct (Z.ltb_spec x y)
         | |- context [?x >? ?y] => rewrite (Z.gtb_ltb x y)
         end.

Lemma compareSemanticVersion_lt a b :
  Metrics.compareSemanticVersion a b = -1 <-> Metrics.lex_lt a b.
Proof.
  destruct a as [[a1 a2] a3], b as [[b1 b2] b3].
  rewrite compareSemanticVersion_unfold. unfold Metrics.lex_lt.
  version_cases; split; intros; try lia; try discriminate.
Qed.

Lemma compareSemanticVersion_gt a b :
  Metrics.compareSemanticVersion a b = 1 <-> Metrics.lex_lt b a.
Proof.
  destruct a as [[a1 a2] a3], b as [[b1 b2] b3].
  rewrite compareSemanticVersion_unfold. unfold Metrics.lex_lt.
  version_cases; split; intros; try lia; try discriminate.
Qed.

Lemma compareSemanticVersion_eq a b :
  Metrics.compareSemanticVersion a b = 0 <-> a = b.
Proof.
  destruct a as [[a1 a2] a3], b as [[b1 b2] b3].
  rewrite compareSemanticVersion_unfold.
  version_cases; split; intros Heq; try discriminate;
    try (injection Heq; intros; lia); try reflexivity.
  repeat f_equal; lia.
Qed.

Lemma nearest_double_safe x : Z.abs x <= 2 ^ 53 -> JS.nearest_double x = x.
Proof.
  unfold JS.nearest_double. change (2 ^ 53) with 9007199254740992. cbv zeta. intros Hx.
  destruct (Z.ltb_spec (Z.abs x) 9007199254740992) as [| Hbig]; [done |].
  assert (x = 9007199254740992 \/ x = -9007199254740992) as [-> | ->] by lia;
    by vm_compute.
Qed.

Lemma add_one_safe x : JS.isSafeInteger x = true -> JS.add_one x = x + 1.
Proof.
  unfold JS.isSafeInteger, JS.MAX_SAFE_INTEGER, JS.add_one.
  change (2 ^ 53) with 9007199254740992. intros Hsafe%Z.leb_le.
  apply nearest_double_safe. change (2 ^ 53) with 9007199254740992. lia.
Qed.

(** C9: [compareSemanticVersion] decides the lexicographic order on
    (major, minor, patch): it answers -1, 0 or 1 as the first version is
    below, equal to or above the second. So (1,2,3) < (1,3,0) < (2,0,0); a
    minor bump of (1,2,3) is (1,3,0); and a bump of a part that is a safe
    integer (at most 2^53 - 1 in magnitude, where adding 1 is exact)
    compares strictly above the version it started from. *)
Theorem C9_semantic_version_order :
  (forall a b, Metrics.compareSemanticVersion a b = -1 <-> Metrics.lex_lt a b) /\
  (forall a b, Metrics.compareSemanticVersion a b = 0 <-> a = b) /\
  (forall a b, Metrics.compareSemanticVersion a b = 1 <-> Metrics.lex_lt b a) /\
  Metrics.compareSemanticVersion (1, 2, 3) (1, 3, 0) = -1 /\
  Metrics.compareSemanticVersion (1, 3, 0) (2, 0, 0) = -1 /\
  Metrics.bumpSemanticVersion (1, 2, 3) Metrics.minor_part = (1, 3, 0) /\
  (forall v part,
     JS.isSafeInteger (Metrics.bumped_part v part) = true ->
     Metrics.compareSemanticVersion v (Metrics.bumpSemanticVersion v part) = -1 /\
     Metrics.compareSemanticVersion (Metrics.bumpSemanticVersion v part) v = 1).
Proof.
  split; [apply compareSemanticVersion_lt |].
  split; [apply compareSemanticVersion_eq |].
  split; [apply compareSemanticVersion_gt |].
  do 3 (split; [by vm_compute |]).
  intros [[major minor] patch] part Hsafe.
  rewrite compareSemanticVersion_lt, compareSemanticVersion_gt.
  destruct part; cbn [Metrics.bumped_part Metrics.bumpSemanticVersion] in Hsafe |- *;
    rewrite (add_one_safe _ Hsafe); unfold Metrics.lex_lt; lia.
Qed.

(** ** repo.ts *)

Lemma toLowerCase_idem s : JS.toLowerCase (JS.toLowerCase s) = JS.toLowerCase s.
Proof. induction s as [| c r IH]; simpl; [done |]. by rewrite lower_char_idem, IH. Qed.

Lemma toLowerCase_length s : String.length (JS.toLowerCase s) = String.length s.
Proof. induction s as [| c r IH]; simpl; [done |]. by rewrite IH. Qed.

Lemma trimStart_toLowerCase s :
  JS.trimStart (JS.toLowerCase s) = JS.toLowerCase (JS.trimStart s).
Proof.
  induction s as [| c r IH]; simpl; [done |].
  rewrite lower_char_space. by destruct (JS.is_white_space c).
Qed.

Lemma trimEnd_toLowerCase s :
  JS.trimEnd (JS.toLowerCase s) = JS.toLowerCase (JS.trimEnd s).
Proof.
  induction s as [| c r IH]; simpl; [done |].
  rewrite IH, lower_char_space.
  destruct (JS.trimEnd r); simpl; [| done].
  by destruct (JS.is_white_space c).
Qed.

Lemma trim_toLowerCase s : JS.trim (JS.toLowerCase s) = JS.toLowerCase (JS.trim s).
Proof. unfold JS.trim. by rewrite trimStart_toLowerCase, trimEnd_toLowerCase. Qed.

Lemma trimEnd_cons c r :
  JS.trimEnd (String c r)
  = match JS.trimEnd r with
    | EmptyString => if JS.is_white_space c then EmptyString else String c EmptyString
    | r' => String c r'
    end.
Proof. reflexivity. Qed.

Lemma trimEnd_idem s : JS.trimEnd (JS.trimEnd s) = JS.trimEnd s.
Proof.
  induction s as [| c r IH]; simpl; [done |].
  destruct (JS.trimEnd r) as [| c' r'] eqn:Hr.
  - destruct (JS.is_white_space c) eqn:Hc; simpl; [done |]. by rewrite Hc.
  - by rewrite trimEnd_cons, IH.
Qed.

Lemma trimEnd_head c r :
  JS.is_white_space c = false -> exists r', JS.trimEnd (String c r) = String c r'.
Proof.
  intros Hc. simpl. destruct (JS.trimEnd r); [rewrite Hc |]; eauto.
Qed.

Lemma trimStart_head s :
  JS.trimStart s = EmptyString \/
  exists c r, JS.trimStart s = String c r /\ JS.is_white_space c = false.
Proof.
  induction s as [| c r IH]; simpl; [by left |].
  destruct (JS.is_white_space c) eqn:Hc; [done |]. right. eauto.
Qed.

Lemma trim_idem s : JS.trim (JS.trim s) = JS.trim s.
Proof.
  unfold JS.trim.
  destruct (trimStart_head s) as [-> | (c & r & -> & Hc)]; [done |].
  destruct (trimEnd_head c r Hc) as [r' Hr'].
  assert (JS.trimStart (JS.trimEnd (String c r)) = JS.trimEnd (String c r)) as ->.
  { rewrite Hr'. simpl. by rewrite Hc. }
  apply trimEnd_idem.
Qed.

Lemma normalizeRepoTags_unfold tags :
  Repo.normalizeRepoTags tags
  = JS.toLowerCase <$>
      filter (fun tag => (0 < String.length tag)%nat) (JS.trim <$> default [] tags).
Proof. by destruct tags as [[|]|]. Qed.

Lemma normalizeRepoTags_normal tags :
  Forall Repo.tag_normal (Repo.normalizeRepoTags tags).
Proof.
  rewrite normalizeRepoTags_unfold. apply Forall_forall. intros t Ht.
  apply list_elem_of_fmap in Ht as (u & -> & Hu).
  apply list_elem_of_filter in Hu as [Hlen Hu].
  apply list_elem_of_fmap in Hu as (x & -> & _).
  repeat split.
  - by rewrite trim_toLowerCase, trim_idem.
  - apply toLowerCase_idem.
  - intros Hempty. apply (f_equal String.length) in Hempty.
    rewrite toLowerCase_length in Hempty. simpl in Hempty. lia.
Qed.

(** C7, what the code does not do: two equal tags both survive
    normalization, from an array as well as from a comma-separated string. *)
Lemma C7_duplicates_survive :
  Repo.normalizeRepoTags (Some ["defi"; " DeFi "]%string) = ["defi"; "defi"]%string /\
  ~ NoDup (Repo.normalizeRepoTags (Some ["defi"; " DeFi "]%string)) /\
  Repo.listRepos_tags (Repo.tags_string "defi,nft,defi") = ["defi"; "nft"; "defi"]%string /\
  ~ NoDup (Repo.listRepos_tags (Repo.tags_string "defi,nft,defi")).
Proof.
  assert (Repo.normalizeRepoTags (Some ["defi"; " DeFi "]%string) = ["defi"; "defi"]%string)
    as H1 by (vm_compute; reflexivity).
  assert (Repo.listRepos_tags (Repo.tags_string "defi,nft,defi")
          = ["defi"; "nft"; "defi"]%string) as H2 by (vm_compute; reflexivity).
  rewrite H1, H2. repeat split.
  - intros Hnd. apply NoDup_cons in Hnd as [Hnot _]. apply Hnot. by left.
  - intros Hnd. apply NoDup_cons in Hnd as [Hnot _]. apply Hnot. right. by left.
Qed.

(** C7 (amended): every tag that [normalizeRepoTags] returns, and so every
    tag of a repository record projected by [listRepos], is trimmed,
    lower-case and non-empty; the result holds one tag for each input tag
    that is not blank, in input order, equal tags included. *)
Theorem C7_normalized_tags :
  (forall tags, Forall Repo.tag_normal (Repo.normalizeRepoTags tags)) /\
  (forall raw, Forall Repo.tag_normal (Repo.listRepos_tags raw)) /\
  (forall tags,
     Repo.normalizeRepoTags tags
     = omap (fun tag => if decide (JS.trim tag = EmptyString) then None
                        else Some (JS.toLowerCase (JS.trim tag)))
            (default [] tags)).
Proof.
  split; [apply normalizeRepoTags_normal |].
  split; [intros raw; apply normalizeRepoTags_normal |].
  intros tags. rewrite normalizeRepoTags_unfold.
  induction (default [] tags) as [| x l IH]; [done |].
  rewrite fmap_cons, filter_cons. cbn [omap list_omap].
  destruct (decide (JS.trim x = EmptyString)) as [He | Hne].
  - rewrite He. rewrite decide_False by (simpl; lia). exact IH.
  - rewrite decide_True; [by rewrite fmap_cons, IH |].
    destruct (JS.trim x); [done | simpl; lia].
Qed.

(** *** Sorting by depth *)

Lemma sort_insert_perm (x : Repo.ForkMetadata) l :
  Repo.sort_insert Repo.by_depth x l ≡ₚ x :: l.
Proof.
  induction l as [| y l IH]; simpl; [done |].
  destruct (Repo.by_depth x y <=? 0); [done |].
  rewrite IH. apply Permutation_swap.
Qed.

Lemma sort_perm (l : list Repo.ForkMetadata) : Repo.sort Repo.by_depth l ≡ₚ l.
Proof.
  induction l as [| x l IH]; simpl; [done |].
  by rewrite sort_insert_perm, IH.
Qed.

Lemma sort_insert_sorted x l :
  StronglySorted Repo.depth_le l ->
  StronglySorted Repo.depth_le (Repo.sort_insert Repo.by_depth x l).
Proof.
  induction 1 as [| y l Hl IH Hy]; simpl.
  - repeat constructor.
  - unfold Repo.by_depth at 1. destruct (Z.leb_spec (Repo.depth x - Repo.depth y) 0) as [Hle | Hgt].
    + constructor; [by constructor |].
      constructor; [unfold Repo.depth_le; lia |].
      eapply Forall_impl; [exact Hy |]. unfold Repo.depth_le. intros z Hz. lia.
    + constructor; [exact IH |].
      rewrite sort_insert_perm. constructor; [unfold Repo.depth_le; lia | exact Hy].
Qed.

Lemma sort_sorted l : StronglySorted Repo.depth_le (Repo.sort Repo.by_depth l).
Proof.
  induction l as [| x l IH]; simpl; [constructor |]. by apply sort_insert_sorted.
Qed.

(** Stability: ancestors of one depth keep their input order. *)
Lemma sort_insert_stable d x l :
  StronglySorted Repo.depth_le l ->
  filter (fun a => Repo.depth a = d) (Repo.sort_insert Repo.by_depth x l)
  = filter (fun a => Repo.depth a = d) (x :: l).
Proof.
  induction 1 as [| y l Hl IH Hy]; simpl; [done |].
  unfold Repo.by_depth at 1.
  destruct (Z.leb_spec (Repo.depth x - Repo.depth y) 0) as [Hle | Hgt]; [done |].
  rewrite filter_cons, IH, !filter_cons.
  destruct (decide (Repo.depth y = d)) as [Hyd | Hyd],
           (decide (Repo.depth x = d)) as [Hxd | Hxd]; try done.
  lia.
Qed.

Lemma sort_stable d l :
  filter (fun a => Repo.depth a = d) (Repo.sort Repo.by_depth l)
  = filter (fun a => Repo.depth a = d) l.
Proof.
  induction l as [| x l IH]; simpl; [done |].
  rewrite sort_insert_stable by apply sort_sorted.
  by rewrite !filter_cons, IH.
Qed.

Lemma sort_head_least l h t :
  Repo.sort Repo.by_depth l = h :: t ->
  h ∈ l /\ forall a, a ∈ l -> Repo.depth h <= Repo.depth a.
Proof.
  intros Hs. pose proof (sort_sorted l) as Hsorted. pose proof (sort_perm l) as Hperm.
  rewrite Hs in Hsorted, Hperm. split.
  - rewrite <- Hperm. by left.
  - intros a Ha. rewrite <- Hperm in Ha.
    apply StronglySorted_inv in Hsorted as [_ Hall].
    apply elem_of_cons in Ha as [-> | Ha]; [lia |].
    rewrite Forall_forall in Hall. by apply Hall.
Qed.

(** C6: [buildForkLineage] sorts the ancestors ascending by depth (a stable
    rearrangement of the list it was given), returns as path the sorted
    ancestors' keys followed by the fork's own key, and returns as root key
    the fork's own key when there are no ancestors, and otherwise the key of
    the depth-0 ancestor, for ancestors whose depths are not negative. For
    the chain root (depth 0), A (depth 1), B (depth 2) it answers
    path = [root.key, A.key, B.key] and rootKey = root.key, whichever way
    round the two ancestors are passed. *)
Theorem C6_buildForkLineage (fork : Repo.ForkMetadata) (ancestors : list Repo.ForkMetadata) :
  let sorted := Repo.sort Repo.by_depth ancestors in
  let lineage := Repo.buildForkLineage fork ancestors in
  sorted ≡ₚ ancestors /\
  StronglySorted Repo.depth_le sorted /\
  (forall d, filter (fun a => Repo.depth a = d) sorted
             = filter (fun a => Repo.depth a = d) ancestors) /\
  Repo.path lineage = (Repo.forkKey <$> sorted) ++ [Repo.forkKey fork] /\
  (ancestors = [] -> Repo.rootForkKey lineage = Repo.forkKey fork) /\
  (forall root,
     root ∈ ancestors -> Repo.depth root = 0 ->
     (forall a, a ∈ ancestors -> 0 <= Repo.depth a) ->
     (forall a, a ∈ ancestors -> Repo.depth a = 0 -> Repo.forkKey a = Repo.forkKey root) ->
     Repo.rootForkKey lineage = Repo.forkKey root) /\
  (forall root A,
     Repo.depth root = 0 -> Repo.depth A = 1 ->
     (ancestors = [root; A] \/ ancestors = [A; root]) ->
     lineage = {| Repo.rootForkKey := Repo.forkKey root;
                  Repo.path := [Repo.forkKey root; Repo.forkKey A; Repo.forkKey fork] |}).
Proof.
  intros sorted lineage.
  split; [apply sort_perm |].
  split; [apply sort_sorted |].
  split; [intros d; apply sort_stable |].
  split; [reflexivity |].
  split; [by intros -> |].
  split.
  - intros root Hin Hroot Hnonneg Hunique.
    subst lineage. unfold Repo.buildForkLineage. cbn [Repo.rootForkKey].
    fold sorted. destruct sorted as [| h t] eqn:Hsorted.
    + pose proof (sort_perm ancestors) as Hperm. fold sorted in Hperm.
      rewrite Hsorted in Hperm. apply Permutation_nil_l in Hperm.
      subst ancestors. by apply elem_of_nil in Hin.
    + apply sort_head_least in Hsorted as [Hh Hleast]. simpl.
      apply Hunique; [done |].
      specialize (Hleast root Hin). specialize (Hnonneg h Hh). lia.
  - intros root A Hroot HA Hanc. subst lineage sorted.
    unfold Repo.buildForkLineage.
    destruct Hanc as [-> | ->]; simpl; unfold Repo.by_depth; rewrite Hroot, HA; reflexivity.
Qed.

(** ** jobQueue.ts *)

Lemma unstarted_unset job :
  JobQueue.startedAt job <> Some 0 ->
  JobQueue.unstarted job <-> JobQueue.startedAt job = None.
Proof.
  unfold JobQueue.unstarted, JobQueue.truthy. intros Hz.
  destruct (JobQueue.startedAt job) as [t |]; [| done].
  destruct (Z.eqb_spec t 0) as [-> | Hne]; simpl; [done |].
  split; intros; discriminate.
Qed.

Lemma clock_stamped_lookup q ref job :
  JobQueue.clock_stamped q -> JobQueue.jobs q !! ref = Some job ->
  JobQueue.startedAt job <> Some 0.
Proof.
  unfold JobQueue.clock_stamped. rewrite Forall_forall. intros Hq Hjob.
  apply Hq. by eapply list_elem_of_lookup_2.
Qed.

Lemma next_Some q ref job :
  JobQueue.clock_stamped q ->
  JobQueue.next q = Some (ref, job) <->
  JobQueue.jobs q !! ref = Some job /\ JobQueue.startedAt job = None /\
  (forall older j, (older < ref)%nat -> JobQueue.jobs q !! older = Some j ->
                   JobQueue.startedAt j <> None).
Proof.
  intros Hq. unfold JobQueue.next. rewrite list_find_Some. split.
  - intros (Hjob & Hun & Hold). split; [done |]. split.
    + apply unstarted_unset; [by eapply clock_stamped_lookup | done].
    + intros older j Hlt Hj Hnone. apply (Hold older j Hj Hlt).
      apply unstarted_unset; [by eapply clock_stamped_lookup | done].
  - intros (Hjob & Hnone & Hold). split; [done |]. split.
    + apply unstarted_unset; [by eapply clock_stamped_lookup | done].
    + intros older j Hj Hlt Hun. apply (Hold older j Hlt Hj).
      apply unstarted_unset; [by eapply clock_stamped_lookup | done].
Qed.

Lemma next_None q :
  JobQueue.clock_stamped q ->
  JobQueue.next q = None <->
  (forall job, job ∈ JobQueue.jobs q -> JobQueue.startedAt job <> None).
Proof.
  intros Hq. unfold JobQueue.next. rewrite list_find_None, Forall_forall.
  unfold JobQueue.clock_stamped in Hq. rewrite Forall_forall in Hq.
  split; intros H job Hin; specialize (H job Hin); specialize (Hq job Hin);
    by rewrite unstarted_unset in *.
Qed.

Lemma enqueue_clock_stamped now_id random_hex now_created ty p q :
  JobQueue.clock_stamped q ->
  JobQueue.clock_stamped (JobQueue.enqueue now_id random_hex now_created ty p q).2.
Proof.
  unfold JobQueue.clock_stamped. simpl. intros Hq.
  apply Forall_app. split; [done |]. by repeat constructor.
Qed.

(** C3: [enqueue] makes a job with no attempts and neither started-at nor
    completed-at, and appends it to the queue, touching nothing else;
    [next] answers with the oldest job whose started-at is unset, or with
    nothing when every job is started, and being a read of the stores it
    leaves every job as it was; a freshly enqueued job shows up last in
    [list] with started-at unset, [next] then has an answer, and the answer
    is that job exactly when no older job is still waiting (so always on a
    queue whose other jobs are all started). *)
Theorem C3_enqueue_next_list :
  (forall now_id random_hex now_created ty p q,
     let '(job, q') := JobQueue.enqueue now_id random_hex now_created ty p q in
     JobQueue.attempts job = 0 /\ JobQueue.startedAt job = None /\
     JobQueue.completedAt job = None /\
     JobQueue.type job = ty /\ JobQueue.payload job = p /\
     JobQueue.jobs q' = JobQueue.jobs q ++ [job] /\
     JobQueue.results q' = JobQueue.results q) /\
  (forall q, JobQueue.clock_stamped q ->
     (forall ref job,
        JobQueue.next q = Some (ref, job) <->
        JobQueue.list_ q !! ref = Some job /\ JobQueue.startedAt job = None /\
        (forall older j, (older < ref)%nat -> JobQueue.list_ q !! older = Some j ->
                         JobQueue.startedAt j <> None)) /\
     (JobQueue.next q = None <->
      (forall job, job ∈ JobQueue.list_ q -> JobQueue.startedAt job <> None))) /\
  (forall now_id random_hex now_created ty p q,
     JobQueue.clock_stamped q ->
     let '(job, q') := JobQueue.enqueue now_id random_hex now_created ty p q in
     let ref := length (JobQueue.jobs q) in
     JobQueue.list_ q' !! ref = Some job /\ JobQueue.startedAt job = None /\
     JobQueue.next q' <> None /\
     (JobQueue.next q' = Some (ref, job) <->
      (forall older, older ∈ JobQueue.jobs q -> JobQueue.startedAt older <> None))).
Proof.
  split; [by intros; simpl |].
  split; [intros q Hq; split; [intros; by apply next_Some | by apply next_None] |].
  intros now_id random_hex now_created ty p q Hq.
  destruct (JobQueue.enqueue now_id random_hex now_created ty p q) as [job q'] eqn:Henq.
  pose proof (enqueue_clock_stamped now_id random_hex now_created ty p q Hq) as Hq'.
  rewrite Henq in Hq'. simpl in Hq'.
  injection Henq as <- <-. cbv zeta. unfold JobQueue.list_. cbn [JobQueue.jobs].
  set (job := {| JobQueue.id := _ |}) in *.
  assert ((JobQueue.jobs q ++ [job]) !! length (JobQueue.jobs q) = Some job) as Hlast.
  { by rewrite lookup_app_r, Nat.sub_diag. }
  split; [done |]. split; [done |]. split.
  - rewrite next_None by done. intros Hall.
    apply (Hall job); [| done]. cbn [JobQueue.jobs]. apply elem_of_app. right. by left.
  - rewrite next_Some by done. cbn [JobQueue.jobs]. split.
    + intros (_ & _ & Hold) older Hin.
      apply list_elem_of_lookup in Hin as [i Hi].
      apply (Hold i older); [by eapply lookup_lt_Some |].
      rewrite lookup_app_l; [done | by eapply lookup_lt_Some].
    + intros Hall. split; [done |]. split; [done |].
      intros older j Hlt Hj. rewrite lookup_app_l in Hj by done.
      apply Hall. by eapply list_elem_of_lookup_2.
Qed.

Lemma markCompleted_lookup now ref result q job :
  JobQueue.jobs q !! ref = Some job ->
  JobQueue.markCompleted now ref result q
  = {| JobQueue.jobs := <[ref := JobQueue.set_completedAt now job]> (JobQueue.jobs q);
       JobQueue.results := <[JobQueue.id job := result]> (JobQueue.results q) |}.
Proof. intros Hjob. unfold JobQueue.markCompleted. by rewrite Hjob. Qed.

(** C4 (amended): [markCompleted] stamps the job's completed-at with the
    current clock reading and stores the result under the job's id. A second
    call with the same job and result leaves the stored results, the other
    jobs and every other field of the job as the first call left them, and
    stamps completed-at again with its own clock reading; so the two states
    are the same when, and only when, both calls read the same clock value. *)
Theorem C4_markCompleted_twice (now1 now2 : Z) (ref : JobQueue.JobRef)
    (result : JobQueue.JobResult) (q : JobQueue.QueueState) (job : JobQueue.Job) :
  JobQueue.jobs q !! ref = Some job ->
  let q1 := JobQueue.markCompleted now1 ref result q in
  let q2 := JobQueue.markCompleted now2 ref result q1 in
  JobQueue.jobs q1 !! ref = Some (JobQueue.set_completedAt now1 job) /\
  JobQueue.getJobResult (JobQueue.id job) q1 = Some result /\
  JobQueue.results q2 = JobQueue.results q1 /\
  JobQueue.jobs q2 !! ref = Some (JobQueue.set_completedAt now2 job) /\
  JobQueue.completedAt (JobQueue.set_completedAt now2 job) = Some now2 /\
  (forall other, other <> ref -> JobQueue.jobs q2 !! other = JobQueue.jobs q1 !! other) /\
  length (JobQueue.jobs q2) = length (JobQueue.jobs q1) /\
  (q2 = q1 <-> now2 = now1).
Proof.
  intros Hjob q1 q2.
  assert (ref < length (JobQueue.jobs q))%nat as Hlt by (by eapply lookup_lt_Some).
  assert (q1 = {| JobQueue.jobs := <[ref := JobQueue.set_completedAt now1 job]> (JobQueue.jobs q);
                  JobQueue.results := <[JobQueue.id job := result]> (JobQueue.results q) |})
    as Hq1 by (by apply markCompleted_lookup).
  assert (JobQueue.jobs q1 !! ref = Some (JobQueue.set_completedAt now1 job)) as Hjob1.
  { rewrite Hq1. cbn [JobQueue.jobs]. by apply list_lookup_insert_eq. }
  assert (q2 = {| JobQueue.jobs := <[ref := JobQueue.set_completedAt now2 job]> (JobQueue.jobs q);
                  JobQueue.results := <[JobQueue.id job := result]> (JobQueue.results q) |})
    as Hq2.
  { subst q2. rewrite (markCompleted_lookup _ _ _ _ _ Hjob1), Hq1.
    cbn [JobQueue.jobs JobQueue.results JobQueue.set_completedAt JobQueue.id].
    by rewrite list_insert_insert_eq, insert_insert_eq. }
  split; [done |].
  split; [rewrite Hq1; unfold JobQueue.getJobResult; cbn [JobQueue.results];
          by rewrite lookup_insert_eq |].
  split; [by rewrite Hq1, Hq2 |].
  split; [rewrite Hq2; cbn [JobQueue.jobs]; by apply list_lookup_insert_eq |].
  split; [done |].
  split; [intros other Hne; rewrite Hq1, Hq2; cbn [JobQueue.jobs];
          by rewrite !list_lookup_insert_ne |].
  split; [rewrite Hq1, Hq2; cbn [JobQueue.jobs]; by rewrite !length_insert |].
  split.
  - intros Heq. rewrite Hq2 in Heq.
    apply (f_equal (fun s => JobQueue.completedAt <$> JobQueue.jobs s !! ref)) in Heq.
    rewrite Hjob1 in Heq. cbn [JobQueue.jobs] in Heq.
    rewrite list_lookup_insert_eq in Heq by done. simpl in Heq. congruence.
  - intros ->. by rewrite Hq1, Hq2.
Qed.

(** ** index.ts: the worker loop *)

Section WorkerLoop.

Variable config : Worker.WorkerConfig.
Variable registry : JobQueue.JobType -> bool.

Local Abbreviation tick := (Worker.tick config registry).
Local Abbreviation step := (Worker.step config registry).
Local Abbreviation run := (Worker.run config registry).
Local Abbreviation ceiling := (Worker.maxConcurrentJobs config).
Local Abbreviation dispatch_of := Worker.dispatch_of.
Local Abbreviation within_ceiling := (Worker.within_ceiling config).

Lemma tick_gated now w :
  ceiling <= Worker.activeJobs w -> tick now w = (Worker.gated, w).
Proof.
  intros Hfull. unfold Worker.tick.
  by destruct (Z.leb_spec ceiling (Worker.activeJobs w)); [| lia].
Qed.

Lemma tick_inv now w :
  (exists outcome, tick now w = (outcome, w) /\ forall ref, outcome <> Worker.dispatched ref) \/
  (exists ref job,
     tick now w = (Worker.dispatched ref, dispatch_of now ref w) /\
     JobQueue.next (Worker.queue w) = Some (ref, job) /\
     registry (JobQueue.type job) = true /\
     Worker.activeJobs w < ceiling).
Proof.
  unfold Worker.tick.
  destruct (Z.leb_spec ceiling (Worker.activeJobs w)) as [Hfull | Hfree];
    [left; by eexists |].
  destruct (JobQueue.next (Worker.queue w)) as [[ref job] |] eqn:Hnext;
    [| left; by eexists].
  destruct (registry (JobQueue.type job)) eqn:Hreg; simpl;
    [| left; by eexists].
  right. exists ref, job. done.
Qed.

Lemma tick_dispatched now w ref w' :
  tick now w = (Worker.dispatched ref, w') ->
  w' = dispatch_of now ref w /\
  Worker.activeJobs w < ceiling /\
  exists job, JobQueue.next (Worker.queue w) = Some (ref, job) /\
              registry (JobQueue.type job) = true.
Proof.
  intros Htick.
  destruct (tick_inv now w) as [(o & Ho & Hno) | (r & job & Hr & Hnext & Hreg & Hfree)].
  - rewrite Ho in Htick. injection Htick as -> _. by destruct (Hno ref).
  - rewrite Hr in Htick. injection Htick as -> <-. eauto.
Qed.

Lemma next_lookup q ref job :
  JobQueue.next q = Some (ref, job) ->
  JobQueue.jobs q !! ref = Some job /\ JobQueue.unstarted job.
Proof. unfold JobQueue.next. rewrite list_find_Some. tauto. Qed.

Lemma remove_first_length job l :
  job ∈ l -> length l = S (length (Worker.remove_first job l)).
Proof.
  induction l as [| r l IH]; [by intros ?%elem_of_nil |].
  intros Hin. simpl. destruct (decide (r = job)) as [-> | Hne]; [done |].
  apply elem_of_cons in Hin as [-> | Hin]; [done |]. simpl. by rewrite <- IH.
Qed.

Lemma step_within_ceiling e w w' :
  within_ceiling w -> step e w = Some w' -> within_ceiling w'.
Proof.
  intros [Hcount Hle] Hstep. destruct e as [? ? ? ? ? | now | job result now | job]; simpl in Hstep.
  - injection Hstep as <-. done.
  - injection Hstep as <-.
    destruct (tick_inv now w) as [(o & -> & _) | (r & job & -> & _ & _ & Hfree)]; [done |].
    split; simpl; lia.
  - destruct (decide (job ∈ Worker.awaiting w)) as [Hin |]; [| done].
    injection Hstep as <-. apply remove_first_length in Hin.
    split; simpl; lia.
  - destruct (decide (job ∈ Worker.awaiting w)) as [Hin |]; [| done].
    injection Hstep as <-. apply remove_first_length in Hin.
    split; simpl; lia.
Qed.

Lemma run_within_ceiling events : forall w w',
  within_ceiling w -> run events w = Some w' -> within_ceiling w'.
Proof.
  induction events as [| e events IH]; intros w w' Hw Hrun; simpl in Hrun.
  - by injection Hrun as <-.
  - destruct (step e w) as [w1 |] eqn:Hstep; [| done].
    eapply IH; [| exact Hrun]. by eapply step_within_ceiling.
Qed.

Lemma reachable_within_ceiling w :
  Worker.reachable config registry w -> within_ceiling w.
Proof.
  intros [events Hrun]. eapply run_within_ceiling; [| exact Hrun].
  split; simpl; lia.
Qed.

End WorkerLoop.

(** C1: a tick that finds as many active jobs as the ceiling allows, or
    more, returns at once and leaves the whole state as it was, pending jobs
    or not: no started-at is set, the active count and the started counter
    stay. A tick that does dispatch had a free slot and starts exactly one
    job, the one [next] offered: that job's started-at is set, every other
    job is untouched, and the active count and the started counter go up by
    one; any other tick changes nothing. Hence in every state the worker
    can reach the active count, which is the number of handlers in flight,
    is at most the ceiling (at most zero, should the configured ceiling be
    negative). *)
Theorem C1_concurrency_ceiling (config : Worker.WorkerConfig) (registry : JobQueue.JobType -> bool) :
  (forall now w,
     Worker.maxConcurrentJobs config <= Worker.activeJobs w ->
     Worker.tick config registry now w = (Worker.gated, w)) /\
  (forall now w,
     match Worker.tick config registry now w with
     | (Worker.dispatched ref, w') =>
         Worker.activeJobs w < Worker.maxConcurrentJobs config /\
         Worker.activeJobs w' = Worker.activeJobs w + 1 /\
         Worker.jobsStarted (Worker.metrics w') = Worker.jobsStarted (Worker.metrics w) + 1 /\
         exists job,
           JobQueue.next (Worker.queue w) = Some (ref, job) /\
           JobQueue.jobs (Worker.queue w') !! ref = Some (Worker.set_startedAt now job) /\
           (forall other, other <> ref ->
              JobQueue.jobs (Worker.queue w') !! other = JobQueue.jobs (Worker.queue w) !! other) /\
           length (JobQueue.jobs (Worker.queue w')) = length (JobQueue.jobs (Worker.queue w))
     | (_, w') => w' = w
     end) /\
  (forall w,
     Worker.reachable config registry w ->
     Worker.activeJobs w = Z.of_nat (length (Worker.awaiting w)) /\
     Worker.activeJobs w <= Z.max 0 (Worker.maxConcurrentJobs config) /\
     (0 <= Worker.maxConcurrentJobs config ->
      Worker.activeJobs w <= Worker.maxConcurrentJobs config)).
Proof.
  split; [intros now w; apply tick_gated |].
  split.
  - intros now w.
    destruct (tick_inv config registry now w)
      as [(o & -> & Hno) | (ref & job & -> & Hnext & Hreg & Hfree)].
    + destruct o as [| | r | r]; try done. by destruct (Hno r).
    + split; [done |]. split; [done |]. split; [done |].
      exists job. split; [done |].
      apply next_lookup in Hnext as [Hjob _]. simpl. split; [| split].
      * by rewrite list_lookup_alter_eq, Hjob.
      * intros other Hne. by rewrite list_lookup_alter_ne.
      * apply length_alter.
  - intros w Hw. apply reachable_within_ceiling in Hw as [Hcount Hle].
    split; [done |]. split; [done | lia].
Qed.

Lemma on_rejected_job ref w :
  JobQueue.jobs (Worker.queue (Worker.on_rejected ref w))
  = alter Worker.incr_attempts ref (JobQueue.jobs (Worker.queue w)).
Proof. reflexivity. Qed.

(** C2: when a handler's promise rejects, the [catch] and [finally] blocks
    add one to the job's attempts and leave its started-at and completed-at
    alone; no other job changes, no job is added to the queue, and the
    stored results stay as they were (nothing is marked completed); the
    failed counter goes up by one, the completed and started counters stay,
    and the active count goes down by one. Rejection straight after the
    dispatch therefore brings the active count back to what it was before
    the dispatch, with attempts one above and completed-at as before; and
    the job, whose started-at is still set, is not offered by [next] again. *)
Theorem C2_handler_failure (config : Worker.WorkerConfig) (registry : JobQueue.JobType -> bool) :
  (forall w ref job,
     JobQueue.jobs (Worker.queue w) !! ref = Some job ->
     let w2 := Worker.on_rejected ref w in
     JobQueue.jobs (Worker.queue w2) !! ref = Some (Worker.incr_attempts job) /\
     JobQueue.attempts (Worker.incr_attempts job) = JobQueue.attempts job + 1 /\
     JobQueue.completedAt (Worker.incr_attempts job) = JobQueue.completedAt job /\
     JobQueue.startedAt (Worker.incr_attempts job) = JobQueue.startedAt job /\
     (forall other, other <> ref ->
        JobQueue.jobs (Worker.queue w2) !! other = JobQueue.jobs (Worker.queue w) !! other) /\
     length (JobQueue.jobs (Worker.queue w2)) = length (JobQueue.jobs (Worker.queue w)) /\
     JobQueue.results (Worker.queue w2) = JobQueue.results (Worker.queue w) /\
     Worker.jobsFailed (Worker.metrics w2) = Worker.jobsFailed (Worker.metrics w) + 1 /\
     Worker.jobsCompleted (Worker.metrics w2) = Worker.jobsCompleted (Worker.metrics w) /\
     Worker.jobsStarted (Worker.metrics w2) = Worker.jobsStarted (Worker.metrics w) /\
     Worker.activeJobs w2 = Worker.activeJobs w - 1 /\
     Worker.activeJobsGauge (Worker.metrics w2) = Worker.activeJobs w - 1) /\
  (forall now w ref w1,
     Worker.tick config registry now w = (Worker.dispatched ref, w1) ->
     let w2 := Worker.on_rejected ref w1 in
     exists job job2,
       JobQueue.jobs (Worker.queue w) !! ref = Some job /\
       JobQueue.jobs (Worker.queue w2) !! ref = Some job2 /\
       JobQueue.attempts job2 = JobQueue.attempts job + 1 /\
       JobQueue.completedAt job2 = JobQueue.completedAt job /\
       JobQueue.startedAt job2 = Some now /\
       length (JobQueue.jobs (Worker.queue w2)) = length (JobQueue.jobs (Worker.queue w)) /\
       JobQueue.results (Worker.queue w2) = JobQueue.results (Worker.queue w) /\
       Worker.jobsFailed (Worker.metrics w2) = Worker.jobsFailed (Worker.metrics w) + 1 /\
       Worker.jobsCompleted (Worker.metrics w2) = Worker.jobsCompleted (Worker.metrics w) /\
       Worker.activeJobs w2 = Worker.activeJobs w /\
       (now <> 0 -> forall r j, JobQueue.next (Worker.queue w2) = Some (r, j) -> r <> ref)).
Proof.
  split.
  - intros w ref job Hjob w2. subst w2. rewrite on_rejected_job.
    split; [by rewrite list_lookup_alter_eq, Hjob |].
    do 3 (split; [done |]).
    split; [intros other Hne; by rewrite list_lookup_alter_ne |].
    split; [apply length_alter |]. done.
  - intros now w ref w1 Htick w2.
    apply tick_dispatched in Htick as (-> & Hfree & job & Hnext & Hreg).
    apply next_lookup in Hnext as [Hjob Hun].
    assert (JobQueue.jobs (Worker.queue w2) !! ref
            = Some (Worker.incr_attempts (Worker.set_startedAt now job))) as Hjob2.
    { subst w2. rewrite on_rejected_job. simpl.
      by rewrite !list_lookup_alter_eq, Hjob. }
    exists job, (Worker.incr_attempts (Worker.set_startedAt now job)).
    do 5 (split; [done |]).
    split; [subst w2; rewrite on_rejected_job; simpl; by rewrite !length_alter |].
    do 3 (split; [done |]).
    split; [simpl; lia |].
    intros Hnow r j Hr ->. apply next_lookup in Hr as [Hj Hunj].
    rewrite Hjob2 in Hj. injection Hj as <-.
    unfold JobQueue.unstarted in Hunj. simpl in Hunj.
    by destruct (Z.eqb_spec now 0).
Qed.

(** ** The fork store *)

(** C5: creating a fork under a key whose address already holds a record
    fails with [AlreadyExists] and hands back the store as it was, the
    record at that address included. So of two creations under one key on a
    store that had none, the first succeeds and stores its record, and the
    second is rejected and leaves the first one's record in place. *)
Theorem C5_createFork_rejects_duplicate :
  (forall args store existing,
     Forks.fetchFork (Forks.forkKey args) store = Some existing ->
     Forks.createFork args store = (inr Forks.AlreadyExists, store) /\
     Forks.fetchFork (Forks.forkKey args) (Forks.createFork args store).2 = Some existing) /\
  (forall first second store,
     Forks.forkKey second = Forks.forkKey first ->
     Forks.fetchFork (Forks.forkKey first) store = None ->
     let '(outcome, store1) := Forks.createFork first store in
     outcome = inl tt /\
     Forks.fetchFork (Forks.forkKey first) store1 = Some (Forks.record_of first) /\
     Forks.createFork second store1 = (inr Forks.AlreadyExists, store1)).
Proof.
  assert (forall args store existing,
            Forks.fetchFork (Forks.forkKey args) store = Some existing ->
            Forks.createFork args store = (inr Forks.AlreadyExists, store)) as Hdup.
  { intros args store existing Hfetch.
    unfold Forks.createFork, Forks.createIfAbsent, Forks.fetchFork in *.
    by rewrite Hfetch. }
  split.
  - intros args store existing Hfetch. by rewrite (Hdup _ _ _ Hfetch).
  - intros first second store Hkey Hfresh.
    destruct (Forks.createFork first store) as [outcome store1] eqn:Hcreate.
    unfold Forks.createFork, Forks.createIfAbsent, Forks.fetchFork in Hcreate, Hfresh.
    rewrite Hfresh in Hcreate. injection Hcreate as <- <-.
    assert (Forks.fetchFork (Forks.forkKey first)
              (<[Forks.derive "fork" (Forks.forkKey first) := Forks.record_of first]> store)
            = Some (Forks.record_of first)) as Hstored
      by (unfold Forks.fetchFork; apply lookup_insert_eq).
    split; [done |]. split; [done |].
    eapply Hdup. rewrite Hkey. exact Hstored.
Qed.

(** * Worked instances *)

(** Ceiling 4, four jobs in flight and a fifth one pending: the next tick
    is gated and changes nothing. *)
Lemma C1_concurrency_ceiling_witness :
  Worker.activeJobs Samples.busy = 4 /\
  JobQueue.next (Worker.queue Samples.busy) <> None /\
  Worker.tick Worker.default_config Worker.handlers 1700000005000 Samples.busy
  = (Worker.gated, Samples.busy) /\
  Worker.activeJobs Samples.busy <= Worker.maxConcurrentJobs Worker.default_config.
Proof.
  destruct (C1_concurrency_ceiling Worker.default_config Worker.handlers)
    as (Hgate & _ & Hreach).
  split; [vm_compute; reflexivity |].
  split; [vm_compute; discriminate |].
  split.
  - apply Hgate. vm_compute. discriminate.
  - apply Hreach; [| simpl; lia]. exists Samples.busy_events. vm_compute. reflexivity.
Defined.

(** The only job is dispatched and its handler rejects. *)
Lemma C2_handler_failure_witness :
  let w1 := (Worker.tick Worker.default_config Worker.handlers 1700000001000 Samples.one_pending).2 in
  let w2 := Worker.on_rejected 0 w1 in
  (JobQueue.attempts <$> JobQueue.jobs (Worker.queue w2) !! 0%nat) = Some 1 /\
  exists job job2,
    JobQueue.jobs (Worker.queue Samples.one_pending) !! 0%nat = Some job /\
    JobQueue.jobs (Worker.queue w2) !! 0%nat = Some job2 /\
    JobQueue.attempts job2 = JobQueue.attempts job + 1 /\
    JobQueue.completedAt job2 = JobQueue.completedAt job /\
    Worker.activeJobs w2 = Worker.activeJobs Samples.one_pending.
Proof.
  intros w1 w2. split; [vm_compute; reflexivity |].
  destruct (C2_handler_failure Worker.default_config Worker.handlers) as [_ Hfail].
  destruct (Hfail 1700000001000 Samples.one_pending 0%nat w1)
    as (job & job2 & H0 & H2 & Hatt & Hdone & _ & _ & _ & _ & _ & Hactive & _).
  - vm_compute. reflexivity.
  - exists job, job2. repeat split; assumption.
Defined.

(** A job enqueued onto a queue of one started job is what [next] answers. *)
Lemma C3_enqueue_next_list_witness :
  let started :=
    Worker.queue
      (Worker.tick Worker.default_config Worker.handlers 1700000001000 Samples.one_pending).2 in
  JobQueue.clock_stamped started /\
  let '(job, q') :=
    JobQueue.enqueue 1700000002000 "0b2" 1700000002000 JobQueue.decompose
      Samples.payload started in
  JobQueue.list_ q' !! 1%nat = Some job /\ JobQueue.startedAt job = None /\
  JobQueue.next q' = Some (1%nat, job).
Proof.
  intros started.
  assert (JobQueue.clock_stamped started) as Hstamped.
  { vm_compute. repeat constructor. discriminate. }
  split; [exact Hstamped |].
  destruct C3_enqueue_next_list as (_ & _ & Hfresh).
  specialize (Hfresh 1700000002000 "0b2"%string 1700000002000 JobQueue.decompose
                Samples.payload started Hstamped).
  destruct (JobQueue.enqueue 1700000002000 "0b2" 1700000002000 JobQueue.decompose
              Samples.payload started) as [job q'].
  destruct Hfresh as (Hlisted & Hunset & _ & Hnext).
  split; [exact Hlisted |]. split; [exact Hunset |].
  apply Hnext. intros older Hin.
  apply list_elem_of_singleton in Hin. subst older. vm_compute. discriminate.
Defined.

(** C4, where idempotence stops: the second call, a second later, leaves
    another completed-at behind. *)
Lemma C4_second_call_restamps :
  let q := Worker.queue Samples.one_pending in
  let q1 := JobQueue.markCompleted 1700000001000 0 Samples.result q in
  let q2 := JobQueue.markCompleted 1700000002000 0 Samples.result q1 in
  q2 <> q1 /\
  (JobQueue.completedAt <$> JobQueue.jobs q1 !! 0%nat) = Some (Some 1700000001000) /\
  (JobQueue.completedAt <$> JobQueue.jobs q2 !! 0%nat) = Some (Some 1700000002000) /\
  JobQueue.results q2 = JobQueue.results q1.
Proof.
  intros q q1 q2.
  assert ((JobQueue.completedAt <$> JobQueue.jobs q1 !! 0%nat) = Some (Some 1700000001000))
    as H1 by (vm_compute; reflexivity).
  assert ((JobQueue.completedAt <$> JobQueue.jobs q2 !! 0%nat) = Some (Some 1700000002000))
    as H2 by (vm_compute; reflexivity).
  split; [intros Heq; rewrite Heq in H2; congruence |].
  split; [exact H1 |]. split; [exact H2 |].
  vm_compute. reflexivity.
Qed.

Lemma C4_markCompleted_twice_witness :
  let q := Worker.queue Samples.one_pending in
  let q1 := JobQueue.markCompleted 1700000001000 0 Samples.result q in
  let q2 := JobQueue.markCompleted 1700000001000 0 Samples.result q1 in
  is_Some (JobQueue.jobs q !! 0%nat) /\ q2 = q1.
Proof.
  intros q q1 q2.
  destruct (JobQueue.jobs q !! 0%nat) as [job |] eqn:Hjob; [| vm_compute in Hjob; discriminate].
  split; [by eexists |].
  destruct (C4_markCompleted_twice 1700000001000 1700000001000 0%nat Samples.result q job Hjob)
    as (_ & _ & _ & _ & _ & _ & _ & Hsame).
  by apply Hsame.
Defined.

Lemma C5_createFork_rejects_duplicate_witness :
  let first := Samples.fork_args "fork-1" "unit09-fork-dup-1" true 0 in
  let second := Samples.fork_args "fork-1" "unit09-fork-dup-2" false 1 in
  let store1 := (Forks.createFork first ∅).2 in
  Forks.fetchFork "fork-1" store1 = Some (Forks.record_of first) /\
  Forks.createFork second store1 = (inr Forks.AlreadyExists, store1).
Proof.
  intros first second store1.
  destruct C5_createFork_rejects_duplicate as [_ Htwice].
  specialize (Htwice first second ∅ eq_refl eq_refl).
  subst store1. destruct (Forks.createFork first ∅) as [outcome store1].
  by destruct Htwice as (_ & Hfirst & Hsecond).
Defined.

Lemma C6_buildForkLineage_witness :
  Repo.buildForkLineage Samples.fork_B [Samples.fork_root; Samples.fork_A]
  = {| Repo.rootForkKey := "root"; Repo.path := ["root"; "A"; "B"]%string |} /\
  Repo.rootForkKey (Repo.buildForkLineage Samples.fork_B [Samples.fork_A; Samples.fork_root])
  = "root"%string.
Proof.
  destruct (C6_buildForkLineage Samples.fork_B [Samples.fork_root; Samples.fork_A])
    as (_ & _ & _ & _ & _ & _ & Hchain).
  destruct (C6_buildForkLineage Samples.fork_B [Samples.fork_A; Samples.fork_root])
    as (_ & _ & _ & _ & _ & Hroot & _).
  split.
  - apply (Hchain Samples.fork_root Samples.fork_A); [reflexivity | reflexivity | by left].
  - apply (Hroot Samples.fork_root).
    + apply list_elem_of_further, list_elem_of_here.
    + reflexivity.
    + intros a [-> | [-> | Hnil%elem_of_nil]%elem_of_cons]%elem_of_cons; simpl; [lia | lia | done].
    + intros a [-> | [-> | Hnil%elem_of_nil]%elem_of_cons]%elem_of_cons; simpl; [lia | done | done].
Defined.

Lemma C9_semantic_version_order_witness :
  Metrics.compareSemanticVersion (1, 2, 3)
    (Metrics.bumpSemanticVersion (1, 2, 3) Metrics.patch_part) = -1 /\
  Metrics.compareSemanticVersion
    (Metrics.bumpSemanticVersion (9007199254740991, 0, 0) Metrics.major_part)
    (9007199254740991, 0, 0) = 1.
Proof.
  destruct C9_semantic_version_order as (_ & _ & _ & _ & _ & _ & Hbump). split.
  - apply (Hbump (1, 2, 3) Metrics.patch_part). reflexivity.
  - apply (Hbump (9007199254740991, 0, 0) Metrics.major_part). reflexivity.
Defined.

(** C9, past the safe integers: 2^53 is a double and 2^53 + 1 is not, so
    the sum rounds back to 2^53. A major bump of (2^53, 0, 0) returns the
    version itself, which compares equal, not above; and a major bump of
    (2^53, 1, 0) returns (2^53, 0, 0), which compares below the version it
    started from. *)
Lemma C9_bump_past_safe_integers :
  JS.nearest_double 9007199254740992 = 9007199254740992 /\
  JS.isSafeInteger 9007199254740992 = false /\
  Metrics.bumpSemanticVersion (9007199254740992, 0, 0) Metrics.major_part
  = (9007199254740992, 0, 0) /\
  Metrics.compareSemanticVersion (9007199254740992, 0, 0)
    (Metrics.bumpSemanticVersion (9007199254740992, 0, 0) Metrics.major_part) = 0 /\
  Metrics.bumpSemanticVersion (9007199254740992, 1, 0) Metrics.major_part
  = (9007199254740992, 0, 0) /\
  Metrics.compareSemanticVersion (9007199254740992, 1, 0)
    (Metrics.bumpSemanticVersion (9007199254740992, 1, 0) Metrics.major_part) = 1.
Proof. repeat split; by vm_compute. Qed.

(** * Further properties *)

(** ** metrics.ts, the rest *)

(** X1: the JSON form of a per-repository metrics snapshot parses back to
    the snapshot it came from, without throwing: the two bigint counters
    survive their trip through decimal strings and the other fields are
    passed through. Hence two different snapshots never share a JSON form. *)
Theorem repoMetrics_json_roundtrip :
  (forall s, Metrics.repoMetricsFromJson (Metrics.repoMetricsToJson s) = Some s) /\
  (forall s1 s2, Metrics.repoMetricsToJson s1 = Metrics.repoMetricsToJson s2 -> s1 = s2).
Proof.
  assert (forall s, Metrics.repoMetricsFromJson (Metrics.repoMetricsToJson s) = Some s) as Hrt.
  { intros [k m f o l p]. unfold Metrics.repoMetricsFromJson, Metrics.repoMetricsToJson.
    cbn [Metrics.linesOfCodeJ Metrics.filesProcessedJ Metrics.repoKeyJ Metrics.modulesJ
         Metrics.forksJ Metrics.observationsJ Metrics.repoKey Metrics.modules Metrics.forks
         Metrics.observations Metrics.linesOfCode Metrics.filesProcessed].
    by rewrite !BigInt_toString. }
  split; [exact Hrt |].
  intros s1 s2 Heq. apply (f_equal Metrics.repoMetricsFromJson) in Heq.
  rewrite !Hrt in Heq. by injection Heq.
Qed.

Lemma applyLifecycleEvent_fields s e :
  Metrics.applyLifecycleEvent s e
  = {| Metrics.createdAt := Metrics.createdAt s;
       Metrics.lastActivityAt := Z.max (Metrics.lastActivityAt s) (Metrics.timestamp e);
       Metrics.lastObservationAt :=
         if Metrics.is_observation (Metrics.kind e)
         then Some (Z.max (default 0 (Metrics.lastObservationAt s)) (Metrics.timestamp e))
         else Metrics.lastObservationAt s;
       Metrics.lastErrorAt :=
         if Metrics.is_error (Metrics.kind e)
         then Some (Z.max (default 0 (Metrics.lastErrorAt s)) (Metrics.timestamp e))
         else Metrics.lastErrorAt s;
       Metrics.status :=
         if Metrics.is_error (Metrics.kind e) then Some Metrics.error
         else Some (default Metrics.created (Metrics.status s)) |}.
Proof.
  unfold Metrics.applyLifecycleEvent.
  destruct (Metrics.is_observation (Metrics.kind e)),
    (Metrics.is_error (Metrics.kind e)), (Metrics.status s); reflexivity.
Qed.

Lemma summary_ext (a b : Metrics.LifecycleSummary) :
  Metrics.createdAt a = Metrics.createdAt b ->
  Metrics.lastActivityAt a = Metrics.lastActivityAt b ->
  Metrics.lastObservationAt a = Metrics.lastObservationAt b ->
  Metrics.lastErrorAt a = Metrics.lastErrorAt b ->
  Metrics.status a = Metrics.status b ->
  a = b.
Proof. destruct a, b; simpl; congruence. Qed.

Ltac summary_fields :=
  apply summary_ext; cbn;
  first [lia | reflexivity | (f_equal; lia)].

(** X2: applying the same lifecycle event a second time changes nothing, so
    an event delivered twice leaves the summary it left the first time. *)
Theorem applyLifecycleEvent_idempotent s e :
  Metrics.applyLifecycleEvent (Metrics.applyLifecycleEvent s e) e
  = Metrics.applyLifecycleEvent s e.
Proof.
  rewrite !applyLifecycleEvent_fields. cbn.
  destruct (Metrics.is_observation (Metrics.kind e)),
    (Metrics.is_error (Metrics.kind e)); summary_fields.
Qed.

Lemma applyLifecycleEvent_comm s e1 e2 :
  Metrics.applyLifecycleEvent (Metrics.applyLifecycleEvent s e1) e2
  = Metrics.applyLifecycleEvent (Metrics.applyLifecycleEvent s e2) e1.
Proof.
  rewrite !applyLifecycleEvent_fields. cbn.
  destruct (Metrics.is_observation (Metrics.kind e1)),
    (Metrics.is_observation (Metrics.kind e2)),
    (Metrics.is_error (Metrics.kind e1)), (Metrics.is_error (Metrics.kind e2));
    summary_fields.
Qed.

(** X3: the summary does not depend on the order in which events arrive:
    two event sequences that are rearrangements of each other leave the same
    summary. *)
Theorem applyLifecycleEvents_order_irrelevant s events1 events2 :
  events1 ≡ₚ events2 ->
  Metrics.applyLifecycleEvents s events1 = Metrics.applyLifecycleEvents s events2.
Proof.
  unfold Metrics.applyLifecycleEvents. intros Hperm. revert s.
  induction Hperm as [| e l1 l2 _ IH | e1 e2 l | l1 l2 l3 _ IH1 _ IH2]; intros s; simpl.
  - done.
  - apply IH.
  - by rewrite applyLifecycleEvent_comm.
  - by rewrite IH1, IH2.
Qed.

Lemma applyLifecycleEvents_order_irrelevant_witness :
  Metrics.applyLifecycleEvents Samples.summary
    [Samples.lifecycle_event Metrics.error_event 3000;
     Samples.lifecycle_event Metrics.observation_started 2000]
  = Metrics.applyLifecycleEvents Samples.summary
      [Samples.lifecycle_event Metrics.observation_started 2000;
       Samples.lifecycle_event Metrics.error_event 3000].
Proof. apply applyLifecycleEvents_order_irrelevant, Permutation_swap. Defined.

Lemma applyLifecycleEvents_cons s e events :
  Metrics.applyLifecycleEvents s (e :: events)
  = Metrics.applyLifecycleEvents (Metrics.applyLifecycleEvent s e) events.
Proof. reflexivity. Qed.

(** X4: after at least one event the status is always set: it is [error]
    when one of the events is an error event, and otherwise the status the
    summary had before, or [created] if it had none. In particular no event
    moves a summary out of [error]. *)
Theorem applyLifecycleEvents_status s e events :
  Metrics.status (Metrics.applyLifecycleEvents s (e :: events))
  = (if existsb (fun ev => Metrics.is_error (Metrics.kind ev)) (e :: events)
     then Some Metrics.error
     else Some (default Metrics.created (Metrics.status s))) /\
  (Metrics.status s = Some Metrics.error ->
   Metrics.status (Metrics.applyLifecycleEvents s (e :: events)) = Some Metrics.error).
Proof.
  assert (Metrics.status (Metrics.applyLifecycleEvents s (e :: events))
          = if existsb (fun ev => Metrics.is_error (Metrics.kind ev)) (e :: events)
            then Some Metrics.error
            else Some (default Metrics.created (Metrics.status s))) as Hstatus.
  { revert s e. induction events as [| e' events IH]; intros s e.
    - unfold Metrics.applyLifecycleEvents. simpl. rewrite applyLifecycleEvent_fields. cbn.
      by destruct (Metrics.is_error (Metrics.kind e)).
    - rewrite applyLifecycleEvents_cons, IH, applyLifecycleEvent_fields.
      cbn [existsb Metrics.status].
      destruct (Metrics.is_error (Metrics.kind e)), (Metrics.is_error (Metrics.kind e')),
        (existsb (fun ev => Metrics.is_error (Metrics.kind ev)) events); reflexivity. }
  split; [exact Hstatus |].
  intros Herr. rewrite Hstatus, Herr.
  by destruct (existsb _ _).
Qed.

Lemma foldr_max_init d t l : foldr Z.max (Z.max d t) l = Z.max t (foldr Z.max d l).
Proof. induction l as [| x l IH]; simpl; [lia |]. rewrite IH. lia. Qed.

(** X5: events never change created-at. Last-observation-at is touched by
    observation-started and observation-completed events only; after a
    sequence that has such events it is the largest of their timestamps, of
    the value it had before, and of zero (an unset value counts as zero, so
    a timestamp before the epoch is recorded as 0). Last-error-at is the
    same for error events. *)
Theorem applyLifecycleEvents_stamps s events :
  let observed :=
    Metrics.timestamp <$>
      filter (fun ev => Metrics.is_observation (Metrics.kind ev) = true) events in
  let failed :=
    Metrics.timestamp <$>
      filter (fun ev => Metrics.is_error (Metrics.kind ev) = true) events in
  let after := Metrics.applyLifecycleEvents s events in
  Metrics.createdAt after = Metrics.createdAt s /\
  Metrics.lastObservationAt after
  = match observed with
    | [] => Metrics.lastObservationAt s
    | _ => Some (foldr Z.max (default 0 (Metrics.lastObservationAt s)) observed)
    end /\
  Metrics.lastErrorAt after
  = match failed with
    | [] => Metrics.lastErrorAt s
    | _ => Some (foldr Z.max (default 0 (Metrics.lastErrorAt s)) failed)
    end.
Proof.
  cbv zeta. revert s. induction events as [| e events IH]; intros s; [done |].
  rewrite applyLifecycleEvents_cons.
  destruct (IH (Metrics.applyLifecycleEvent s e)) as (Hc & Ho & He).
  rewrite Hc, Ho, He, applyLifecycleEvent_fields. cbn [Metrics.createdAt
    Metrics.lastObservationAt Metrics.lastErrorAt].
  rewrite !filter_cons.
  split; [done |]. split.
  - destruct (Metrics.is_observation (Metrics.kind e)) eqn:Hobs.
    + rewrite decide_True by done. rewrite fmap_cons. cbn [default foldr].
      destruct (Metrics.timestamp <$> filter _ events) as [| t l]; simpl; [f_equal; lia |].
      f_equal. rewrite foldr_max_init. lia.
    + by rewrite decide_False by done.
  - destruct (Metrics.is_error (Metrics.kind e)) eqn:Herr.
    + rewrite decide_True by done. rewrite fmap_cons. cbn [default foldr].
      destruct (Metrics.timestamp <$>
                  filter (fun ev => Metrics.is_error (Metrics.kind ev) = true) events)
        as [| t l]; simpl; [f_equal; lia |].
      f_equal. rewrite foldr_max_init. lia.
    + by rewrite decide_False by done.
Qed.

(** X6: [compareSemanticVersion] behaves as a comparator should: it only
    answers -1, 0 or 1, swapping the arguments negates the answer, and
    "below" is transitive; so sorting with it is well defined. *)
Theorem compareSemanticVersion_comparator :
  (forall a b, Metrics.compareSemanticVersion a b = -1 \/
               Metrics.compareSemanticVersion a b = 0 \/
               Metrics.compareSemanticVersion a b = 1) /\
  (forall a b, Metrics.compareSemanticVersion b a = - Metrics.compareSemanticVersion a b) /\
  (forall a b c,
     Metrics.compareSemanticVersion a b = -1 ->
     Metrics.compareSemanticVersion b c = -1 ->
     Metrics.compareSemanticVersion a c = -1).
Proof.
  split; [| split].
  - intros [[a1 a2] a3] [[b1 b2] b3]. rewrite compareSemanticVersion_unfold.
    version_cases; tauto.
  - intros [[a1 a2] a3] [[b1 b2] b3]. rewrite !compareSemanticVersion_unfold.
    version_cases; lia.
  - intros a b c. rewrite !compareSemanticVersion_lt.
    destruct a as [[a1 a2] a3], b as [[b1 b2] b3], c as [[c1 c2] c3].
    unfold Metrics.lex_lt. lia.
Qed.

(** X7: where adding 1 is exact, bumps are steps of the order. A patch
    bump of a version whose patch is a safe integer gives the very next
    version: nothing compares above [v] and below its patch bump. The patch
    bump is below the minor bump when the minor part is a safe integer, and
    the minor bump below the major bump when the major part is one. Past
    the safe integers this is lost: at a minor part of 2^53 the minor bump
    leaves the part as it is and clears the patch, and so ends up below the
    patch bump. *)
Theorem bumpSemanticVersion_steps :
  (forall v w,
     JS.isSafeInteger (Metrics.bumped_part v Metrics.patch_part) = true ->
     Metrics.compareSemanticVersion v w = -1 ->
     Metrics.compareSemanticVersion w (Metrics.bumpSemanticVersion v Metrics.patch_part) <> -1) /\
  (forall v,
     JS.isSafeInteger (Metrics.bumped_part v Metrics.minor_part) = true ->
     Metrics.compareSemanticVersion
       (Metrics.bumpSemanticVersion v Metrics.patch_part)
       (Metrics.bumpSemanticVersion v Metrics.minor_part) = -1) /\
  (forall v,
     JS.isSafeInteger (Metrics.bumped_part v Metrics.major_part) = true ->
     Metrics.compareSemanticVersion
       (Metrics.bumpSemanticVersion v Metrics.minor_part)
       (Metrics.bumpSemanticVersion v Metrics.major_part) = -1) /\
  Metrics.compareSemanticVersion
    (Metrics.bumpSemanticVersion (0, 9007199254740992, 5) Metrics.patch_part)
    (Metrics.bumpSemanticVersion (0, 9007199254740992, 5) Metrics.minor_part) = 1.
Proof.
  split; [| split; [| split; [| by vm_compute]]].
  - intros [[a1 a2] a3] [[b1 b2] b3] Hsafe. rewrite !compareSemanticVersion_lt.
    cbn [Metrics.bumped_part Metrics.bumpSemanticVersion] in Hsafe |- *.
    rewrite (add_one_safe _ Hsafe). unfold Metrics.lex_lt. lia.
  - intros [[a1 a2] a3] Hsafe. rewrite !compareSemanticVersion_lt.
    cbn [Metrics.bumped_part Metrics.bumpSemanticVersion] in Hsafe |- *.
    rewrite (add_one_safe _ Hsafe). unfold Metrics.lex_lt. lia.
  - intros [[a1 a2] a3] Hsafe. rewrite !compareSemanticVersion_lt.
    cbn [Metrics.bumped_part Metrics.bumpSemanticVersion] in Hsafe |- *.
    rewrite (add_one_safe _ Hsafe). unfold Metrics.lex_lt. lia.
Qed.

Lemma bumpSemanticVersion_steps_witness :
  Metrics.compareSemanticVersion (1, 2, 4)
    (Metrics.bumpSemanticVersion (1, 2, 3) Metrics.patch_part) <> -1 /\
  Metrics.compareSemanticVersion
    (Metrics.bumpSemanticVersion (1, 2, 3) Metrics.patch_part)
    (Metrics.bumpSemanticVersion (1, 2, 3) Metrics.minor_part) = -1.
Proof.
  destruct bumpSemanticVersion_steps as (Hnext & Hminor & _).
  split.
  - apply (Hnext (1, 2, 3) (1, 2, 4)); reflexivity.
  - apply (Hminor (1, 2, 3)). reflexivity.
Defined.

Lemma digit_not_dot c : JS.is_digit c = true -> Ascii.eqb c "." = false.
Proof. destruct c as [[] [] [] [] [] [] [] []]; vm_compute; congruence. Qed.

Lemma bigint_toString_no_dot z :
  JS.all_chars (fun c => negb (Ascii.eqb c ".")) (JS.bigint_toString z) = true.
Proof.
  unfold JS.bigint_toString. destruct (z <? 0); [cbn [JS.all_chars]; simpl negb |];
    (eapply all_chars_impl; [| by apply decimal_digits_all_digits]);
    intros c Hc; by rewrite digit_not_dot.
Qed.

Lemma bigint_toString_inj a b : JS.bigint_toString a = JS.bigint_toString b -> a = b.
Proof.
  intros Heq. apply (f_equal JS.BigInt) in Heq. rewrite !BigInt_toString in Heq. congruence.
Qed.

Lemma append_dot_inj s1 : forall s2 r1 r2,
  JS.all_chars (fun c => negb (Ascii.eqb c ".")) s1 = true ->
  JS.all_chars (fun c => negb (Ascii.eqb c ".")) s2 = true ->
  s1 +:+ String "." r1 = s2 +:+ String "." r2 ->
  s1 = s2 /\ r1 = r2.
Proof.
  induction s1 as [| c1 s1 IH]; intros [| c2 s2] r1 r2 H1 H2 Heq; simpl in *.
  - by injection Heq.
  - injection Heq as <- _. by rewrite Ascii.eqb_refl in H2.
  - injection Heq as -> _. by rewrite Ascii.eqb_refl in H1.
  - injection Heq as -> Heq.
    apply andb_prop in H1 as [_ H1]. apply andb_prop in H2 as [_ H2].
    destruct (IH _ _ _ H1 H2 Heq) as [-> ->]. done.
Qed.

Lemma number_toString_safe z :
  JS.isSafeInteger z = true -> JS.number_toString z = JS.bigint_toString z.
Proof. unfold JS.number_toString. by intros ->. Qed.

(** X8: version labels tell versions of safe integers apart: two such
    tuples formatted to the same [v<major>.<minor>.<patch>] string are the
    same tuple. From 1e21 on a part is printed in exponent form, with a dot
    of its own, and labels run together: [1, 2e21, 3.4e21] and
    [1.2e21, 3, 4e21] are both labelled v1.2e+21.3.4e+21. *)
Theorem formatSemanticVersion_injective :
  (forall a b,
     Metrics.safe_version a = true -> Metrics.safe_version b = true ->
     Metrics.formatSemanticVersion a = Metrics.formatSemanticVersion b -> a = b) /\
  (let a := (1, JS.nearest_double (2 * 10 ^ 21), JS.nearest_double (34 * 10 ^ 20)) in
   let b := (JS.nearest_double (12 * 10 ^ 20), 3, JS.nearest_double (4 * 10 ^ 21)) in
   a <> b /\
   Metrics.formatSemanticVersion a = "v1.2e+21.3.4e+21"%string /\
   Metrics.formatSemanticVersion b = "v1.2e+21.3.4e+21"%string).
Proof.
  split.
  - intros [[a1 a2] a3] [[b1 b2] b3] Ha Hb.
    unfold Metrics.safe_version in Ha, Hb.
    apply andb_prop in Ha as [[Ha1 Ha2]%andb_prop Ha3].
    apply andb_prop in Hb as [[Hb1 Hb2]%andb_prop Hb3].
    unfold Metrics.formatSemanticVersion. rewrite !number_toString_safe by done. simpl.
    intros Heq. injection Heq as Heq.
    apply append_dot_inj in Heq as [H1 Heq]; [| apply bigint_toString_no_dot ..].
    apply append_dot_inj in Heq as [H2 H3]; [| apply bigint_toString_no_dot ..].
    apply bigint_toString_inj in H1, H2, H3. by subst.
  - cbv zeta. split; [by vm_compute |]. split; by vm_compute.
Qed.

Lemma formatSemanticVersion_injective_witness :
  Metrics.formatSemanticVersion (1, 2, 3) = "v1.2.3"%string /\
  (1, 2, 3) = Metrics.bumpSemanticVersion (1, 2, 2) Metrics.patch_part.
Proof.
  split; [vm_compute; reflexivity |].
  destruct formatSemanticVersion_injective as [Hinj _].
  apply Hinj; vm_compute; reflexivity.
Defined.

(** ** repo.ts, the rest *)

Lemma normalize_normal_tags (l : list string) :
  Forall Repo.tag_normal l ->
  JS.toLowerCase <$> filter (fun tag => (0 < String.length tag)%nat) (JS.trim <$> l) = l.
Proof.
  induction 1 as [| t l (Htrim & Hlower & Hne) _ IH]; [done |].
  rewrite fmap_cons, filter_cons, Htrim.
  rewrite decide_True by (destruct t; [done | simpl; lia]).
  by rewrite fmap_cons, Hlower, IH.
Qed.

(** X9: normalizing tags that are already normalized changes nothing:
    [normalizeRepoTags] is idempotent. *)
Theorem normalizeRepoTags_idempotent tags :
  Repo.normalizeRepoTags (Some (Repo.normalizeRepoTags tags)) = Repo.normalizeRepoTags tags.
Proof.
  rewrite (normalizeRepoTags_unfold (Some _)). cbn [default].
  apply normalize_normal_tags, normalizeRepoTags_normal.
Qed.

(** X10: the path of a lineage is never empty: it has one key per ancestor
    and one more, starts with the root key and ends with the fork's own
    key; and every key in it is the fork's or an ancestor's. *)
Theorem buildForkLineage_path_shape fork ancestors :
  let lineage := Repo.buildForkLineage fork ancestors in
  length (Repo.path lineage) = S (length ancestors) /\
  head (Repo.path lineage) = Some (Repo.rootForkKey lineage) /\
  last (Repo.path lineage) = Some (Repo.forkKey fork) /\
  (forall key, key ∈ Repo.path lineage <->
               key = Repo.forkKey fork \/ exists a, a ∈ ancestors /\ Repo.forkKey a = key).
Proof.
  cbv zeta. unfold Repo.buildForkLineage. cbn [Repo.path Repo.rootForkKey].
  pose proof (sort_perm ancestors) as Hperm.
  split; [by rewrite length_app, length_fmap, Hperm, Nat.add_1_r |].
  split; [by destruct (Repo.sort Repo.by_depth ancestors) |].
  split; [apply last_snoc |].
  intros key. rewrite elem_of_app, list_elem_of_singleton, list_elem_of_fmap.
  split.
  - intros [(a & -> & Ha) | ->]; [right | by left].
    exists a. by rewrite <- Hperm.
  - intros [-> | (a & Ha & <-)]; [by right | left].
    exists a. by rewrite Hperm.
Qed.

Lemma sorted_by_depth_unique (l1 : list Repo.ForkMetadata) : forall l2,
  StronglySorted Repo.depth_le l1 -> StronglySorted Repo.depth_le l2 ->
  l1 ≡ₚ l2 -> NoDup (Repo.depth <$> l1) -> l1 = l2.
Proof.
  induction l1 as [| x l1 IH]; intros l2 Hs1 Hs2 Hperm Hnd.
  - by apply Permutation_nil_l in Hperm.
  - destruct l2 as [| y l2]; [by apply Permutation_nil_r in Hperm |].
    apply StronglySorted_inv in Hs1 as [Hs1 Hx], Hs2 as [Hs2 Hy].
    rewrite Forall_forall in Hx, Hy.
    rewrite fmap_cons in Hnd. apply NoDup_cons in Hnd as [Hfresh Hnd].
    assert (y = x) as ->.
    { assert (y ∈ x :: l1) as Hyin by (rewrite Hperm; by left).
      apply elem_of_cons in Hyin as [-> | Hyin]; [done |].
      assert (x ∈ y :: l2) as Hxin by (rewrite <- Hperm; by left).
      apply elem_of_cons in Hxin as [-> | Hxin]; [done |].
      specialize (Hx y Hyin). specialize (Hy x Hxin). unfold Repo.depth_le in *.
      exfalso. apply Hfresh. apply list_elem_of_fmap. exists y. split; [lia | done]. }
    f_equal. apply IH; [done | done | by eapply Permutation_cons_inv | done].
Qed.

(** X11: when no two ancestors share a depth, the order in which the
    caller passes them does not matter: any rearrangement of the list gives
    the same lineage. *)
Theorem buildForkLineage_order_irrelevant fork ancestors1 ancestors2 :
  ancestors1 ≡ₚ ancestors2 ->
  NoDup (Repo.depth <$> ancestors1) ->
  Repo.buildForkLineage fork ancestors1 = Repo.buildForkLineage fork ancestors2.
Proof.
  intros Hperm Hnd.
  assert (Repo.sort Repo.by_depth ancestors1 = Repo.sort Repo.by_depth ancestors2) as Hsame.
  { apply sorted_by_depth_unique; [apply sort_sorted .. | |].
    - by rewrite !sort_perm.
    - by rewrite sort_perm. }
  unfold Repo.buildForkLineage. by rewrite Hsame.
Qed.

Lemma buildForkLineage_order_irrelevant_witness :
  Repo.buildForkLineage Samples.fork_B [Samples.fork_A; Samples.fork_root]
  = Repo.buildForkLineage Samples.fork_B [Samples.fork_root; Samples.fork_A].
Proof.
  apply buildForkLineage_order_irrelevant.
  - apply Permutation_swap.
  - simpl. apply NoDup_cons. split; [| apply NoDup_singleton].
    intros Hin%list_elem_of_singleton. discriminate.
Defined.

(** X12: the lineage is built without validating the chain. Whatever the
    depths are, contiguous or not, with or without a depth-0 entry, the root
    key is the key of an ancestor of least depth, and among several of that
    depth the one that comes first in the list passed in. *)
Theorem buildForkLineage_root_is_shallowest fork ancestors :
  ancestors <> [] ->
  exists a,
    Repo.rootForkKey (Repo.buildForkLineage fork ancestors) = Repo.forkKey a /\
    (forall b, b ∈ ancestors -> Repo.depth a <= Repo.depth b) /\
    head (filter (fun b => Repo.depth b = Repo.depth a) ancestors) = Some a.
Proof.
  intros Hne. unfold Repo.buildForkLineage. cbn [Repo.rootForkKey].
  destruct (Repo.sort Repo.by_depth ancestors) as [| h t] eqn:Hsorted.
  - pose proof (sort_perm ancestors) as Hperm. rewrite Hsorted in Hperm.
    by apply Permutation_nil_l in Hperm.
  - exists h. split; [done |].
    split; [by apply (sort_head_least _ _ _ Hsorted) |].
    rewrite <- sort_stable, Hsorted, filter_cons. by rewrite decide_True.
Qed.

Lemma buildForkLineage_root_is_shallowest_witness :
  exists a,
    Repo.rootForkKey
      (Repo.buildForkLineage Samples.fork_B [Samples.fork "deep" None 5; Samples.fork_A])
    = Repo.forkKey a /\
    (forall b, b ∈ [Samples.fork "deep" None 5; Samples.fork_A] -> Repo.depth a <= Repo.depth b) /\
    head (filter (fun b => Repo.depth b = Repo.depth a)
            [Samples.fork "deep" None 5; Samples.fork_A]) = Some a.
Proof. apply buildForkLineage_root_is_shallowest. discriminate. Defined.

(** ** listRepos.ts *)

Lemma slice_to_prefix {A} (n : Z) (l : list A) : JS.slice_to n l `prefix_of` l.
Proof. unfold JS.slice_to. destruct (n <? 0); apply prefix_take. Qed.

Lemma keeps_active filter item :
  negb (default false (ListRepos.activeOnly filter) && negb (Repo.repo_isActive item)) = true <->
  (ListRepos.activeOnly filter = Some true -> Repo.repo_isActive item = true).
Proof.
  destruct (ListRepos.activeOnly filter) as [[|] |], (Repo.repo_isActive item); simpl;
    intuition congruence.
Qed.

Lemma keeps_choice {A} `{EqDecision A} (wanted : option A) (actual : A) :
  match wanted with
  | Some v => negb (bool_decide (actual = v))
  | None => false
  end = false <->
  (forall v, wanted = Some v -> actual = v).
Proof.
  destruct wanted as [v |]; [| by split].
  destruct (bool_decide_reflect (actual = v)) as [Heq | Hne]; simpl.
  - split; [| done]. by intros _ ? [= <-].
  - split; [done |]. intros Hall. by destruct Hne, (Hall v).
Qed.

Lemma keeps_search (text : option string) name url :
  match text with
  | Some text =>
      JS.truthy_string (Some text) &&
      (let s := JS.toLowerCase text in
       negb (JS.includes (JS.toLowerCase name) s) && negb (JS.includes (JS.toLowerCase url) s))
  | None => false
  end = false <->
  (forall t, text = Some t -> t <> EmptyString ->
     JS.includes (JS.toLowerCase name) (JS.toLowerCase t) = true \/
     JS.includes (JS.toLowerCase url) (JS.toLowerCase t) = true).
Proof.
  destruct text as [[| c text] |]; [split; [by intros _ ? [= <-] | done] | | by split].
  cbv zeta. cbn [JS.truthy_string andb].
  destruct (JS.includes (JS.toLowerCase name) _) eqn:Hname,
           (JS.includes (JS.toLowerCase url) _) eqn:Hurl; simpl.
  - split; [| done]. intros _ ? [= <-] _. by left.
  - split; [| done]. intros _ ? [= <-] _. by left.
  - split; [| done]. intros _ ? [= <-] _. by right.
  - split; [done |]. intros Hall.
    destruct (Hall (String c text) eq_refl ltac:(discriminate)); congruence.
Qed.

Lemma keeps_tags (wanted : option (list string)) (have : list string) :
  match wanted with
  | Some wanted =>
      (0 <? length wanted)%nat &&
      (let tagSet : gset string := list_to_set have in
       let hasAll := forallb (fun t => bool_decide (JS.toLowerCase t ∈ tagSet)) wanted in
       negb hasAll)
  | None => false
  end = false <->
  (forall ts, wanted = Some ts -> forall t, t ∈ ts -> JS.toLowerCase t ∈ have).
Proof.
  assert (forall ts : list string,
            forallb (fun t => bool_decide (JS.toLowerCase t ∈ (list_to_set have : gset string))) ts
            = true <-> (forall t, t ∈ ts -> JS.toLowerCase t ∈ have)) as Hall.
  { intros ts. rewrite forallb_forall. split; intros H t Hin.
    - apply list_elem_of_In, H, bool_decide_eq_true in Hin. by apply elem_of_list_to_set in Hin.
    - apply bool_decide_eq_true, elem_of_list_to_set, H, list_elem_of_In, Hin. }
  destruct wanted as [[| w ts] |]; [| | by split].
  - split; [| done]. intros _ ? [= <-] t Hin. by apply elem_of_nil in Hin.
  - cbv zeta. cbn [length Nat.ltb Nat.leb andb]. rewrite negb_false_iff, Hall.
    split; [by intros H ? [= <-] | eauto].
Qed.

Lemma keeps_iff filter item :
  ListRepos.keeps filter item = true <->
  (ListRepos.activeOnly filter = Some true -> Repo.repo_isActive item = true) /\
  (forall v, ListRepos.visibility filter = Some v -> Repo.visibility item = v) /\
  (forall t, ListRepos.sourceType filter = Some t -> Repo.sourceType item = t) /\
  (forall text, ListRepos.search filter = Some text -> text <> EmptyString ->
     JS.includes (JS.toLowerCase (Repo.name item)) (JS.toLowerCase text) = true \/
     JS.includes (JS.toLowerCase (Repo.url item)) (JS.toLowerCase text) = true) /\
  (forall wanted, ListRepos.tags filter = Some wanted ->
     forall t, t ∈ wanted -> JS.toLowerCase t ∈ Repo.repo_tags item).
Proof.
  rewrite <- keeps_active, <- (keeps_choice (ListRepos.visibility filter)),
    <- (keeps_choice (ListRepos.sourceType filter)), <- keeps_search, <- keeps_tags.
  unfold ListRepos.keeps.
  repeat match goal with
         | |- context [if ?b then _ else _] =>
             let H := fresh in destruct b eqn:H; cbn [negb]
         end; intuition congruence.
Qed.

Lemma slice_to_length {A} (n : Z) (l : list A) :
  Z.of_nat (length (JS.slice_to n l))
  = if n <? 0 then Z.max 0 (Z.of_nat (length l) + n) else Z.min n (Z.of_nat (length l)).
Proof.
  unfold JS.slice_to. destruct (Z.ltb_spec n 0); rewrite length_take; lia.
Qed.

(** X13: a page of [listRepos] never carries a cursor; its items are the
    first matches in account order, each the projection of an account; for
    a limit that is not negative (100 when none is given) the page holds
    that many items or all matches if there are fewer; a negative limit -k
    is not refused: the page then holds all matches but the last k. *)
Theorem listRepos_page accounts f :
  let page := ListRepos.listRepos accounts f in
  let matching :=
    filter (fun item => ListRepos.keeps f item = true) (ListRepos.project <$> accounts) in
  let n := default 100 (ListRepos.limit f) in
  ListRepos.nextCursor page = None /\
  ListRepos.items page `prefix_of` matching /\
  ListRepos.items page `sublist_of` (ListRepos.project <$> accounts) /\
  (0 <= n ->
   Z.of_nat (length (ListRepos.items page)) = Z.min n (Z.of_nat (length matching))) /\
  (n < 0 ->
   Z.of_nat (length (ListRepos.items page)) = Z.max 0 (Z.of_nat (length matching) + n)).
Proof.
  cbv zeta. unfold ListRepos.listRepos. cbn [ListRepos.items ListRepos.nextCursor].
  split; [done |].
  split; [apply slice_to_prefix |].
  split.
  - trans (filter (fun item => ListRepos.keeps f item = true) (ListRepos.project <$> accounts));
      [| apply sublist_filter].
    unfold JS.slice_to. destruct (_ <? 0); apply sublist_take.
  - rewrite slice_to_length. split; intros Hn.
    + by destruct (Z.ltb_spec (default 100 (ListRepos.limit f)) 0); [lia |].
    + by destruct (Z.ltb_spec (default 100 (ListRepos.limit f)) 0); [| lia].
Qed.

(** X14: every repository on a page meets each criterion the filter asks
    for: it is active if only active ones are wanted, has the wanted
    visibility and source kind, has the search text (compared in lower
    case) inside its name or its URL, and carries every wanted tag,
    lower-cased; a criterion that is absent, an empty search text and an
    empty tag list ask for nothing. Conversely an account whose
    projection meets them all is on the page, provided the limit is not
    below the number of accounts scanned. *)
Theorem listRepos_items_meet_filter accounts f :
  let criteria item :=
    (ListRepos.activeOnly f = Some true -> Repo.repo_isActive item = true) /\
    (forall v, ListRepos.visibility f = Some v -> Repo.visibility item = v) /\
    (forall t, ListRepos.sourceType f = Some t -> Repo.sourceType item = t) /\
    (forall text, ListRepos.search f = Some text -> text <> EmptyString ->
       JS.includes (JS.toLowerCase (Repo.name item)) (JS.toLowerCase text) = true \/
       JS.includes (JS.toLowerCase (Repo.url item)) (JS.toLowerCase text) = true) /\
    (forall wanted, ListRepos.tags f = Some wanted ->
       forall t, t ∈ wanted -> JS.toLowerCase t ∈ Repo.repo_tags item) in
  (forall item, item ∈ ListRepos.items (ListRepos.listRepos accounts f) ->
     criteria item /\ exists acc, acc ∈ accounts /\ item = ListRepos.project acc) /\
  (forall acc, acc ∈ accounts -> criteria (ListRepos.project acc) ->
     Z.of_nat (length accounts) <= default 100 (ListRepos.limit f) ->
     ListRepos.project acc ∈ ListRepos.items (ListRepos.listRepos accounts f)).
Proof.
  cbv zeta. split.
  - intros item Hin. unfold ListRepos.listRepos in Hin. cbn [ListRepos.items] in Hin.
    eapply elem_of_prefix in Hin; [| apply slice_to_prefix].
    apply list_elem_of_filter in Hin as [Hkeeps Hin].
    split; [by apply keeps_iff |].
    apply list_elem_of_fmap in Hin as (acc & -> & Hacc). eauto.
  - intros acc Hacc Hcrit Hlimit.
    unfold ListRepos.listRepos. cbn [ListRepos.items]. unfold JS.slice_to.
    set (matching := filter _ _).
    assert (length matching <= length accounts)%nat as Hlen.
    { subst matching. etrans; [apply length_filter |]. by rewrite length_fmap. }
    assert (ListRepos.project acc ∈ matching) as Hmatch.
    { apply list_elem_of_filter. split; [by apply keeps_iff |].
      by apply list_elem_of_fmap_2. }
    destruct (Z.ltb_spec (default 100 (ListRepos.limit f)) 0) as [Hneg | Hpos].
    + destruct accounts; [by apply elem_of_nil in Hacc | simpl in Hlimit; lia].
    + by rewrite take_ge by lia.
Qed.

Lemma listRepos_page_witness :
  Repo.repoKey <$> ListRepos.items
    (ListRepos.listRepos Samples.raw_repos
       (Samples.repo_filter None (Some ["SOLANA"]%string) None (Some 1)))
  = ["r1"]%string /\
  Z.of_nat (length (ListRepos.items
    (ListRepos.listRepos Samples.raw_repos
       (Samples.repo_filter None (Some ["SOLANA"]%string) None (Some (-1))))))
  = Z.max 0 (2 + -1).
Proof.
  split; [vm_compute; reflexivity |].
  destruct (listRepos_page Samples.raw_repos
              (Samples.repo_filter None (Some ["SOLANA"]%string) None (Some (-1))))
    as (_ & _ & _ & _ & Hneg).
  rewrite Hneg by (simpl; lia). vm_compute. reflexivity.
Defined.

Lemma listRepos_items_meet_filter_witness :
  ListRepos.project (Samples.raw_repo "r1" "Unit09 Core" (Repo.tags_string "Solana, Anchor") true)
  ∈ ListRepos.items
      (ListRepos.listRepos Samples.raw_repos
         (Samples.repo_filter (Some "CORE"%string) (Some ["anchor"]%string) (Some true) None)).
Proof.
  destruct (listRepos_items_meet_filter Samples.raw_repos
              (Samples.repo_filter (Some "CORE"%string) (Some ["anchor"]%string) (Some true) None))
    as [_ Hcomplete].
  apply Hcomplete.
  - by left.
  - repeat split; try discriminate.
    + intros text [= <-] _. left. vm_compute. reflexivity.
    + intros wanted [= <-] t Ht%list_elem_of_singleton. subst t.
      vm_compute. apply list_elem_of_further, list_elem_of_here.
  - simpl. lia.
Defined.

Lemma project_tags_normal acc :
  Forall Repo.tag_normal (Repo.repo_tags (ListRepos.project acc)).
Proof. apply normalizeRepoTags_normal. Qed.

Lemma trimStart_length s : (String.length (JS.trimStart s) <= String.length s)%nat.
Proof.
  induction s as [| c r IH]; simpl; [done |].
  destruct (JS.is_white_space c); simpl; lia.
Qed.

Lemma trimStart_same s :
  String.length (JS.trimStart s) = String.length s -> JS.trimStart s = s.
Proof.
  destruct s as [| c r]; simpl; [done |].
  destruct (JS.is_white_space c); [| done].
  pose proof (trimStart_length r). lia.
Qed.

Lemma trimEnd_length s : (String.length (JS.trimEnd s) <= String.length s)%nat.
Proof.
  induction s as [| c r IH]; [done |]. rewrite trimEnd_cons.
  destruct (JS.trimEnd r); [destruct (JS.is_white_space c) |]; simpl in *; lia.
Qed.

Lemma trimEnd_same s :
  String.length (JS.trimEnd s) = String.length s -> JS.trimEnd s = s.
Proof.
  induction s as [| c r IH]; [done |]. rewrite trimEnd_cons.
  pose proof (trimEnd_length r) as Hle.
  destruct (JS.trimEnd r) as [| c' r'] eqn:Hr.
  - destruct (JS.is_white_space c); simpl; [lia |].
    intros Hlen. destruct r; [done | simpl in Hlen; lia].
  - simpl. intros Hlen. rewrite IH; [done |]. simpl in *. lia.
Qed.

Lemma trim_same s : String.length (JS.trim s) = String.length s -> JS.trim s = s.
Proof.
  unfold JS.trim. intros Hlen.
  pose proof (trimStart_length s). pose proof (trimEnd_length (JS.trimStart s)).
  rewrite (trimStart_same s) by lia. rewrite (trimStart_same s) in Hlen by lia.
  by apply trimEnd_same.
Qed.

Lemma filter_none {A} (P : A -> Prop) `{forall x, Decision (P x)} (l : list A) :
  (forall x, x ∈ l -> ~ P x) -> filter P l = [].
Proof.
  induction l as [| x l IH]; intros Hall; [done |].
  rewrite filter_cons, decide_False by (apply Hall; by left).
  apply IH. intros y Hy. apply Hall. by right.
Qed.

(** X15: the wanted tags of a filter are lower-cased but not trimmed, while
    the tags of a projected repository are trimmed and never empty. A filter
    that asks for a tag which is empty or has white space around it
    therefore matches no repository: the page is empty. *)
Theorem listRepos_untrimmed_tag_matches_nothing accounts f wanted t :
  ListRepos.tags f = Some wanted -> t ∈ wanted ->
  (t = EmptyString \/ JS.trim t <> t) ->
  ListRepos.items (ListRepos.listRepos accounts f) = [].
Proof.
  intros Htags Ht Hbad.
  assert (~ Repo.tag_normal (JS.toLowerCase t)) as Hnot.
  { intros (Htrim & _ & Hne). destruct Hbad as [-> | Hbad]; [done |].
    apply Hbad, trim_same. rewrite trim_toLowerCase in Htrim.
    apply (f_equal String.length) in Htrim. by rewrite !toLowerCase_length in Htrim. }
  unfold ListRepos.listRepos. cbn [ListRepos.items].
  rewrite filter_none; [by unfold JS.slice_to; destruct (_ <? 0); rewrite take_nil |].
  intros item Hin Hkeeps. apply list_elem_of_fmap in Hin as (acc & -> & _).
  apply keeps_iff in Hkeeps as (_ & _ & _ & _ & Hhas).
  specialize (Hhas wanted Htags t Ht).
  pose proof (project_tags_normal acc) as Hnormal. rewrite Forall_forall in Hnormal.
  by apply Hnot, Hnormal.
Qed.

Lemma listRepos_untrimmed_tag_matches_nothing_witness :
  ListRepos.items
    (ListRepos.listRepos Samples.raw_repos
       (Samples.repo_filter None (Some [" solana"]%string) None None)) = [].
Proof.
  eapply (listRepos_untrimmed_tag_matches_nothing _ _ [" solana"]%string " solana"%string).
  - reflexivity.
  - by left.
  - right. vm_compute. discriminate.
Defined.

Lemma keeps_lower_case f item :
  ListRepos.keeps (ListRepos.lower_case f) item = ListRepos.keeps f item.
Proof.
  apply eq_true_iff_eq. rewrite !keeps_iff.
  unfold ListRepos.lower_case.
  cbn [ListRepos.activeOnly ListRepos.visibility ListRepos.sourceType ListRepos.search
       ListRepos.tags].
  split; intros (Ha & Hv & Hs & Hsearch & Htags); (split; [done |]);
    (split; [done |]); (split; [done |]); split.
  - intros text Htext Hne. rewrite <- (toLowerCase_idem text).
    apply (Hsearch (JS.toLowerCase text)); [by rewrite Htext |].
    by destruct text.
  - intros wanted Hw t Ht. rewrite <- (toLowerCase_idem t).
    apply (Htags (JS.toLowerCase <$> wanted)); [by rewrite Hw |].
    by apply list_elem_of_fmap_2.
  - intros text Htext Hne.
    destruct (ListRepos.search f) as [text0 |]; [| done].
    injection Htext as <-. rewrite toLowerCase_idem.
    apply Hsearch; [done | by destruct text0].
  - intros wanted Hw t Ht.
    destruct (ListRepos.tags f) as [wanted0 |]; [| done].
    injection Hw as <-. apply list_elem_of_fmap in Ht as (t0 & -> & Ht0).
    rewrite toLowerCase_idem. by eapply Htags.
Qed.

(** X16: the search text and the wanted tags are compared without regard
    to their case: a filter and the same filter with its search text and
    wanted tags in lower case give the same page. *)
Theorem listRepos_filter_case_insensitive accounts f :
  ListRepos.listRepos accounts (ListRepos.lower_case f) = ListRepos.listRepos accounts f.
Proof.
  unfold ListRepos.listRepos. f_equal. cbn [ListRepos.lower_case ListRepos.limit]. f_equal.
  apply list_filter_iff. intros item. by rewrite keeps_lower_case.
Qed.

(** ** Built-ins, continued *)

Lemma startsWith_spec s p :
  JS.startsWith s p = true <-> exists post, s = p +:+ post.
Proof.
  revert s. induction p as [| a p IH]; intros s.
  - destruct s; simpl; split; eauto.
  - destruct s as [| b s]; simpl; [split; [done | by intros [? ?]] |].
    rewrite andb_true_iff, IH. split.
    + intros [->%Ascii.eqb_eq [post ->]]. by exists post.
    + intros [post [= -> ->]]. split; [apply Ascii.eqb_refl | by exists post].
Qed.

Lemma includes_spec s needle :
  JS.includes s needle = true <-> exists pre post, s = pre +:+ needle +:+ post.
Proof.
  induction s as [| c s IH]; cbn [JS.includes].
  - rewrite orb_false_r, startsWith_spec. split.
    + intros [post ->]. by exists EmptyString, post.
    + intros (pre & post & Heq). destruct pre; [by exists post | done].
  - rewrite orb_true_iff, IH, startsWith_spec. split.
    + intros [[post ->] | (pre & post & ->)];
        [by exists EmptyString, post | by exists (String c pre), post].
    + intros ([| c' pre] & post & Heq); [left; by exists post |].
      right. injection Heq as -> ->. by exists pre, post.
Qed.

Lemma split_pieces sep s :
  Forall (fun piece => JS.all_chars (fun c => negb (Ascii.eqb c sep)) piece = true)
    (JS.split sep s).
Proof.
  induction s as [| c s IH]; simpl; [by repeat constructor |].
  destruct (Ascii.eqb c sep) eqn:Hc; [by constructor |].
  destruct (JS.split sep s) as [| p ps]; [by repeat constructor; simpl; rewrite Hc |].
  apply Forall_cons in IH as [Hp Hps]. constructor; [| done].
  simpl. by rewrite Hc, Hp.
Qed.

Lemma trimStart_all_chars p s :
  JS.all_chars p s = true -> JS.all_chars p (JS.trimStart s) = true.
Proof.
  induction s as [| c s IH]; simpl; [done |].
  intros [Hc Hs]%andb_prop. destruct (JS.is_white_space c); [by apply IH |].
  simpl. by rewrite Hc, Hs.
Qed.

Lemma trimEnd_all_chars p s :
  JS.all_chars p s = true -> JS.all_chars p (JS.trimEnd s) = true.
Proof.
  induction s as [| c s IH]; [done |]. rewrite trimEnd_cons. simpl.
  intros [Hc Hs]%andb_prop. specialize (IH Hs).
  destruct (JS.trimEnd s); [destruct (JS.is_white_space c); simpl; by rewrite ?Hc |].
  simpl in IH |- *. rewrite Hc. exact IH.
Qed.

Lemma trim_all_chars p s : JS.all_chars p s = true -> JS.all_chars p (JS.trim s) = true.
Proof. intros Hs. by apply trimEnd_all_chars, trimStart_all_chars. Qed.

Lemma split_append sep piece rest :
  JS.all_chars (fun c => negb (Ascii.eqb c sep)) piece = true ->
  JS.split sep (piece +:+ String sep rest) = piece :: JS.split sep rest.
Proof.
  induction piece as [| c piece IH]; simpl.
  - by rewrite Ascii.eqb_refl.
  - intros [Hc Hp]%andb_prop. apply negb_true_iff in Hc. by rewrite Hc, IH.
Qed.

Lemma split_whole sep piece :
  JS.all_chars (fun c => negb (Ascii.eqb c sep)) piece = true ->
  JS.split sep piece = [piece].
Proof.
  induction piece as [| c piece IH]; simpl; [done |].
  intros [Hc Hp]%andb_prop. apply negb_true_iff in Hc. by rewrite Hc, IH.
Qed.

Lemma split_join sep tags :
  tags <> [] ->
  Forall (fun t => JS.all_chars (fun c => negb (Ascii.eqb c sep)) t = true) tags ->
  JS.split sep (JS.join (String sep EmptyString) tags) = tags.
Proof.
  intros Hne Hall. induction Hall as [| t l Ht Hl IH]; [done |].
  destruct l as [| t' l]; [by apply split_whole |].
  change (JS.join (String sep EmptyString) (t :: t' :: l))
    with (t +:+ String sep (JS.join (String sep EmptyString) (t' :: l))).
  rewrite split_append by done. by rewrite IH.
Qed.

(** ** utils/parsers.ts *)

(** X17: [parseCsvTags] gives no tags for a missing or empty input, and
    otherwise tags that are trimmed, not empty and free of commas. The
    normalization [listRepos] applies to a comma-separated tags string is
    this parse followed by lower-casing. *)
Theorem parseCsvTags_shape :
  ListRepos.parseCsvTags None = [] /\
  ListRepos.parseCsvTags (Some EmptyString) = [] /\
  (forall input,
     Forall (fun t => JS.trim t = t /\ t <> EmptyString /\
                      JS.all_chars (fun c => negb (Ascii.eqb c ",")) t = true)
       (ListRepos.parseCsvTags input)) /\
  (forall s,
     Repo.listRepos_tags (Repo.tags_string s)
     = JS.toLowerCase <$> ListRepos.parseCsvTags (Some s)).
Proof.
  split; [done |]. split; [done |]. split.
  - intros input. unfold ListRepos.parseCsvTags.
    destruct (JS.truthy_string input); [| constructor].
    apply Forall_forall. intros t Ht.
    apply list_elem_of_filter in Ht as [Hlen Ht].
    apply list_elem_of_fmap in Ht as (piece & -> & Hpiece).
    split; [apply trim_idem |].
    split; [intros Hempty; rewrite Hempty in Hlen; simpl in Hlen; lia |].
    apply trim_all_chars.
    pose proof (split_pieces "," (default EmptyString input)) as Hpieces.
    rewrite Forall_forall in Hpieces. by apply Hpieces.
  - intros s. unfold Repo.listRepos_tags. rewrite normalizeRepoTags_unfold.
    cbn [default]. unfold ListRepos.parseCsvTags.
    destruct s as [| c s]; [done |]. done.
Qed.

(** X18: parsing undoes joining: tags that are trimmed, not empty and free
    of commas come back unchanged from the comma-separated string that
    [join(",")] makes of them. *)
Theorem parseCsvTags_join tags :
  Forall (fun t => JS.trim t = t /\ t <> EmptyString /\
                   JS.all_chars (fun c => negb (Ascii.eqb c ",")) t = true) tags ->
  ListRepos.parseCsvTags (Some (JS.join "," tags)) = tags.
Proof.
  intros Hall.
  destruct (decide (tags = [])) as [-> | Hne]; [done |].
  assert (JS.split "," (JS.join "," tags) = tags) as Hsplit.
  { apply split_join; [done |]. eapply Forall_impl; [exact Hall |]. by intros t (_ & _ & Ht). }
  assert (JS.truthy_string (Some (JS.join "," tags)) = true) as Htruthy.
  { destruct Hall as [| t0 tags0 (_ & Hne0 & _) _]; [done |].
    destruct t0 as [| c t0]; [done |]. by destruct tags0. }
  unfold ListRepos.parseCsvTags. rewrite Htruthy.
  change (default EmptyString (Some (JS.join "," tags))) with (JS.join "," tags).
  rewrite Hsplit.
  clear Hsplit Htruthy Hne. induction Hall as [| t l (Htrim & Hne & _) _ IH]; [done |].
  rewrite fmap_cons, filter_cons, Htrim.
  rewrite decide_True by (destruct t; [done | simpl; lia]). by rewrite IH.
Qed.

Lemma parseCsvTags_join_witness :
  ListRepos.parseCsvTags (Some (JS.join "," ["unit09"; "fork"; "root"]%string))
  = ["unit09"; "fork"; "root"]%string.
Proof.
  apply parseCsvTags_join.
  repeat constructor; vm_compute; congruence.
Defined.

(** ** jobQueue.ts and index.ts, the rest *)

(** X19: enqueueing never changes what [next] answers while a job is
    waiting: a new job goes behind every job already in the queue. *)
Theorem enqueue_keeps_next now_id random_hex now_created ty p q ref job :
  JobQueue.next q = Some (ref, job) ->
  JobQueue.next (JobQueue.enqueue now_id random_hex now_created ty p q).2 = Some (ref, job).
Proof. unfold JobQueue.next. simpl. apply list_find_app_l. Qed.

Lemma enqueue_keeps_next_witness :
  JobQueue.next
    (JobQueue.enqueue 1700000000001 "0b2" 1700000000001 JobQueue.decompose Samples.payload
       (Worker.queue Samples.one_pending)).2
  = JobQueue.next (Worker.queue Samples.one_pending).
Proof.
  destruct (JobQueue.next (Worker.queue Samples.one_pending)) as [[ref job] |] eqn:Hnext;
    [| vm_compute in Hnext; discriminate].
  by apply enqueue_keeps_next.
Defined.

Lemma on_fulfilled_queue now ref result w :
  Worker.queue (Worker.on_fulfilled now ref result w)
  = JobQueue.markCompleted now ref result (Worker.queue w).
Proof. reflexivity. Qed.

(** X20: when a handler's promise fulfils, the job gets its completed-at
    stamp and the result is stored under its id; attempts and started-at
    stay, no other job and no other stored result changes, the completed
    counter goes up by one, the failed counter stays and the active count
    goes down by one. Fulfilment straight after the dispatch brings the
    active count back to what it was before the dispatch. *)
Theorem on_fulfilled_effect (config : Worker.WorkerConfig) (registry : JobQueue.JobType -> bool) :
  (forall now result w ref job,
     JobQueue.jobs (Worker.queue w) !! ref = Some job ->
     let w2 := Worker.on_fulfilled now ref result w in
     JobQueue.jobs (Worker.queue w2) !! ref = Some (JobQueue.set_completedAt now job) /\
     JobQueue.completedAt (JobQueue.set_completedAt now job) = Some now /\
     JobQueue.attempts (JobQueue.set_completedAt now job) = JobQueue.attempts job /\
     JobQueue.startedAt (JobQueue.set_completedAt now job) = JobQueue.startedAt job /\
     JobQueue.getJobResult (JobQueue.id job) (Worker.queue w2) = Some result /\
     (forall other, other <> ref ->
        JobQueue.jobs (Worker.queue w2) !! other = JobQueue.jobs (Worker.queue w) !! other) /\
     (forall key, key <> JobQueue.id job ->
        JobQueue.getJobResult key (Worker.queue w2) = JobQueue.getJobResult key (Worker.queue w)) /\
     Worker.jobsCompleted (Worker.metrics w2) = Worker.jobsCompleted (Worker.metrics w) + 1 /\
     Worker.jobsFailed (Worker.metrics w2) = Worker.jobsFailed (Worker.metrics w) /\
     Worker.jobsStarted (Worker.metrics w2) = Worker.jobsStarted (Worker.metrics w) /\
     Worker.activeJobs w2 = Worker.activeJobs w - 1) /\
  (forall now w ref w1 later result,
     Worker.tick config registry now w = (Worker.dispatched ref, w1) ->
     let w2 := Worker.on_fulfilled later ref result w1 in
     Worker.activeJobs w2 = Worker.activeJobs w /\
     (JobQueue.completedAt <$> JobQueue.jobs (Worker.queue w2) !! ref) = Some (Some later) /\
     (JobQueue.startedAt <$> JobQueue.jobs (Worker.queue w2) !! ref) = Some (Some now)).
Proof.
  split.
  - intros now result w ref job Hjob w2. subst w2.
    assert (ref < length (JobQueue.jobs (Worker.queue w)))%nat as Hlt
      by (by eapply lookup_lt_Some).
    rewrite on_fulfilled_queue, (markCompleted_lookup _ _ _ _ _ Hjob).
    unfold JobQueue.getJobResult. cbn [JobQueue.jobs JobQueue.results].
    split; [by apply list_lookup_insert_eq |]. do 3 (split; [done |]).
    split; [apply lookup_insert_eq |].
    split; [intros other Hne; by apply list_lookup_insert_ne |].
    split; [intros key Hne; by apply lookup_insert_ne |]. done.
  - intros now w ref w1 later result Htick w2.
    apply tick_dispatched in Htick as (-> & _ & job & Hnext & _).
    apply next_lookup in Hnext as [Hjob _].
    assert (JobQueue.jobs (Worker.queue (Worker.dispatch_of now ref w)) !! ref
            = Some (Worker.set_startedAt now job)) as Hjob1.
    { simpl. by rewrite list_lookup_alter_eq, Hjob. }
    subst w2. rewrite on_fulfilled_queue, (markCompleted_lookup _ _ _ _ _ Hjob1).
    cbn [JobQueue.jobs]. rewrite list_lookup_insert_eq by (by eapply lookup_lt_Some).
    split; [simpl; lia | done].
Qed.

Lemma on_fulfilled_effect_witness :
  let w1 := (Worker.tick Worker.default_config Worker.handlers 1700000001000 Samples.one_pending).2 in
  let w2 := Worker.on_fulfilled 1700000002000 0 Samples.result w1 in
  Worker.activeJobs w2 = Worker.activeJobs Samples.one_pending /\
  (JobQueue.completedAt <$> JobQueue.jobs (Worker.queue w2) !! 0%nat) = Some (Some 1700000002000).
Proof.
  intros w1 w2.
  destruct (on_fulfilled_effect Worker.default_config Worker.handlers) as [_ Hround].
  destruct (Hround 1700000001000 Samples.one_pending 0%nat w1 1700000002000 Samples.result)
    as (Hactive & Hdone & _); [vm_compute; reflexivity |].
  by split.
Defined.

Section WorkerInvariants.

Variable config : Worker.WorkerConfig.
Variable registry : JobQueue.JobType -> bool.

Lemma run_preserves (Q : Worker.Event -> Prop) (P : Worker.WorkerState -> Prop) :
  (forall e w w', Q e -> P w -> Worker.step config registry e w = Some w' -> P w') ->
  forall events w w',
    Forall Q events -> P w -> Worker.run config registry events w = Some w' -> P w'.
Proof.
  intros Hstep events. induction events as [| e events IH]; intros w w' HQ Hw Hrun; simpl in Hrun.
  - by injection Hrun as <-.
  - apply Forall_cons in HQ as [He HQ].
    destruct (Worker.step config registry e w) as [w1 |] eqn:Hs; [| done].
    eapply IH; [done | | exact Hrun]. by eapply Hstep.
Qed.

(** The four shapes a step can take. *)
Lemma step_cases e w w' :
  Worker.step config registry e w = Some w' ->
  (exists now_id random_hex now_created ty p,
     e = Worker.ev_enqueue now_id random_hex now_created ty p /\
     w' = {| Worker.queue :=
               (JobQueue.enqueue now_id random_hex now_created ty p (Worker.queue w)).2;
             Worker.activeJobs := Worker.activeJobs w;
             Worker.metrics := Worker.metrics w;
             Worker.awaiting := Worker.awaiting w |}) \/
  (exists now, e = Worker.ev_tick now /\ w' = w) \/
  (exists now ref job,
     e = Worker.ev_tick now /\ w' = Worker.dispatch_of now ref w /\
     JobQueue.next (Worker.queue w) = Some (ref, job) /\
     registry (JobQueue.type job) = true /\
     Worker.activeJobs w < Worker.maxConcurrentJobs config) \/
  (exists ref result now,
     e = Worker.ev_fulfilled ref result now /\ ref ∈ Worker.awaiting w /\
     w' = Worker.on_fulfilled now ref result w) \/
  (exists ref,
     e = Worker.ev_rejected ref /\ ref ∈ Worker.awaiting w /\
     w' = Worker.on_rejected ref w).
Proof.
  destruct e as [now_id random_hex now_created ty p | now | ref result now | ref];
    simpl; intros Hstep.
  - injection Hstep as <-. left. by repeat eexists.
  - injection Hstep as <-.
    destruct (tick_inv config registry now w)
      as [(o & -> & _) | (ref & job & -> & Hnext & Hreg & Hfree)].
    + right. left. by exists now.
    + right. right. left. exists now, ref, job. done.
  - destruct (decide (ref ∈ Worker.awaiting w)); [| done].
    injection Hstep as <-. do 3 right. left. by exists ref, result, now.
  - destruct (decide (ref ∈ Worker.awaiting w)); [| done].
    injection Hstep as <-. do 4 right. by exists ref.
Qed.

Lemma conservation_step e w w' :
  Worker.jobsStarted (Worker.metrics w)
  = Worker.jobsCompleted (Worker.metrics w) + Worker.jobsFailed (Worker.metrics w)
    + Worker.activeJobs w /\
  Worker.activeJobsGauge (Worker.metrics w) = Worker.activeJobs w /\
  0 <= Worker.jobsCompleted (Worker.metrics w) /\ 0 <= Worker.jobsFailed (Worker.metrics w) ->
  Worker.step config registry e w = Some w' ->
  Worker.jobsStarted (Worker.metrics w')
  = Worker.jobsCompleted (Worker.metrics w') + Worker.jobsFailed (Worker.metrics w')
    + Worker.activeJobs w' /\
  Worker.activeJobsGauge (Worker.metrics w') = Worker.activeJobs w' /\
  0 <= Worker.jobsCompleted (Worker.metrics w') /\ 0 <= Worker.jobsFailed (Worker.metrics w').
Proof.
  intros (Hsum & Hgauge & Hc & Hf) Hstep.
  apply step_cases in Hstep
    as [(? & ? & ? & ? & ? & _ & ->) | [(? & _ & ->) | [(? & ? & ? & _ & -> & _)
       | [(? & ? & ? & _ & _ & ->) | (? & _ & _ & ->)]]]];
    simpl; unfold Worker.counter_inc, Worker.gauge_set; lia.
Qed.

End WorkerInvariants.

(** X21: in every state the worker can reach, each job that was started
    is accounted for exactly once: the started counter equals the completed
    counter plus the failed counter plus the active count; and the active
    gauge shows the active count. *)
Theorem worker_counters_balance (config : Worker.WorkerConfig)
    (registry : JobQueue.JobType -> bool) (w : Worker.WorkerState) :
  Worker.reachable config registry w ->
  Worker.jobsStarted (Worker.metrics w)
  = Worker.jobsCompleted (Worker.metrics w) + Worker.jobsFailed (Worker.metrics w)
    + Worker.activeJobs w /\
  Worker.activeJobsGauge (Worker.metrics w) = Worker.activeJobs w /\
  0 <= Worker.jobsCompleted (Worker.metrics w) /\ 0 <= Worker.jobsFailed (Worker.metrics w).
Proof.
  intros [events Hrun]. pattern w.
  eapply (run_preserves config registry (fun _ => True)); [| | | exact Hrun].
  - intros e w0 w1 _. apply conservation_step.
  - by apply Forall_true.
  - simpl. lia.
Qed.

Lemma worker_counters_balance_witness :
  Worker.jobsStarted (Worker.metrics Samples.busy)
  = Worker.jobsCompleted (Worker.metrics Samples.busy)
    + Worker.jobsFailed (Worker.metrics Samples.busy) + Worker.activeJobs Samples.busy.
Proof.
  apply (worker_counters_balance Worker.default_config Worker.handlers).
  exists Samples.busy_events. vm_compute. reflexivity.
Defined.

(** X22: a job type without a handler blocks the queue. When the oldest
    waiting job has no handler, a tick changes nothing, and since the job
    stays the oldest waiting one, no number of ticks dispatches it or any
    job behind it. With the handlers that jobHandlers.ts registers this
    cannot arise: there no tick is dropped for a missing handler. *)
Theorem missing_handler_blocks_queue (config : Worker.WorkerConfig) :
  (forall registry w ref job nows,
     JobQueue.next (Worker.queue w) = Some (ref, job) ->
     registry (JobQueue.type job) = false ->
     Worker.run config registry (Worker.ev_tick <$> nows) w = Some w) /\
  (forall now w ref,
     (Worker.tick config Worker.handlers now w).1 <> Worker.no_handler ref).
Proof.
  split.
  - intros registry w ref job nows Hnext Hreg.
    assert (forall now, (Worker.tick config registry now w).2 = w) as Htick.
    { intros now. unfold Worker.tick. rewrite Hnext, Hreg.
      by destruct (_ <=? _). }
    induction nows as [| now nows IH]; [done |].
    rewrite fmap_cons. cbn [Worker.run Worker.step]. by rewrite Htick.
  - intros now w ref. unfold Worker.tick.
    destruct (_ <=? _); [done |].
    destruct (JobQueue.next (Worker.queue w)) as [[r job] |]; [| done].
    assert (Worker.handlers (JobQueue.type job) = true) as ->
      by (by destruct (JobQueue.type job)).
    done.
Qed.

Lemma missing_handler_blocks_queue_witness :
  Worker.run Worker.default_config Samples.partial_registry
    (Worker.ev_tick <$> [1700000001000; 1700000002000; 1700000003000])
    (default Worker.initial
       (Worker.run Worker.default_config Samples.partial_registry
          (take 5 Samples.busy_events) Worker.initial))
  = Some (default Worker.initial
            (Worker.run Worker.default_config Samples.partial_registry
               (take 5 Samples.busy_events) Worker.initial)).
Proof.
  destruct (missing_handler_blocks_queue Worker.default_config) as [Hblock _].
  set (w := default _ _).
  destruct (JobQueue.next (Worker.queue w)) as [[ref job] |] eqn:Hnext;
    [| vm_compute in Hnext; discriminate].
  apply (Hblock Samples.partial_registry w ref job); [exact Hnext |].
  vm_compute in Hnext. by injection Hnext as <- <-.
Defined.

Lemma fmap_alter_same {A B} (f : A -> B) (g : A -> A) (i : nat) (l : list A) :
  (forall x, f (g x) = f x) -> f <$> alter g i l = f <$> l.
Proof.
  intros Hfg. revert i. induction l as [| x l IH]; intros [| i]; simpl; [done | done | |].
  - by rewrite Hfg.
  - f_equal. apply IH.
Qed.

Section WorkerHistory.

Variable config : Worker.WorkerConfig.
Variable registry : JobQueue.JobType -> bool.

Lemma step_identities e w w' :
  Worker.step config registry e w = Some w' ->
  Worker.identity <$> JobQueue.jobs (Worker.queue w')
  = (Worker.identity <$> JobQueue.jobs (Worker.queue w)) ++ from_option (fun i => [i]) [] (Worker.enqueued e).
Proof.
  intros Hstep.
  apply step_cases in Hstep
    as [(? & ? & ? & ? & ? & -> & ->) | [(? & -> & ->) | [(? & ref & ? & -> & -> & _)
       | [(ref & ? & now & -> & _ & ->) | (ref & -> & _ & ->)]]]];
    cbn [Worker.enqueued from_option]; rewrite ?app_nil_r.
  - simpl. by rewrite fmap_app.
  - done.
  - simpl. by apply fmap_alter_same.
  - rewrite on_fulfilled_queue. unfold JobQueue.markCompleted.
    destruct (JobQueue.jobs (Worker.queue w) !! ref) as [job |] eqn:Hjob; [| done].
    cbn [JobQueue.jobs]. rewrite list_fmap_insert. apply list_insert_id.
    by rewrite list_lookup_fmap, Hjob.
  - rewrite on_rejected_job. by apply fmap_alter_same.
Qed.

Lemma run_identities events : forall w w',
  Worker.run config registry events w = Some w' ->
  Worker.identity <$> JobQueue.jobs (Worker.queue w')
  = (Worker.identity <$> JobQueue.jobs (Worker.queue w)) ++ omap Worker.enqueued events.
Proof.
  induction events as [| e events IH]; intros w w' Hrun; simpl in Hrun.
  - injection Hrun as <-. by rewrite app_nil_r.
  - destruct (Worker.step config registry e w) as [w1 |] eqn:Hstep; [| done].
    rewrite (IH _ _ Hrun), (step_identities _ _ _ Hstep), <- app_assoc. f_equal.
    cbn [omap list_omap]. by destruct (Worker.enqueued e).
Qed.

Lemma stalled_step e w w' :
  Worker.maxConcurrentJobs config <= 0 ->
  Worker.activeJobs w = 0 /\ Worker.awaiting w = [] /\
  Worker.jobsStarted (Worker.metrics w) = 0 /\
  Forall (fun job => JobQueue.startedAt job = None) (JobQueue.jobs (Worker.queue w)) ->
  Worker.step config registry e w = Some w' ->
  Worker.activeJobs w' = 0 /\ Worker.awaiting w' = [] /\
  Worker.jobsStarted (Worker.metrics w') = 0 /\
  Forall (fun job => JobQueue.startedAt job = None) (JobQueue.jobs (Worker.queue w')).
Proof.
  intros Hceiling (Hactive & Hawait & Hstarted & Hjobs) Hstep.
  apply step_cases in Hstep
    as [(? & ? & ? & ? & ? & _ & ->) | [(? & _ & ->) | [(? & ? & ? & _ & _ & _ & _ & Hfree)
       | [(ref & ? & ? & _ & Hin & _) | (ref & _ & Hin & _)]]]].
  - simpl. do 3 (split; [done |]). apply Forall_app. split; [done |]. by repeat constructor.
  - done.
  - lia.
  - rewrite Hawait in Hin. by apply elem_of_nil in Hin.
  - rewrite Hawait in Hin. by apply elem_of_nil in Hin.
Qed.

End WorkerHistory.

(** X23: the queue never drops, reorders or re-labels a job: over any run
    of the worker the ids, types, payloads, created-at stamps and attempt
    ceilings in the queue are those it had at the start, in the same order,
    followed by those of the jobs enqueued during the run, in enqueue
    order. *)
Theorem jobs_are_never_dropped (config : Worker.WorkerConfig)
    (registry : JobQueue.JobType -> bool) events w w' :
  Worker.run config registry events w = Some w' ->
  Worker.identity <$> JobQueue.jobs (Worker.queue w')
  = (Worker.identity <$> JobQueue.jobs (Worker.queue w)) ++ omap Worker.enqueued events.
Proof. apply run_identities. Qed.

Lemma jobs_are_never_dropped_witness :
  Worker.identity <$> JobQueue.jobs (Worker.queue Samples.busy)
  = omap Worker.enqueued Samples.busy_events.
Proof.
  apply (jobs_are_never_dropped Worker.default_config Worker.handlers
           Samples.busy_events Worker.initial Samples.busy).
  vm_compute. reflexivity.
Defined.

(** X24: a ceiling of zero or less stalls the worker: whatever is enqueued
    and however often the timer fires, no job is ever started. *)
Theorem nonpositive_ceiling_never_dispatches (config : Worker.WorkerConfig)
    (registry : JobQueue.JobType -> bool) (w : Worker.WorkerState) :
  Worker.maxConcurrentJobs config <= 0 ->
  Worker.reachable config registry w ->
  Worker.activeJobs w = 0 /\ Worker.awaiting w = [] /\
  Worker.jobsStarted (Worker.metrics w) = 0 /\
  Forall (fun job => JobQueue.startedAt job = None) (JobQueue.jobs (Worker.queue w)).
Proof.
  intros Hceiling [events Hrun]. pattern w.
  eapply (run_preserves config registry (fun _ => True)); [| | | exact Hrun].
  - intros e w0 w1 _. by apply stalled_step.
  - by apply Forall_true.
  - simpl. by repeat split.
Qed.

Lemma nonpositive_ceiling_never_dispatches_witness :
  Forall (fun job => JobQueue.startedAt job = None)
    (JobQueue.jobs (Worker.queue
       (default Worker.initial
          (Worker.run Samples.stalled_config Worker.handlers Samples.busy_events Worker.initial)))).
Proof.
  apply (nonpositive_ceiling_never_dispatches Samples.stalled_config Worker.handlers).
  - simpl. lia.
  - exists Samples.busy_events. vm_compute. reflexivity.
Defined.

Lemma remove_first_subseteq ref x l : x ∈ Worker.remove_first ref l -> x ∈ l.
Proof.
  induction l as [| r l IH]; simpl; [done |].
  destruct (decide (r = ref)); [by right |].
  intros [-> | Hin]%elem_of_cons; [by left | right; by apply IH].
Qed.

Lemma remove_first_NoDup ref l :
  NoDup l -> NoDup (Worker.remove_first ref l) /\ ref ∉ Worker.remove_first ref l.
Proof.
  induction 1 as [| r l Hr Hl [IHnd IHnot]]; simpl; [split; [constructor | apply not_elem_of_nil] |].
  destruct (decide (r = ref)) as [-> | Hne]; [done |].
  split.
  - constructor; [| done]. intros Hin. by apply Hr, (remove_first_subseteq ref).
  - intros [-> | Hin]%elem_of_cons; [done | by apply IHnot].
Qed.

Lemma remove_first_other ref x l :
  x <> ref -> x ∈ Worker.remove_first ref l <-> x ∈ l.
Proof.
  intros Hne. split; [apply remove_first_subseteq |].
  induction l as [| r l IH]; simpl; [done |].
  destruct (decide (r = ref)) as [-> | Hr].
  - by intros [-> | Hin]%elem_of_cons.
  - intros [-> | Hin]%elem_of_cons; [by left | right; by apply IH].
Qed.

Lemma started_not_unstarted job : Worker.started job -> ~ JobQueue.unstarted job.
Proof.
  intros (t & Ht & Hne). unfold JobQueue.unstarted. rewrite Ht. simpl.
  by destruct (Z.eqb_spec t 0).
Qed.

Lemma in_phase_frame w w' ref job phase :
  (ref ∈ Worker.awaiting w' <-> ref ∈ Worker.awaiting w) ->
  (forall key, is_Some (JobQueue.results (Worker.queue w) !! key) ->
               is_Some (JobQueue.results (Worker.queue w') !! key)) ->
  Worker.in_phase w ref job phase -> Worker.in_phase w' ref job phase.
Proof.
  intros Hawait Hresults. unfold JobQueue.getJobResult.
  destruct phase; simpl; rewrite Hawait; [tauto | tauto | | tauto].
  intros (? & ? & ? & ? & Hres). repeat split; try done. by apply Hresults.
Qed.

Lemma lifecycle_awaited w ref job :
  Worker.lifecycle_ok w -> JobQueue.jobs (Worker.queue w) !! ref = Some job ->
  ref ∈ Worker.awaiting w -> Worker.in_phase w ref job Worker.running.
Proof.
  intros (_ & _ & Hjobs) Hjob Hin. destruct (Hjobs ref job Hjob) as (_ & phase & Hphase).
  destruct phase; simpl in Hphase; [| done | |]; exfalso; tauto.
Qed.

Lemma lifecycle_unstarted w ref job :
  Worker.lifecycle_ok w -> JobQueue.jobs (Worker.queue w) !! ref = Some job ->
  JobQueue.unstarted job -> Worker.in_phase w ref job Worker.pending.
Proof.
  intros (_ & _ & Hjobs) Hjob Hun. destruct (Hjobs ref job Hjob) as (_ & phase & Hphase).
  destruct phase; simpl in Hphase; [done | | |];
    exfalso; (apply (started_not_unstarted job); [apply Hphase | done]).
Qed.

Lemma in_phase_unique w ref job phase1 phase2 :
  Worker.in_phase w ref job phase1 -> Worker.in_phase w ref job phase2 -> phase1 = phase2.
Proof.
  destruct phase1, phase2; simpl; try done;
    intros (H1 & H2 & H3 & H4) (H5 & H6 & H7 & H8); exfalso;
    try (by apply (started_not_unstarted job); [| unfold JobQueue.unstarted; rewrite H1 || rewrite H5]);
    try tauto; try lia; try (rewrite H2 in H6; by destruct H6);
    try (rewrite H6 in H2; by destruct H2).
Qed.

Section WorkerLifecycle.

Variable config : Worker.WorkerConfig.
Variable registry : JobQueue.JobType -> bool.

Lemma lifecycle_step e w w' :
  Worker.clock_after_epoch e -> Worker.lifecycle_ok w ->
  Worker.step config registry e w = Some w' -> Worker.lifecycle_ok w'.
Proof.
  intros Hclock Hok Hstep. pose proof Hok as (Hnd & Hrefs & Hjobs).
  apply step_cases in Hstep
    as [(now_id & random_hex & now_created & ty & p & _ & ->) | [(? & _ & ->)
       | [(now & ref & job & -> & -> & Hnext & _ & _)
       | [(ref & result & now & _ & Hin & ->) | (ref & _ & Hin & ->)]]]].
  - (* enqueue *)
    split; [done |]. split.
    + intros ref Hin. simpl. rewrite length_app. specialize (Hrefs ref Hin). lia.
    + intros ref job. simpl. intros Hjob.
      apply lookup_app_Some in Hjob as [Hjob | [Hlen Hjob]].
      * destruct (Hjobs ref job Hjob) as (Hmax & phase & Hphase).
        split; [done |]. exists phase. by eapply in_phase_frame.
      * apply list_lookup_singleton_Some in Hjob as [Hzero <-].
        split; [done |]. exists Worker.pending. simpl. repeat split.
        intros Hin. specialize (Hrefs ref Hin). lia.
  - done.
  - (* dispatch *)
    apply next_lookup in Hnext as [Hjob Hun].
    pose proof (lifecycle_unstarted w ref job Hok Hjob Hun) as (Hs & Hc & Ha & Hnotin).
    simpl in Hclock.
    split; [simpl; by constructor |]. split.
    + intros r [-> | Hin]%elem_of_cons; simpl; rewrite length_alter;
        [by eapply lookup_lt_Some | by apply Hrefs].
    + intros r j. simpl. intros Hj. destruct (decide (r = ref)) as [-> | Hne].
      * rewrite list_lookup_alter_eq, Hjob in Hj. injection Hj as <-.
        split; [by apply (Hjobs ref job) |]. exists Worker.running. simpl.
        split; [by exists now |]. repeat split; [done | done | by left].
      * rewrite list_lookup_alter_ne in Hj by done.
        destruct (Hjobs r j Hj) as (Hmax & phase & Hphase).
        split; [done |]. exists phase. eapply in_phase_frame; [| | exact Hphase]; [| done].
        simpl. rewrite elem_of_cons. split; [by intros [? | ?] | by right].
  - (* fulfilled *)
    destruct (JobQueue.jobs (Worker.queue w) !! ref) as [job |] eqn:Hjob;
      [| apply Hrefs, lookup_lt_is_Some in Hin; rewrite Hjob in Hin; by destruct Hin].
    pose proof (lifecycle_awaited w ref job Hok Hjob Hin) as (Hs & Hc & Ha & _).
    destruct (remove_first_NoDup ref _ Hnd) as [Hnd' Hgone].
    assert (Worker.queue (Worker.on_fulfilled now ref result w)
            = {| JobQueue.jobs := <[ref := JobQueue.set_completedAt now job]>
                                    (JobQueue.jobs (Worker.queue w));
                 JobQueue.results := <[JobQueue.id job := result]>
                                       (JobQueue.results (Worker.queue w)) |}) as Hq
      by (rewrite on_fulfilled_queue; by apply markCompleted_lookup).
    split; [done |]. split.
    + intros r Hr%remove_first_subseteq. rewrite Hq. cbn [JobQueue.jobs].
      rewrite length_insert. by apply Hrefs.
    + intros r j. rewrite Hq. cbn [JobQueue.jobs]. intros Hj.
      destruct (decide (r = ref)) as [-> | Hne].
      * rewrite list_lookup_insert_eq in Hj by (by eapply lookup_lt_Some).
        injection Hj as <-. split; [by apply (Hjobs ref job) |].
        exists Worker.completed. unfold Worker.in_phase, JobQueue.getJobResult.
        rewrite Hq. cbn [JobQueue.results JobQueue.id JobQueue.set_completedAt].
        rewrite lookup_insert_eq. by repeat split.
      * rewrite list_lookup_insert_ne in Hj by done.
        destruct (Hjobs r j Hj) as (Hmax & phase & Hphase).
        split; [done |]. exists phase. eapply in_phase_frame; [| | exact Hphase].
        -- simpl. by apply remove_first_other.
        -- intros key. rewrite Hq. cbn [JobQueue.results].
           rewrite lookup_insert_is_Some'. by right.
  - (* rejected *)
    destruct (JobQueue.jobs (Worker.queue w) !! ref) as [job |] eqn:Hjob;
      [| apply Hrefs, lookup_lt_is_Some in Hin; rewrite Hjob in Hin; by destruct Hin].
    pose proof (lifecycle_awaited w ref job Hok Hjob Hin) as (Hs & Hc & Ha & _).
    destruct (remove_first_NoDup ref _ Hnd) as [Hnd' Hgone].
    split; [done |]. split.
    + intros r Hr%remove_first_subseteq. rewrite on_rejected_job, length_alter.
      by apply Hrefs.
    + intros r j. rewrite on_rejected_job. intros Hj.
      destruct (decide (r = ref)) as [-> | Hne].
      * rewrite list_lookup_alter_eq, Hjob in Hj. injection Hj as <-.
        split; [by apply (Hjobs ref job) |].
        exists Worker.failed. simpl. repeat split; [done | done | lia | done].
      * rewrite list_lookup_alter_ne in Hj by done.
        destruct (Hjobs r j Hj) as (Hmax & phase & Hphase).
        split; [done |]. exists phase. eapply in_phase_frame; [| | exact Hphase]; [| done].
        simpl. by apply remove_first_other.
Qed.

End WorkerLifecycle.

(** X25: over any run in which the timer reads a clock past the epoch,
    every job is in exactly one of four phases: pending (not started, no
    attempt, not completed), running (started and awaited by one suspended
    tick), completed (started, stamped completed, result stored, no attempt
    counted) or failed (started, one attempt counted, never completed).
    No job is dispatched twice, and a failed job is never retried: attempts
    never goes past 1, so it never reaches the ceiling of 3 that [enqueue]
    gives every job. *)
Theorem job_lifecycle (config : Worker.WorkerConfig)
    (registry : JobQueue.JobType -> bool) events (w : Worker.WorkerState) :
  Forall Worker.clock_after_epoch events ->
  Worker.run config registry events Worker.initial = Some w ->
  NoDup (Worker.awaiting w) /\
  (forall ref job, JobQueue.jobs (Worker.queue w) !! ref = Some job ->
     (exists phase, Worker.in_phase w ref job phase /\
                    forall other, Worker.in_phase w ref job other -> other = phase) /\
     0 <= JobQueue.attempts job <= 1 /\
     JobQueue.maxAttempts job = 3 /\
     (JobQueue.attempts job = 1 -> JobQueue.completedAt job = None /\
                                   ~ JobQueue.unstarted job)).
Proof.
  intros Hclock Hrun.
  assert (Worker.lifecycle_ok w) as (Hnd & _ & Hjobs).
  { pattern w. eapply (run_preserves config registry Worker.clock_after_epoch);
      [| exact Hclock | | exact Hrun].
    - apply lifecycle_step.
    - split; [constructor |]. split; [by intros ? ?%elem_of_nil |].
      intros ref job Hjob. simpl in Hjob. by rewrite lookup_nil in Hjob. }
  split; [done |]. intros ref job Hjob.
  destruct (Hjobs ref job Hjob) as (Hmax & phase & Hphase).
  split; [exists phase; split; [done | intros other Hother; by eapply in_phase_unique] |].
  destruct phase; simpl in Hphase; destruct Hphase as (Hs & Hc & Ha & Hrest);
    rewrite Ha; (split; [lia |]); (split; [done |]); intros Hone; try done.
  split; [done | by apply started_not_unstarted].
Qed.

Lemma job_lifecycle_witness :
  NoDup (Worker.awaiting Samples.busy) /\
  exists job, JobQueue.jobs (Worker.queue Samples.busy) !! 4%nat = Some job /\
              Worker.in_phase Samples.busy 4 job Worker.pending.
Proof.
  destruct (job_lifecycle Worker.default_config Worker.handlers Samples.busy_events Samples.busy)
    as [Hnd Hjobs].
  - unfold Samples.busy_events. repeat constructor; discriminate.
  - vm_compute. reflexivity.
  - split; [exact Hnd |].
    destruct (JobQueue.jobs (Worker.queue Samples.busy) !! 4%nat) as [job |] eqn:Hjob;
      [| vm_compute in Hjob; discriminate].
    exists job. split; [done |].
    destruct (Hjobs 4%nat job Hjob) as ((phase & Hphase & _) & _).
    assert (JobQueue.startedAt job = None) as Hnone
      by (vm_compute in Hjob; by injection Hjob as <-).
    destruct phase; [done | | |]; destruct Hphase as ((t & Ht & _) & _); congruence.
Defined.

Section WorkerResults.

Variable config : Worker.WorkerConfig.
Variable registry : JobQueue.JobType -> bool.

Lemma results_step e w w' :
  Worker.results_of_completed w ->
  Worker.step config registry e w = Some w' -> Worker.results_of_completed w'.
Proof.
  intros Hinv Hstep key result.
  apply step_cases in Hstep
    as [(now_id & random_hex & now_created & ty & p & _ & ->) | [(? & _ & ->)
       | [(now & ref & job & _ & -> & _)
       | [(ref & res & now & _ & _ & ->) | (ref & _ & _ & ->)]]]].
  - intros Hres. destruct (Hinv key result Hres) as (r & j & Hj & Hid & Hdone).
    exists r, j. split; [| done]. simpl. by apply lookup_app_l_Some.
  - apply Hinv.
  - intros Hres. destruct (Hinv key result Hres) as (r & j & Hj & Hid & Hdone).
    destruct (decide (r = ref)) as [-> | Hne].
    + exists ref, (Worker.set_startedAt now j). split; [| done].
      simpl. by rewrite list_lookup_alter_eq, Hj.
    + exists r, j. split; [| done]. simpl. by rewrite list_lookup_alter_ne.
  - rewrite on_fulfilled_queue. unfold JobQueue.markCompleted.
    destruct (JobQueue.jobs (Worker.queue w) !! ref) as [job |] eqn:Hjob; [| apply Hinv].
    unfold JobQueue.getJobResult. cbn [JobQueue.jobs JobQueue.results].
    assert (ref < length (JobQueue.jobs (Worker.queue w)))%nat as Hlt
      by (by eapply lookup_lt_Some).
    destruct (decide (JobQueue.id job = key)) as [<- | Hkey].
    + intros _. exists ref, (JobQueue.set_completedAt now job).
      split; [by apply list_lookup_insert_eq |]. by split.
    + rewrite lookup_insert_ne by done. intros Hres.
      destruct (Hinv key result Hres) as (r & j & Hj & Hid & Hdone).
      exists r, j. split; [| done]. rewrite list_lookup_insert_ne; [done |].
      intros <-. congruence.
  - intros Hres. destruct (Hinv key result Hres) as (r & j & Hj & Hid & Hdone).
    rewrite on_rejected_job.
    destruct (decide (r = ref)) as [-> | Hne].
    + exists ref, (Worker.incr_attempts j). split; [| done].
      by rewrite list_lookup_alter_eq, Hj.
    + exists r, j. split; [| done]. by rewrite list_lookup_alter_ne.
Qed.

End WorkerResults.

Lemma reachable_results (config : Worker.WorkerConfig)
    (registry : JobQueue.JobType -> bool) (w : Worker.WorkerState) :
  Worker.reachable config registry w -> Worker.results_of_completed w.
Proof.
  intros [events Hrun]. pattern w.
  eapply (run_preserves config registry (fun _ => True)); [| | | exact Hrun].
  - intros e w0 w1 _. apply results_step.
  - by apply Forall_true.
  - intros key result Hres. unfold JobQueue.getJobResult in Hres. simpl in Hres.
    by rewrite lookup_empty in Hres.
Qed.

Lemma reachable_ids (config : Worker.WorkerConfig)
    (registry : JobQueue.JobType -> bool) (w : Worker.WorkerState) ref job :
  Worker.reachable config registry w ->
  JobQueue.jobs (Worker.queue w) !! ref = Some job ->
  JS.startsWith (JobQueue.id job) "job-" = true.
Proof.
  intros [events Hrun] Hjob.
  pose proof (run_identities config registry events _ _ Hrun) as Hids.
  assert (Worker.identity job ∈ omap Worker.enqueued events) as Hin.
  { change (JobQueue.jobs (Worker.queue Worker.initial)) with (@nil JobQueue.Job) in Hids.
    rewrite fmap_nil, app_nil_l in Hids. rewrite <- Hids.
    apply list_elem_of_fmap. exists job. split; [done |]. by eapply list_elem_of_lookup_2. }
  apply list_elem_of_omap in Hin as (e & _ & He).
  destruct e as [now_id random_hex now_created ty p | | |]; try discriminate He.
  cbn [Worker.enqueued] in He. injection He as <- _ _ _ _.
  apply startsWith_spec. by eexists.
Qed.

(** X26: in every state the worker can reach, every job's id begins with
    "job-", as [enqueue] made it, and for a key of that form [getJobResult]
    answers only when a job with that id has been marked completed: the
    result it returns belongs to a job in the queue whose completed-at is
    set. (For a key that names a member of [Object.prototype] the plain
    object [results] answers without any job; no such key begins with
    "job-".) *)
Theorem results_belong_to_completed_jobs (config : Worker.WorkerConfig)
    (registry : JobQueue.JobType -> bool) (w : Worker.WorkerState) :
  Worker.reachable config registry w ->
  (forall ref job,
     JobQueue.jobs (Worker.queue w) !! ref = Some job ->
     JS.startsWith (JobQueue.id job) "job-" = true) /\
  (forall key result,
     JS.startsWith key "job-" = true ->
     JobQueue.getJobResult key (Worker.queue w) = Some result ->
     exists ref job,
       JobQueue.jobs (Worker.queue w) !! ref = Some job /\
       JobQueue.id job = key /\ is_Some (JobQueue.completedAt job)).
Proof.
  intros Hreach. split.
  - intros ref job. by apply (reachable_ids config registry).
  - intros key result _. by apply (reachable_results config registry).
Qed.

Lemma results_belong_to_completed_jobs_witness :
  exists ref job,
    JobQueue.jobs (Worker.queue Samples.one_completed) !! ref = Some job /\
    JobQueue.id job = "job-1700000000000-0a1"%string /\
    is_Some (JobQueue.completedAt job).
Proof.
  assert (Worker.reachable Worker.default_config Worker.handlers Samples.one_completed)
    as Hreach by (exists Samples.completed_events; vm_compute; reflexivity).
  destruct (results_belong_to_completed_jobs _ _ _ Hreach) as [_ Hresults].
  apply (Hresults _ Samples.result); vm_compute; reflexivity.
Defined.

(** ** rateLimiter.ts *)

Lemma rateLimiter_in_window req now hits info :
  hits !! RateLimiter.key_of req = Some info ->
  now <= RateLimiter.resetAt info ->
  RateLimiter.rateLimiter req now hits
  = (if RateLimiter.count info + 1 >? RateLimiter.MAX_HITS
     then RateLimiter.too_many_requests else RateLimiter.next_called,
     <[RateLimiter.key_of req :=
         {| RateLimiter.count := RateLimiter.count info + 1;
            RateLimiter.resetAt := RateLimiter.resetAt info |}]> hits).
Proof.
  intros Hinfo Hnow. unfold RateLimiter.rateLimiter. rewrite Hinfo.
  by destruct (Z.ltb_spec (RateLimiter.resetAt info) now); [lia |].
Qed.

Lemma rateLimiter_new_window req now hits :
  (forall info, hits !! RateLimiter.key_of req = Some info -> RateLimiter.resetAt info < now) ->
  RateLimiter.rateLimiter req now hits
  = (RateLimiter.next_called,
     <[RateLimiter.key_of req :=
         {| RateLimiter.count := 1;
            RateLimiter.resetAt := now + RateLimiter.WINDOW_MS |}]> hits).
Proof.
  intros Hold. unfold RateLimiter.rateLimiter.
  destruct (hits !! RateLimiter.key_of req) as [info |] eqn:Hinfo; [| done].
  specialize (Hold info eq_refl).
  by destruct (Z.ltb_spec (RateLimiter.resetAt info) now); [| lia].
Qed.

Lemma serve_in_window req nows : forall hits info,
  hits !! RateLimiter.key_of req = Some info ->
  Forall (fun now => now <= RateLimiter.resetAt info) nows ->
  let '(outcomes, hits') := RateLimiter.serve req nows hits in
  length outcomes = length nows /\
  hits' !! RateLimiter.key_of req
  = Some {| RateLimiter.count := RateLimiter.count info + Z.of_nat (length nows);
            RateLimiter.resetAt := RateLimiter.resetAt info |} /\
  (forall i outcome, outcomes !! i = Some outcome ->
     outcome = if RateLimiter.count info + 1 + Z.of_nat i >? RateLimiter.MAX_HITS
               then RateLimiter.too_many_requests else RateLimiter.next_called).
Proof.
  induction nows as [| now nows IH]; intros hits info Hinfo Hnows.
  - simpl. split; [done |]. split; [| by intros i o Hi].
    rewrite Hinfo. destruct info. simpl. do 2 f_equal. lia.
  - apply Forall_cons in Hnows as [Hnow Hnows].
    cbn [RateLimiter.serve]. rewrite (rateLimiter_in_window _ _ _ _ Hinfo Hnow).
    set (info1 := {| RateLimiter.count := RateLimiter.count info + 1;
                     RateLimiter.resetAt := RateLimiter.resetAt info |}).
    specialize (IH (<[RateLimiter.key_of req := info1]> hits) info1
                  (lookup_insert_eq _ _ _) Hnows).
    destruct (RateLimiter.serve req nows _) as [outcomes hits'].
    destruct IH as (Hlen & Hfinal & Hout).
    split; [simpl; by rewrite Hlen |]. split.
    + rewrite Hfinal. subst info1. simpl. do 2 f_equal. lia.
    + intros [| i] outcome Hi; simpl in Hi.
      * injection Hi as <-. by rewrite Z.add_0_r.
      * rewrite (Hout i outcome Hi). subst info1. simpl.
        by replace (RateLimiter.count info + 1 + 1 + Z.of_nat i)
          with (RateLimiter.count info + 1 + Z.of_nat (S i)) by lia.
Qed.

(** X27: a fixed window of one minute and 300 requests per client and
    path. When a request opens a window (no entry for its key, or an entry
    that has run out), it and the requests with the same key that arrive up
    to and including the millisecond the window ends are let through while
    they are among the first 300, and refused from the 301st on; each of
    them is counted, refused or not. *)
Theorem rateLimiter_window req t0 nows hits :
  (forall info, hits !! RateLimiter.key_of req = Some info -> RateLimiter.resetAt info < t0) ->
  Forall (fun now => now <= t0 + RateLimiter.WINDOW_MS) nows ->
  let '(outcomes, hits') := RateLimiter.serve req (t0 :: nows) hits in
  hits' !! RateLimiter.key_of req
  = Some {| RateLimiter.count := Z.of_nat (length (t0 :: nows));
            RateLimiter.resetAt := t0 + RateLimiter.WINDOW_MS |} /\
  (forall i, (i < length (t0 :: nows))%nat ->
     outcomes !! i = Some (if decide (i < 300)%nat then RateLimiter.next_called
                           else RateLimiter.too_many_requests)).
Proof.
  intros Hfresh Hnows. cbn [RateLimiter.serve].
  rewrite (rateLimiter_new_window _ _ _ Hfresh).
  set (info1 := {| RateLimiter.count := 1; RateLimiter.resetAt := t0 + RateLimiter.WINDOW_MS |}).
  pose proof (serve_in_window req nows (<[RateLimiter.key_of req := info1]> hits) info1
                (lookup_insert_eq _ _ _) Hnows) as Hserve.
  destruct (RateLimiter.serve req nows _) as [outcomes hits'].
  destruct Hserve as (Hlen & Hfinal & Hout).
  split.
  - rewrite Hfinal. subst info1. simpl. do 2 f_equal. lia.
  - intros [| i] Hi; simpl; [done |].
    simpl in Hi. destruct (outcomes !! i) as [outcome |] eqn:Ho;
      [| apply lookup_ge_None in Ho; lia].
    rewrite (Hout i outcome Ho). subst info1. simpl. unfold RateLimiter.MAX_HITS.
    rewrite Z.gtb_ltb.
    destruct (Z.ltb_spec 300 (1 + 1 + Z.of_nat i)), (decide (S i < 300)%nat); (done || lia).
Qed.

Lemma rateLimiter_window_witness :
  let req := {| RateLimiter.ip := Some "10.0.0.7"%string;
                RateLimiter.remoteAddress := None; RateLimiter.path := "/repos" |} in
  (RateLimiter.serve req (replicate 302 1700000000000) ∅).1 !! 299%nat
  = Some RateLimiter.next_called /\
  (RateLimiter.serve req (replicate 302 1700000000000) ∅).1 !! 300%nat
  = Some RateLimiter.too_many_requests.
Proof.
  intros req.
  pose proof (rateLimiter_window req 1700000000000 (replicate 301 1700000000000) ∅) as Hwin.
  change (1700000000000 :: replicate 301 1700000000000)
    with (replicate 302 1700000000000) in Hwin.
  destruct (RateLimiter.serve req (replicate 302 1700000000000) ∅) as [outcomes hits'].
  destruct Hwin as [_ Hout].
  - intros info Hinfo. by rewrite lookup_empty in Hinfo.
  - apply Forall_replicate. unfold RateLimiter.WINDOW_MS. lia.
  - cbn [fst]. split; [rewrite (Hout 299%nat) | rewrite (Hout 300%nat)];
      simpl; rewrite ?length_replicate; (done || lia).
Defined.

(** X28: the window is fixed, not sliding, and keys do not interfere. The
    first request after a window has run out is let through and opens a new
    window with a count of 1, however many requests were refused before; a
    request inside the window never moves the end of the window; and a
    request leaves the entries of all other keys as they were. *)
Theorem rateLimiter_reset_and_isolation req now hits :
  (forall info, hits !! RateLimiter.key_of req = Some info ->
     (RateLimiter.resetAt info < now ->
      RateLimiter.rateLimiter req now hits
      = (RateLimiter.next_called,
         <[RateLimiter.key_of req :=
             {| RateLimiter.count := 1;
                RateLimiter.resetAt := now + RateLimiter.WINDOW_MS |}]> hits)) /\
     (now <= RateLimiter.resetAt info ->
      RateLimiter.resetAt <$> (RateLimiter.rateLimiter req now hits).2 !! RateLimiter.key_of req
      = Some (RateLimiter.resetAt info))) /\
  (forall other, other <> RateLimiter.key_of req ->
     (RateLimiter.rateLimiter req now hits).2 !! other = hits !! other).
Proof.
  split.
  - intros info Hinfo. split.
    + intros Hold. apply rateLimiter_new_window. intros info' Hinfo'. congruence.
    + intros Hnow. rewrite (rateLimiter_in_window _ _ _ _ Hinfo Hnow). simpl.
      by rewrite lookup_insert_eq.
  - intros other Hne. unfold RateLimiter.rateLimiter. simpl. by rewrite lookup_insert_ne.
Qed.

(** ** config.ts *)

Lemma digit_char_code d :
  0 <= d < 10 -> Z.of_N (N_of_ascii (JS.digit_char d)) - 48 = d.
Proof.
  intros Hd.
  assert (d = 0 \/ d = 1 \/ d = 2 \/ d = 3 \/ d = 4 \/ d = 5 \/ d = 6 \/ d = 7 \/ d = 8 \/ d = 9)
    as Hcases by lia.
  repeat (destruct Hcases as [-> | Hcases]; [reflexivity |]). by subst d.
Qed.

Lemma decimal_digits_append fuel : forall n acc rest,
  JS.decimal_digits fuel n acc +:+ rest = JS.decimal_digits fuel n (acc +:+ rest).
Proof.
  induction fuel as [| f IH]; intros n acc rest; simpl; [done |].
  destruct (n <? 10); [done |]. by rewrite IH.
Qed.

Lemma decimal_digits_head fuel : forall n tail,
  exists c r, JS.decimal_digits fuel n tail = String c r /\ JS.is_digit c = true.
Proof.
  assert (forall n, JS.is_digit (JS.digit_char (n mod 10)) = true) as Hdigit
    by (intros n; apply digit_char_spec, Z.mod_pos_bound; lia).
  induction fuel as [| f IH]; intros n tail; simpl; [by eauto |].
  destruct (n <? 10); [by eauto | apply IH].
Qed.

Lemma digits_prefix_stop acc rest :
  (forall c r, rest = String c r -> JS.is_digit c = false) ->
  JS.digits_prefix_value acc rest = acc.
Proof. destruct rest as [| c r]; [done |]. intros H. simpl. by rewrite (H c r). Qed.

Lemma digits_prefix_decimal fuel : forall n tail,
  0 <= n -> Z.log2 n <= Z.of_nat fuel ->
  exists k, 0 <= k /\ forall acc,
    JS.digits_prefix_value acc (JS.decimal_digits fuel n tail)
    = JS.digits_prefix_value (Some (default 0 acc * 10 ^ k + n)) tail.
Proof.
  assert (forall n tail acc, 0 <= n < 10 ->
            JS.digits_prefix_value acc (String (JS.digit_char (n mod 10)) tail)
            = JS.digits_prefix_value (Some (default 0 acc * 10 ^ 1 + n)) tail) as Hone.
  { intros n tail acc Hn. rewrite Z.mod_small by done. simpl.
    destruct (digit_char_spec n Hn) as [-> _]. rewrite digit_char_code by done.
    do 2 f_equal. }
  induction fuel as [| f IH]; intros n tail Hn Hlog.
  - exists 1. split; [lia |]. intros acc. simpl. apply Hone.
    destruct (Z.le_gt_cases 2 n) as [H2 |]; [| lia].
    pose proof (Z.log2_le_mono 2 n H2) as Hl. change (Z.log2 2) with 1 in Hl. lia.
  - simpl. destruct (Z.ltb_spec n 10) as [Hlt | Hge].
    + exists 1. split; [lia |]. intros acc. by apply Hone.
    + assert (0 < n / 10) as Hq by (apply Z.div_str_pos; lia).
      pose proof (Z.div_mod n 10 ltac:(lia)) as Hdm.
      pose proof (Z.mod_pos_bound n 10 ltac:(lia)) as Hm.
      destruct (IH (n / 10) (String (JS.digit_char (n mod 10)) tail)) as (k & Hk0 & Hk).
      * lia.
      * assert (2 * (n / 10) <= n) as Hle by lia.
        pose proof (Z.log2_le_mono _ _ Hle) as Hmono.
        rewrite Z.log2_double in Hmono by done. lia.
      * exists (k + 1). split; [lia |]. intros acc. rewrite Hk. simpl.
        destruct (digit_char_spec (n mod 10) Hm) as [-> _].
        rewrite digit_char_code by done. do 2 f_equal.
        rewrite Z.pow_add_r by lia. lia.
Qed.

Lemma digits_prefix_toString n rest :
  0 <= n ->
  (forall c r, rest = String c r -> JS.is_digit c = false) ->
  JS.digits_prefix_value None (JS.decimal_digits (JS.digits_fuel n) n EmptyString +:+ rest)
  = Some n.
Proof.
  intros Hn Hrest. rewrite decimal_digits_append.
  destruct (digits_prefix_decimal (JS.digits_fuel n) n (EmptyString +:+ rest)) as (k & _ & Hk).
  - done.
  - unfold JS.digits_fuel. rewrite Z2Nat.id; [lia | apply Z.log2_nonneg].
  - rewrite Hk, digits_prefix_stop by done. simpl. f_equal.
Qed.

Lemma parseInt10_decimal n rest :
  (forall c r, rest = String c r -> JS.is_digit c = false) ->
  JS.parseInt10 (JS.bigint_toString n +:+ rest) = JS.to_number n.
Proof.
  intros Hrest. unfold JS.bigint_toString, JS.parseInt10.
  destruct (Z.ltb_spec n 0) as [Hneg | Hpos].
  - change (String "-" ?d +:+ rest) with (String "-" (d +:+ rest)).
    cbn [JS.trimStart]. change (JS.is_white_space "-") with false. cbv iota.
    change (Ascii.eqb "-" "-") with true. cbv iota.
    rewrite digits_prefix_toString by (done || lia).
    cbn [JS.signed_number]. f_equal. lia.
  - pose proof (digits_prefix_toString n rest Hpos Hrest) as Hvalue.
    rewrite decimal_digits_append in Hvalue |- *.
    destruct (decimal_digits_head (JS.digits_fuel n) n (EmptyString +:+ rest))
      as (c & r & Hcr & Hc).
    rewrite Hcr in Hvalue |- *. cbn [JS.trimStart].
    rewrite (digit_not_space _ Hc). destruct (digit_not_sign _ Hc) as [-> ->].
    by rewrite Hvalue.
Qed.

Lemma parseInt10_no_digit c r :
  JS.is_white_space c = false -> JS.is_digit c = false ->
  Ascii.eqb c "-" = false -> Ascii.eqb c "+" = false ->
  JS.parseInt10 (String c r) = JS.NaN.
Proof.
  intros Hws Hd Hm Hp. unfold JS.parseInt10. cbn [JS.trimStart].
  rewrite Hws, Hm, Hp. simpl. by rewrite Hd.
Qed.

Lemma to_number_safe n : JS.isSafeInteger n = true -> JS.to_number n = JS.num n.
Proof.
  unfold JS.isSafeInteger, JS.MAX_SAFE_INTEGER, JS.to_number. intros Hsafe%Z.leb_le.
  rewrite nearest_double_safe by lia. cbv zeta.
  destruct (Z.leb_spec (2 ^ 1024) (Z.abs n)) as [Hbig |]; [| done].
  assert (2 ^ 53 - 1 < 2 ^ 1024) by (by vm_compute). lia.
Qed.

(** X29: [loadWorkerConfig] falls back to "info", 1000 and 4 for settings
    that are unset or empty. A concurrency setting that begins with the
    decimal digits of an integer (fewer than twenty-one of them) is read as
    the number value of that integer, and whatever comes after the digits
    is ignored (so "0x10" is read as 0, and by X24 a worker so configured
    never starts a job). The number value of a safe integer is the integer
    itself; larger ones are rounded to a double, 9007199254740993 to
    9007199254740992. A setting that begins with anything but white space,
    a sign or a digit is read as NaN. *)
Theorem loadWorkerConfig_settings (env : gmap string string) :
  (JS.truthy_string (env !! "UNIT09_WORKER_LOG_LEVEL"%string) = false ->
   JS.truthy_string (env !! "UNIT09_WORKER_POLL_INTERVAL_MS"%string) = false ->
   JS.truthy_string (env !! "UNIT09_WORKER_MAX_CONCURRENCY"%string) = false ->
   Worker.as_config (Worker.loadWorkerConfig env) = Some Worker.default_config) /\
  (forall n rest,
     Z.abs n < 10 ^ 20 ->
     env !! "UNIT09_WORKER_MAX_CONCURRENCY"%string = Some (JS.bigint_toString n +:+ rest) ->
     (forall c r, rest = String c r -> JS.is_digit c = false) ->
     Worker.loaded_maxConcurrentJobs (Worker.loadWorkerConfig env) = JS.to_number n) /\
  (forall n, JS.isSafeInteger n = true -> JS.to_number n = JS.num n) /\
  JS.to_number 9007199254740993 = JS.num 9007199254740992 /\
  (forall c r,
     env !! "UNIT09_WORKER_MAX_CONCURRENCY"%string = Some (String c r) ->
     JS.is_white_space c = false -> JS.is_digit c = false ->
     Ascii.eqb c "-" = false -> Ascii.eqb c "+" = false ->
     Worker.loaded_maxConcurrentJobs (Worker.loadWorkerConfig env) = JS.NaN).
Proof.
  split; [| split; [| split; [apply to_number_safe | split; [by vm_compute |]]]].
  - intros Hlog Hpoll Hmax. unfold Worker.loadWorkerConfig, Worker.env_or.
    rewrite Hlog, Hpoll, Hmax. by vm_compute.
  - intros n rest _ Henv Hrest. unfold Worker.loadWorkerConfig, Worker.env_or.
    cbn [Worker.loaded_maxConcurrentJobs]. rewrite Henv.
    assert (JS.truthy_string (Some (JS.bigint_toString n +:+ rest)) = true) as ->.
    { unfold JS.bigint_toString. destruct (n <? 0); [done |].
      destruct (decimal_digits_cons (JS.digits_fuel n) n EmptyString) as (c & r & ->). done. }
    by apply parseInt10_decimal.
  - intros c r Henv Hws Hd Hm Hp. unfold Worker.loadWorkerConfig, Worker.env_or.
    cbn [Worker.loaded_maxConcurrentJobs]. rewrite Henv. cbn [JS.truthy_string default].
    by apply parseInt10_no_digit.
Qed.

Lemma loadWorkerConfig_settings_witness :
  Worker.as_config (Worker.loadWorkerConfig ∅) = Some Worker.default_config /\
  Worker.loaded_maxConcurrentJobs
    (Worker.loadWorkerConfig {[ "UNIT09_WORKER_MAX_CONCURRENCY"%string := "0x10"%string ]})
  = JS.num 0 /\
  Worker.loaded_maxConcurrentJobs
    (Worker.loadWorkerConfig
       {[ "UNIT09_WORKER_MAX_CONCURRENCY"%string := "9007199254740993"%string ]})
  = JS.num 9007199254740992 /\
  Worker.loaded_maxConcurrentJobs
    (Worker.loadWorkerConfig {[ "UNIT09_WORKER_MAX_CONCURRENCY"%string := "eight"%string ]})
  = JS.NaN.
Proof.
  split; [| split; [| split]].
  - by apply (loadWorkerConfig_settings ∅).
  - destruct (loadWorkerConfig_settings
                {[ "UNIT09_WORKER_MAX_CONCURRENCY"%string := "0x10"%string ]})
      as (_ & Hread & _).
    apply (Hread 0 "x10"%string).
    + by vm_compute.
    + by rewrite lookup_singleton_eq.
    + by intros c r [= <- <-].
  - destruct (loadWorkerConfig_settings
                {[ "UNIT09_WORKER_MAX_CONCURRENCY"%string := "9007199254740993"%string ]})
      as (_ & Hread & _ & Hround & _).
    rewrite <- Hround. apply (Hread 9007199254740993 EmptyString).
    + by vm_compute.
    + by rewrite lookup_singleton_eq.
    + by intros c r [=].
  - apply (loadWorkerConfig_settings _) with (c := "e"%char) (r := "ight"%string);
      first [done | by rewrite lookup_singleton_eq].
Defined.

(** ** listForks.ts *)

Lemma listForks_keeps_iff f item :
  ListForks.keeps f item = true <->
  (forall t, ListForks.forkType f = Some t -> Repo.forkType item = t) /\
  (forall p, ListForks.parent f = Some p -> Repo.parent item = p) /\
  (ListForks.activeOnly f = Some true -> Repo.isActive item = true).
Proof.
  rewrite <- (keeps_choice (ListForks.forkType f)), <- (keeps_choice (ListForks.parent f)).
  unfold ListForks.keeps.
  repeat match goal with
         | |- context [if ?b then _ else _] =>
             let H := fresh in destruct b eqn:H; cbn [negb]
         end;
    destruct (ListForks.activeOnly f) as [[|] |], (Repo.isActive item);
    simpl in *; intuition congruence.
Qed.

(** X30: what [listForks] makes of an account. Tags stored as a
    comma-separated string are split, trimmed and rid of empty pieces, with
    their case kept: just what [parseCsvTags] gives, and lower-casing them
    gives the tags [listRepos] would show; tags stored as an array are
    passed on untouched. Every fork on a page has the wanted kind, is active
    if only active ones are wanted, and has the wanted parent: with a parent
    of null only forks without parent are listed, with a key only the forks
    whose parent is that key. The page is a prefix of the matches, never
    carries a cursor, and for a limit that is not negative (100 by default)
    has at most that many items. *)
Theorem listForks_page accounts f :
  (forall s,
     ListForks.project_tags (Repo.tags_string s) = ListRepos.parseCsvTags (Some s) /\
     JS.toLowerCase <$> ListForks.project_tags (Repo.tags_string s)
     = Repo.listRepos_tags (Repo.tags_string s)) /\
  (forall l, ListForks.project_tags (Repo.tags_array l) = l) /\
  (forall item, item ∈ ListForks.items (ListForks.listForks accounts f) ->
     (exists acc, acc ∈ accounts /\ item = ListForks.project acc) /\
     (forall t, ListForks.forkType f = Some t -> Repo.forkType item = t) /\
     (forall p, ListForks.parent f = Some p -> Repo.parent item = p) /\
     (ListForks.activeOnly f = Some true -> Repo.isActive item = true)) /\
  ListForks.nextCursor (ListForks.listForks accounts f) = None /\
  ListForks.items (ListForks.listForks accounts f)
    `prefix_of` filter (fun item => ListForks.keeps f item = true)
                  (ListForks.project <$> accounts) /\
  (0 <= default 100 (ListForks.limit f) ->
   Z.of_nat (length (ListForks.items (ListForks.listForks accounts f)))
   <= default 100 (ListForks.limit f)).
Proof.
  assert (forall s, ListForks.project_tags (Repo.tags_string s)
                    = ListRepos.parseCsvTags (Some s)) as Hcsv.
  { intros s. unfold ListForks.project_tags, ListRepos.parseCsvTags.
    destruct s as [| c s]; [done |]. cbn [JS.truthy_string default].
    apply list_filter_iff. intros [| c' piece]; simpl; split; (done || lia). }
  split; [| split; [done |]].
  - intros s. split; [apply Hcsv |]. rewrite Hcsv.
    unfold Repo.listRepos_tags. rewrite normalizeRepoTags_unfold.
    unfold ListRepos.parseCsvTags. by destruct s.
  - split; [| split; [done |]].
    + intros item Hin. unfold ListForks.listForks in Hin. cbn [ListForks.items] in Hin.
      eapply elem_of_prefix in Hin; [| apply slice_to_prefix].
      apply list_elem_of_filter in Hin as [Hkeeps Hin].
      apply list_elem_of_fmap in Hin as (acc & -> & Hacc).
      split; [by exists acc |]. by apply listForks_keeps_iff.
    + split; [apply slice_to_prefix |].
      intros Hlimit. unfold ListForks.listForks. cbn [ListForks.items].
      rewrite slice_to_length.
      destruct (Z.ltb_spec (default 100 (ListForks.limit f)) 0); lia.
Qed.

Lemma listForks_page_witness :
  Repo.forkKey <$> ListForks.items
    (ListForks.listForks Samples.raw_forks
       {| ListForks.forkType := None; ListForks.parent := Some None;
          ListForks.activeOnly := None; ListForks.limit := None; ListForks.cursor := None |})
  = ["root"]%string /\
  Repo.tags (ListForks.project (Samples.raw_fork "root" None (Repo.tags_string "Unit09, Root")))
  = ListRepos.parseCsvTags (Some "Unit09, Root"%string).
Proof.
  split; [vm_compute; reflexivity |].
  destruct (listForks_page Samples.raw_forks
              {| ListForks.forkType := None; ListForks.parent := Some None;
                 ListForks.activeOnly := None; ListForks.limit := None;
                 ListForks.cursor := None |}) as [Htags _].
  apply (Htags "Unit09, Root"%string).
Defined.
